(** * devcontainer-companion: registry references, archive metadata,
      key-order tracking and the ordered serializer

    A shallow embedding of the Go sources of [internal/registry] and
    [internal/devcontainer], together with the parts of Go's standard
    library they call ([strings], [sort], [encoding/json]).

    Conventions.
    - A Go [string] or [[]byte] is a [string] (a sequence of 8-bit
      characters); [+:+] is concatenation.
    - A Go [error] is its message; [(T, error)] results are [result T].
    - A Go [map[string]T] is a [gmap string T]; a nil pointer is [None].
    - An append-only [bytes.Buffer] writer is modelled by the text it
      appends. *)

From Stdlib Require Import String Ascii ZArith List Lia Bool DecimalString.
From stdpp Require Import gmap strings list fin_maps sorting.

Set Warnings "-register-all".
#[local] Arguments String.append !_ _ /.
Local Open Scope string_scope.
Local Open Scope Z_scope.

(** ** Results and errors *)

Definition error : Type := string.

Inductive result (A : Type) : Type :=
| Ok (a : A)
| Err (e : error).
Arguments Ok {A} a.
Arguments Err {A} e.

Definition is_err {A} (r : result A) : bool :=
  match r with Ok _ => false | Err _ => true end.

(** ** Go's [strings] package (one-byte separators) *)

(** [s[:i]] and [s[i:]] for an index [i] within bounds. *)
Definition slice_to (s : string) (i : Z) : string :=
  substring 0 (Z.to_nat i) s.

Definition slice_from (s : string) (i : Z) : string :=
  substring (Z.to_nat i) (String.length s - Z.to_nat i) s.

Definition HasPrefix (s pre : string) : bool := String.prefix pre s.

Definition TrimPrefix (s pre : string) : string :=
  if HasPrefix s pre then slice_from s (Z.of_nat (String.length pre)) else s.

(** [strings.Index(s, sep)] for a one-byte [sep]: the first position of
    [sep] in [s], or [-1]. *)
Fixpoint Index (s : string) (sep : ascii) : Z :=
  match s with
  | EmptyString => -1
  | String a r =>
      if Ascii.eqb a sep then 0
      else let i := Index r sep in if i =? -1 then -1 else i + 1
  end.

(** [strings.LastIndex(s, sep)]: the last position of [sep], or [-1]. *)
Fixpoint LastIndex (s : string) (sep : ascii) : Z :=
  match s with
  | EmptyString => -1
  | String a r =>
      let i := LastIndex r sep in
      if i =? -1 then (if Ascii.eqb a sep then 0 else -1) else i + 1
  end.

(** [strings.SplitN(s, sep, 2)]: cut at the first separator, if any. *)
Definition SplitN2 (s : string) (sep : ascii) : list string :=
  let m := Index s sep in
  if m =? -1 then [s] else [slice_to s m; slice_from s (m + 1)].

(** [strings.Split(s, sep)]: all the fields between separators. *)
Fixpoint Split (s : string) (sep : ascii) : list string :=
  match s with
  | EmptyString => [EmptyString]
  | String a r =>
      if Ascii.eqb a sep then EmptyString :: Split r sep
      else match Split r sep with
           | h :: t => String a h :: t
           | [] => [String a EmptyString]
           end
  end.

(** [strings.Repeat(s, n)]. *)
Fixpoint Repeat (s : string) (n : nat) : string :=
  match n with
  | O => EmptyString
  | S k => s +:+ Repeat s k
  end.

(** [c] occurs in [s]. *)
Fixpoint occurs (c : ascii) (s : string) : bool :=
  match s with
  | EmptyString => false
  | String a r => Ascii.eqb a c || occurs c r
  end.

(** ** internal/registry/client.go *)

(** [ParseOciRef]: registry, repository and tag of a reference. *)
Definition ParseOciRef (ociRef : string) : result (string * string * string) :=
  let ref := TrimPrefix ociRef "oci://" in
  let parts := SplitN2 ref ":" in
  let tag := match parts with
             | [_; t] => t
             | _ => "latest"
             end in
  let fullPath := List.hd EmptyString parts in
  let slashIdx := Index fullPath "/" in
  if slashIdx =? -1 then Err ("invalid OCI reference: " +:+ ociRef)
  else Ok (slice_to fullPath slashIdx, slice_from fullPath (slashIdx + 1), tag).

(** The path of a reference as the specification describes it: the
    scheme prefix stripped and the tag cut off, split at the slashes.
    The first field is the registry host. *)
Definition ref_path (ociRef : string) : list string :=
  Split (List.hd EmptyString (SplitN2 (TrimPrefix ociRef "oci://") ":")) "/".

(** Number of path segments beyond the registry host. *)
Definition segments_beyond_host (ociRef : string) : nat :=
  (List.length (ref_path ociRef) - 1)%nat.

(** ** internal/registry/collection.go *)

(** [extractCollectionBase]. *)
Definition extractCollectionBase (ociRef : string) : string :=
  let ref := TrimPrefix ociRef "oci://" in
  let ref := let idx := LastIndex ref ":" in
             if negb (idx =? -1) then slice_to ref idx else ref in
  let ref := let idx := LastIndex ref "/" in
             if negb (idx =? -1) then slice_to ref idx else ref in
  ref.

(** The specification's wording of one cut: [t] is [s] with everything
    from the last [c] onward removed; a string without [c] is kept. *)
Definition cut_at_last (c : ascii) (s t : string) : Prop :=
  (exists suffix, s = t +:+ String c suffix /\ occurs c suffix = false)
  \/ (occurs c s = false /\ t = s).

(** *** Archive metadata extraction

    The gzip and tar readers are library code.  A tar reader over a
    finite input is the finite sequence of outcomes of its [Next] calls:
    entries (header name, and what [io.ReadAll] gives for the body),
    closed by [io.EOF] or by an error. *)

Inductive tar_stream : Type :=
| TarEOF
| TarError (e : error)
| TarEntry (name : string) (body : result string) (rest : tar_stream).

(** A stream that starts with the given entries. *)
Fixpoint tar_entries (l : list (string * result string)) (rest : tar_stream)
  : tar_stream :=
  match l with
  | [] => rest
  | (n, b) :: l' => TarEntry n b (tar_entries l' rest)
  end.

Section Archive.
Context {reader : Type}.
(** [gzip.NewReader(bytes.NewReader(blob))]: fails on a bad header. *)
Variable gzip_NewReader : string -> result reader.
(** [bytes.NewReader(blob)] as an [io.Reader]. *)
Variable bytes_NewReader : string -> reader.
Variable tar_NewReader : reader -> tar_stream.

(** The [for] loop of [extractJSONFromTgz] over the tar entries. *)
Fixpoint scanEntries {T} (json_Unmarshal : string -> result T)
    (filename : string) (tr : tar_stream) : result T :=
  match tr with
  | TarEOF => Err (filename +:+ " not found in archive")
  | TarError e => Err e
  | TarEntry hname body rest =>
      let name := TrimPrefix hname "./" in
      if String.eqb name filename then
        match body with
        | Err e => Err e
        | Ok data => json_Unmarshal data
        end
      else scanEntries json_Unmarshal filename rest
  end.

Definition extractJSONFromTgz {T} (json_Unmarshal : string -> result T)
    (blob : string) (filename : string) : result T :=
  let reader := match gzip_NewReader blob with
                | Err _ => bytes_NewReader blob
                | Ok gzr => gzr
                end in
  scanEntries json_Unmarshal filename (tar_NewReader reader).

(** The reader the tar scan ends up with. *)
Definition archive_reader (blob : string) : reader :=
  match gzip_NewReader blob with
  | Err _ => bytes_NewReader blob
  | Ok gzr => gzr
  end.

(** No entry of [l] is called [filename] once a leading "./" is
    stripped. *)
Definition no_match (filename : string) (l : list (string * result string)) : Prop :=
  Forall (fun e => TrimPrefix (fst e) "./" <> filename) l.

Context {TemplateDefinition FeatureDefinition : Type}.
Variable unmarshalTemplate : string -> result TemplateDefinition.
Variable unmarshalFeature : string -> result FeatureDefinition.

(** [extractItemJSON]: the returned triple (template, feature, error). *)
Definition extractItemJSON (blob : string)
  : option TemplateDefinition * option FeatureDefinition * option error :=
  match extractJSONFromTgz unmarshalTemplate blob "devcontainer-template.json" with
  | Ok tmpl => (Some tmpl, None, None)
  | Err _ =>
      match extractJSONFromTgz unmarshalFeature blob "devcontainer-feature.json" with
      | Ok feat => (None, Some feat, None)
      | Err _ => (None, None, Some "no metadata JSON found in blob")
      end
  end.
End Archive.


(** ** Go's [unicode/utf8] and [unicode/utf16] *)

(** The value of a byte. *)
Definition byte (c : ascii) : Z := Z.of_N (N_of_ascii c).

(** The byte of a value below 256. *)
Definition chr (z : Z) : ascii := ascii_of_N (Z.to_N z).

Definition RuneError : Z := 0xFFFD.

(** [utf8.first]: information about the first byte of an encoding; the
    low three bits are the size, the high four index [acceptRanges]. *)
Definition first (p0 : Z) : Z :=
  if p0 <? 0x80 then 0xF0        (* as: ASCII *)
  else if p0 <? 0xC2 then 0xF1   (* xx: invalid *)
  else if p0 <? 0xE0 then 0x02   (* s1 *)
  else if p0 =? 0xE0 then 0x13   (* s2 *)
  else if p0 <? 0xED then 0x03   (* s3 *)
  else if p0 =? 0xED then 0x23   (* s4 *)
  else if p0 <? 0xF0 then 0x03   (* s3 *)
  else if p0 =? 0xF0 then 0x34   (* s5 *)
  else if p0 <? 0xF4 then 0x04   (* s6 *)
  else if p0 =? 0xF4 then 0x44   (* s7 *)
  else 0xF1.                     (* xx *)

(** [utf8.acceptRanges]: the bounds of the second byte. *)
Definition acceptRanges (i : Z) : Z * Z :=
  if i =? 0 then (0x80, 0xBF)
  else if i =? 1 then (0xA0, 0xBF)
  else if i =? 2 then (0x80, 0x9F)
  else if i =? 3 then (0x90, 0xBF)
  else if i =? 4 then (0x80, 0x8F)
  else (0, 0).

(** [p[i]], for [i] within bounds. *)
Definition byte_at (p : string) (i : nat) : Z :=
  match String.get i p with
  | Some c => byte c
  | None => 0
  end.

(** [utf8.DecodeRune]: the first rune of [p] and its width in bytes;
    [(RuneError, 1)] on an invalid encoding. *)
Definition DecodeRune (p : string) : Z * Z :=
  let n := Z.of_nat (String.length p) in
  if n <? 1 then (RuneError, 0) else
  let p0 := byte_at p 0 in
  let x := first p0 in
  if x >=? 0xF0 then
    (* the source masks: the byte itself for ASCII, RuneError for xx *)
    (if Z.testbit x 0 then RuneError else p0, 1)
  else
  let sz := Z.land x 7 in
  let accept := acceptRanges (Z.shiftr x 4) in
  if n <? sz then (RuneError, 1) else
  let b1 := byte_at p 1 in
  if (b1 <? fst accept) || (snd accept <? b1) then (RuneError, 1) else
  if sz <=? 2 then
    (Z.lor (Z.shiftl (Z.land p0 0x1F) 6) (Z.land b1 0x3F), 2)
  else
  let b2 := byte_at p 2 in
  if (b2 <? 0x80) || (0xBF <? b2) then (RuneError, 1) else
  if sz <=? 3 then
    (Z.lor (Z.lor (Z.shiftl (Z.land p0 0x0F) 12) (Z.shiftl (Z.land b1 0x3F) 6))
           (Z.land b2 0x3F), 3)
  else
  let b3 := byte_at p 3 in
  if (b3 <? 0x80) || (0xBF <? b3) then (RuneError, 1) else
  (Z.lor (Z.lor (Z.lor (Z.shiftl (Z.land p0 0x07) 18)
                       (Z.shiftl (Z.land b1 0x3F) 12))
                (Z.shiftl (Z.land b2 0x3F) 6))
         (Z.land b3 0x3F), 4).

(** [utf8.EncodeRune]: the bytes written for rune [r]. *)
Definition EncodeRune (r : Z) : string :=
  let three (r : Z) :=
    String (chr (Z.lor 0xE0 (Z.shiftr r 12)))
      (String (chr (Z.lor 0x80 (Z.land (Z.shiftr r 6) 0x3F)))
         (String (chr (Z.lor 0x80 (Z.land r 0x3F))) EmptyString)) in
  if (0 <=? r) && (r <=? 0x7F) then String (chr r) EmptyString
  else if (0 <=? r) && (r <=? 0x7FF) then
    String (chr (Z.lor 0xC0 (Z.shiftr r 6)))
      (String (chr (Z.lor 0x80 (Z.land r 0x3F))) EmptyString)
  else if (r <? 0) || (0x10FFFF <? r) || ((0xD800 <=? r) && (r <=? 0xDFFF)) then
    three RuneError
  else if r <=? 0xFFFF then three r
  else
    String (chr (Z.lor 0xF0 (Z.shiftr r 18)))
      (String (chr (Z.lor 0x80 (Z.land (Z.shiftr r 12) 0x3F)))
         (String (chr (Z.lor 0x80 (Z.land (Z.shiftr r 6) 0x3F)))
            (String (chr (Z.lor 0x80 (Z.land r 0x3F))) EmptyString))).

(** [utf16.IsSurrogate]. *)
Definition IsSurrogate (r : Z) : bool := (0xD800 <=? r) && (r <? 0xE000).

(** [utf16.DecodeRune]: the rune of a surrogate pair, or U+FFFD. *)
Definition utf16_DecodeRune (r1 r2 : Z) : Z :=
  if (0xD800 <=? r1) && (r1 <? 0xDC00) && (0xDC00 <=? r2) && (r2 <? 0xE000)
  then Z.lor (Z.shiftl (r1 - 0xD800) 10) (r2 - 0xDC00) + 0x10000
  else RuneError.

(** ** Go's [encoding/json]: writing strings *)

Definition quote : ascii := "034"%char.
Definition backslash : ascii := "092"%char.

(** [hex[i]]: the digits of "0123456789abcdef". *)
Definition hex (i : Z) : ascii :=
  if i <? 10 then chr (48 + i) else chr (87 + i).

(** [htmlSafeSet]: the ASCII bytes written as they are. *)
Definition htmlSafeSet (b : Z) : bool :=
  (0x20 <=? b) && (b <? 0x80)
  && negb ((b =? 34) || (b =? 38) || (b =? 60) || (b =? 62) || (b =? 92)).

(** The escape written for an ASCII byte outside [htmlSafeSet]. *)
Definition escapeByte (b : Z) : string :=
  if (b =? 92) || (b =? 34) then String backslash (String (chr b) EmptyString)
  else if b =? 8 then String backslash "b"
  else if b =? 12 then String backslash "f"
  else if b =? 10 then String backslash "n"
  else if b =? 13 then String backslash "r"
  else if b =? 9 then String backslash "t"
  else String backslash
         ("u00" +:+ String (hex (Z.shiftr b 4))
                      (String (hex (Z.land b 0xF)) EmptyString)).

(** The loop of [appendString] (HTML escaping on, as [json.Marshal]
    has it) over [src[i:]]; every round moves [i] forward, so [len(src)]
    rounds are enough. *)
Fixpoint appendString_loop (fuel : nat) (src : string) : string :=
  match fuel with
  | O => EmptyString
  | S fuel' =>
      match src with
      | EmptyString => EmptyString
      | String b0 rest =>
          let b := byte b0 in
          if b <? 0x80 then
            if htmlSafeSet b then String b0 (appendString_loop fuel' rest)
            else escapeByte b +:+ appendString_loop fuel' rest
          else
            let '(c, size) := DecodeRune (substring 0 4 src) in
            if (c =? RuneError) && (size =? 1) then
              String backslash "ufffd" +:+ appendString_loop fuel' rest
            else if (c =? 0x2028) || (c =? 0x2029) then
              String backslash ("u202" +:+ String (hex (Z.land c 0xF)) EmptyString)
              +:+ appendString_loop fuel' (slice_from src size)
            else
              slice_to src size +:+ appendString_loop fuel' (slice_from src size)
      end
  end.

(** [json.Marshal] of a string. *)
Definition appendString (src : string) : string :=
  String quote (appendString_loop (String.length src) src +:+ String quote EmptyString).


(** ** Go's [encoding/json]: the scanner

    [Decoder.Token] deals with brackets, braces, colons and commas
    itself and hands the scanner only values that start with another
    byte, so the scanner's nesting stack stays empty: the value ends
    right after the literal (state [stateEndTop] of the source). *)

Inductive scan_state : Type :=
| stateBeginValue
| stateInString | stateInStringEsc
| stateInStringEscU | stateInStringEscU1 | stateInStringEscU12 | stateInStringEscU123
| stateNeg | state0 | state1 | stateDot | stateDot0 | stateE | stateESign | stateE0
| stateT | stateTr | stateTru
| stateF | stateFa | stateFal | stateFals
| stateN | stateNu | stateNul
| stateEndValue.

Inductive scan_op : Type :=
| scanContinue (next : scan_state)
| scanEnd
| scanError.

Definition isSpace (c : ascii) : bool :=
  (byte c <=? 32)
  && ((byte c =? 32) || (byte c =? 9) || (byte c =? 13) || (byte c =? 10)).

Definition isDigit (c : ascii) : bool := (48 <=? byte c) && (byte c <=? 57).

Definition isHex (c : ascii) : bool :=
  isDigit c || ((97 <=? byte c) && (byte c <=? 102))
            || ((65 <=? byte c) && (byte c <=? 70)).

(** One expected byte of a literal name. *)
Definition expect (want : ascii) (c : ascii) (next : scan_state) : scan_op :=
  if Ascii.eqb c want then scanContinue next else scanError.

(** [state0]: after a leading zero (or, from [state1], the integer
    digits). *)
Definition step_state0 (c : ascii) : scan_op :=
  if Ascii.eqb c "." then scanContinue stateDot
  else if Ascii.eqb c "e" || Ascii.eqb c "E" then scanContinue stateE
  else scanEnd.

(** [stateESign]: after the sign of an exponent. *)
Definition step_stateESign (c : ascii) : scan_op :=
  if isDigit c then scanContinue stateE0 else scanError.

(** [scanner.step]: one byte in state [s]. *)
Definition step (s : scan_state) (c : ascii) : scan_op :=
  match s with
  | stateBeginValue =>
      if isSpace c then scanContinue stateBeginValue
      else if Ascii.eqb c quote then scanContinue stateInString
      else if Ascii.eqb c "-" then scanContinue stateNeg
      else if Ascii.eqb c "0" then scanContinue state0
      else if Ascii.eqb c "t" then scanContinue stateT
      else if Ascii.eqb c "f" then scanContinue stateF
      else if Ascii.eqb c "n" then scanContinue stateN
      else if isDigit c then scanContinue state1
      else scanError
  | stateInString =>
      if Ascii.eqb c quote then scanContinue stateEndValue
      else if Ascii.eqb c backslash then scanContinue stateInStringEsc
      else if byte c <? 0x20 then scanError
      else scanContinue stateInString
  | stateInStringEsc =>
      if Ascii.eqb c "b" || Ascii.eqb c "f" || Ascii.eqb c "n" || Ascii.eqb c "r"
         || Ascii.eqb c "t" || Ascii.eqb c backslash || Ascii.eqb c "/"
         || Ascii.eqb c quote
      then scanContinue stateInString
      else if Ascii.eqb c "u" then scanContinue stateInStringEscU
      else scanError
  | stateInStringEscU =>
      if isHex c then scanContinue stateInStringEscU1 else scanError
  | stateInStringEscU1 =>
      if isHex c then scanContinue stateInStringEscU12 else scanError
  | stateInStringEscU12 =>
      if isHex c then scanContinue stateInStringEscU123 else scanError
  | stateInStringEscU123 =>
      if isHex c then scanContinue stateInString else scanError
  | stateNeg =>
      if Ascii.eqb c "0" then scanContinue state0
      else if isDigit c then scanContinue state1
      else scanError
  | state1 =>
      if isDigit c then scanContinue state1
      else step_state0 c
  | state0 => step_state0 c
  | stateDot =>
      if isDigit c then scanContinue stateDot0 else scanError
  | stateDot0 =>
      if isDigit c then scanContinue stateDot0
      else if Ascii.eqb c "e" || Ascii.eqb c "E" then scanContinue stateE
      else scanEnd
  | stateE =>
      if Ascii.eqb c "+" || Ascii.eqb c "-" then scanContinue stateESign
      else step_stateESign c
  | stateESign => step_stateESign c
  | stateE0 =>
      if isDigit c then scanContinue stateE0 else scanEnd
  | stateT => expect "r" c stateTr
  | stateTr => expect "u" c stateTru
  | stateTru => expect "e" c stateEndValue
  | stateF => expect "a" c stateFa
  | stateFa => expect "l" c stateFal
  | stateFal => expect "s" c stateFals
  | stateFals => expect "e" c stateEndValue
  | stateN => expect "u" c stateNu
  | stateNu => expect "l" c stateNul
  | stateNul => expect "l" c stateEndValue
  | stateEndValue => scanEnd
  end.

(** The scan of [Decoder.readValue] from state [s]: the number of
    bytes of the value, or [None] on an error.  At the end of the input
    the source feeds the scanner a space. *)
Fixpoint scanValue (s : scan_state) (buf : string) : option nat :=
  match buf with
  | EmptyString =>
      match step s " " with
      | scanEnd => Some O
      | _ => None
      end
  | String c rest =>
      match step s c with
      | scanEnd => Some O
      | scanError => None
      | scanContinue s' => option_map S (scanValue s' rest)
      end
  end.

(** [Decoder.readValue]. *)
Definition readValue (buf : string) : option nat := scanValue stateBeginValue buf.

(** ** Go's [encoding/json]: reading strings *)

Definition hexval (c : ascii) : Z :=
  if isDigit c then byte c - 48
  else if (97 <=? byte c) && (byte c <=? 102) then byte c - 97 + 10
  else if (65 <=? byte c) && (byte c <=? 70) then byte c - 65 + 10
  else -1.

(** [getu4]: the rune of a leading backslash-u escape, or [-1]. *)
Definition getu4 (s : string) : Z :=
  match s with
  | String b (String u (String h1 (String h2 (String h3 (String h4 _))))) =>
      if negb (Ascii.eqb b backslash) || negb (Ascii.eqb u "u") then -1
      else if isHex h1 && isHex h2 && isHex h3 && isHex h4 then
        ((hexval h1 * 16 + hexval h2) * 16 + hexval h3) * 16 + hexval h4
      else -1
  | _ => -1
  end.

(** The first loop of [unquoteBytes]: the length of the longest prefix
    without a backslash, a quote, a control byte or invalid UTF-8. *)
Fixpoint plainPrefix (fuel : nat) (s : string) : Z :=
  match fuel with
  | O => 0
  | S fuel' =>
      match s with
      | EmptyString => 0
      | String c0 rest =>
          let c := byte c0 in
          if (c =? 92) || (c =? 34) || (c <? 32) then 0
          else if c <? 0x80 then 1 + plainPrefix fuel' rest
          else
            let '(rr, size) := DecodeRune s in
            if (rr =? RuneError) && (size =? 1) then 0
            else size + plainPrefix fuel' (slice_from s size)
      end
  end.

(** The second loop of [unquoteBytes] over [s[r:]]: what it writes, or
    [None] when the literal is malformed. *)
Fixpoint unquoteLoop (fuel : nat) (s : string) : option string :=
  match fuel with
  | O => Some EmptyString
  | S fuel' =>
      match s with
      | EmptyString => Some EmptyString
      | String c0 rest =>
          let c := byte c0 in
          if c =? 92 then
            match rest with
            | EmptyString => None
            | String e0 rest' =>
                let e := byte e0 in
                if (e =? 34) || (e =? 92) || (e =? 47) || (e =? 39) then
                  option_map (String e0) (unquoteLoop fuel' rest')
                else if e =? 98 then option_map (String (chr 8)) (unquoteLoop fuel' rest')
                else if e =? 102 then option_map (String (chr 12)) (unquoteLoop fuel' rest')
                else if e =? 110 then option_map (String (chr 10)) (unquoteLoop fuel' rest')
                else if e =? 114 then option_map (String (chr 13)) (unquoteLoop fuel' rest')
                else if e =? 116 then option_map (String (chr 9)) (unquoteLoop fuel' rest')
                else if e =? 117 then
                  let rr := getu4 s in
                  if rr <? 0 then None
                  else
                    let s6 := slice_from s 6 in
                    if IsSurrogate rr then
                      let dec := utf16_DecodeRune rr (getu4 s6) in
                      if negb (dec =? RuneError) then
                        option_map (String.append (EncodeRune dec))
                                   (unquoteLoop fuel' (slice_from s6 6))
                      else
                        option_map (String.append (EncodeRune RuneError))
                                   (unquoteLoop fuel' s6)
                    else
                      option_map (String.append (EncodeRune rr))
                                 (unquoteLoop fuel' s6)
                else None
            end
          else if (c =? 34) || (c <? 32) then None
          else if c <? 0x80 then option_map (String c0) (unquoteLoop fuel' rest)
          else
            let '(rr, size) := DecodeRune s in
            option_map (String.append (EncodeRune rr))
                       (unquoteLoop fuel' (slice_from s size))
      end
  end.

(** [s] without its last byte, when that byte is [c]. *)
Fixpoint dropLast (c : ascii) (s : string) : option string :=
  match s with
  | EmptyString => None
  | String a r =>
      match r with
      | EmptyString => if Ascii.eqb a c then Some EmptyString else None
      | String _ _ => option_map (String a) (dropLast c r)
      end
  end.

(** [unquote]: the string a JSON string literal stands for. *)
Definition unquote (lit : string) : option string :=
  match lit with
  | String q body' =>
      if Ascii.eqb q quote then
        match dropLast quote body' with
        | None => None
        | Some body =>
            let n := String.length body in
            let r := plainPrefix n body in
            if r =? Z.of_nat n then Some body
            else option_map (String.append (slice_to body r))
                            (unquoteLoop n (slice_from body r))
        end
      else None
  | EmptyString => None
  end.


(** ** Go's [encoding/json]: numbers

    A [float64] is held as the literal that stands for it.  Decoding a
    literal into a [float64] fails when [strconv.ParseFloat] reports it
    out of range, that is when the number rounds to an infinity: its
    magnitude is at least [2^1024 - 2^970]. *)

(** A run of digits: the number read so far, the count of digits and
    the rest. *)
Fixpoint digits (acc : Z) (n : Z) (s : string) : Z * Z * string :=
  match s with
  | EmptyString => (acc, n, s)
  | String c r =>
      if isDigit c then digits (acc * 10 + (byte c - 48)) (n + 1) r
      else (acc, n, s)
  end.

Definition floatOverflows (lit : string) : bool :=
  let s := match lit with
           | String c r => if Ascii.eqb c "-" then r else lit
           | EmptyString => lit
           end in
  let '(m1, _, s1) := digits 0 0 s in
  let '(m, nfrac, s2) :=
    match s1 with
    | String c r => if Ascii.eqb c "." then digits m1 0 r else (m1, 0, s1)
    | EmptyString => (m1, 0, s1)
    end in
  let e :=
    match s2 with
    | String c r =>
        if Ascii.eqb c "e" || Ascii.eqb c "E" then
          match r with
          | String sg r' =>
              if Ascii.eqb sg "+" then (digits 0 0 r').1.1
              else if Ascii.eqb sg "-" then - (digits 0 0 r').1.1
              else (digits 0 0 r).1.1
          | EmptyString => 0
          end
        else 0
    | EmptyString => 0
    end in
  let exp10 := e - nfrac in
  let limit := 2 ^ 1024 - 2 ^ 970 in
  if m =? 0 then false
  else if 0 <=? exp10 then limit <=? m * 10 ^ exp10
  else limit * 10 ^ (- exp10) <=? m.

(** ** Go's [encoding/json]: the token stream of a [Decoder] *)

(** A [json.Token]. *)
Inductive json_Token : Type :=
| Delim (c : ascii)
| TString (s : string)
| TBool (b : bool)
| TFloat (lit : string)
| TNil.

(** What a call gives back: a token, an error, or a panic. *)
Inductive token_result : Type :=
| TokOk (t : json_Token)
| TokErr
| TokPanic.

Inductive token_state : Type :=
| tokenTopValue
| tokenArrayStart | tokenArrayValue | tokenArrayComma
| tokenObjectStart | tokenObjectKey | tokenObjectColon | tokenObjectValue
| tokenObjectComma.

(** A [json.Decoder] over an in-memory reader: [buf] is the unread
    input ([dec.buf[dec.scanp:]] followed by what the reader still
    holds), [err] tells whether [dec.err] is set. *)
Record Decoder : Type := mkDecoder {
  buf : string;
  err : bool;
  tokenState : token_state;
  tokenStack : list token_state
}.

Definition NewDecoder (data : string) : Decoder :=
  mkDecoder data false tokenTopValue [].

Definition set_buf (dec : Decoder) (b : string) : Decoder :=
  mkDecoder b (err dec) (tokenState dec) (tokenStack dec).

Definition set_state (dec : Decoder) (s : token_state) : Decoder :=
  mkDecoder (buf dec) (err dec) s (tokenStack dec).

Fixpoint skipSpace (s : string) : string :=
  match s with
  | EmptyString => EmptyString
  | String c r => if isSpace c then skipSpace r else s
  end.

(** [Decoder.peek]: the next byte that is not a space; the read
    position moves to it.  [None] is the error at the end of the input. *)
Definition peek (dec : Decoder) : option ascii * Decoder :=
  match skipSpace (buf dec) with
  | EmptyString => (None, dec)
  | String c r => (Some c, set_buf dec (String c r))
  end.

(** [Decoder.More]. *)
Definition More (dec : Decoder) : bool * Decoder :=
  match peek dec with
  | (Some c, dec') => (negb (Ascii.eqb c "]") && negb (Ascii.eqb c "}"), dec')
  | (None, dec') => (false, dec')
  end.

Definition tokenValueAllowed (s : token_state) : bool :=
  match s with
  | tokenTopValue | tokenArrayStart | tokenArrayValue | tokenObjectValue => true
  | _ => false
  end.

Definition tokenValueEnd (s : token_state) : token_state :=
  match s with
  | tokenArrayStart | tokenArrayValue => tokenArrayComma
  | tokenObjectValue => tokenObjectComma
  | _ => s
  end.

(** The value a scalar literal decodes to ([literalInterface]). *)
Definition literalInterface (item : string) : token_result :=
  match item with
  | EmptyString => TokPanic
  | String c _ =>
      if Ascii.eqb c "n" then TokOk TNil
      else if Ascii.eqb c "t" then TokOk (TBool true)
      else if Ascii.eqb c "f" then TokOk (TBool false)
      else if Ascii.eqb c quote then
        match unquote item with
        | Some s => TokOk (TString s)
        | None => TokPanic
        end
      else if floatOverflows item then TokErr
      else TokOk (TFloat item)
  end.

(** [Decoder.Decode] as [Token] calls it: the token state allows a
    value and the read position is on a byte that is not a space. *)
Definition Decode (dec : Decoder) : token_result * Decoder :=
  if err dec then (TokErr, dec)
  else
    match readValue (buf dec) with
    | None => (TokErr, mkDecoder (buf dec) true (tokenState dec) (tokenStack dec))
    | Some n =>
        let item := substring 0 n (buf dec) in
        let rest := substring n (String.length (buf dec) - n) (buf dec) in
        (literalInterface item,
         mkDecoder rest (err dec) (tokenValueEnd (tokenState dec)) (tokenStack dec))
    end.

(** Leaving an array or an object: the saved state comes back. *)
Definition popState (dec : Decoder) (rest : string) : Decoder :=
  match tokenStack dec with
  | s :: stack => mkDecoder rest (err dec) (tokenValueEnd s) stack
  | [] => mkDecoder rest (err dec) tokenTopValue []
  end.

Definition pushState (dec : Decoder) (rest : string) (s : token_state) : Decoder :=
  mkDecoder rest (err dec) s (tokenState dec :: tokenStack dec).

(** [Decoder.Token].  The loop goes round again only after a colon or
    a comma has been consumed, so it comes to an end within as many
    rounds as there are bytes (plus one). *)
Fixpoint Token_loop (fuel : nat) (dec : Decoder) : token_result * Decoder :=
  match fuel with
  | O => (TokErr, dec)
  | S fuel' =>
      match peek dec with
      | (None, dec) => (TokErr, dec)
      | (Some c, dec) =>
          let rest := match buf dec with String _ r => r | EmptyString => EmptyString end in
          let st := tokenState dec in
          if Ascii.eqb c "[" then
            if tokenValueAllowed st
            then (TokOk (Delim "["), pushState dec rest tokenArrayStart)
            else (TokErr, dec)
          else if Ascii.eqb c "]" then
            match st with
            | tokenArrayStart | tokenArrayComma => (TokOk (Delim "]"), popState dec rest)
            | _ => (TokErr, dec)
            end
          else if Ascii.eqb c "{" then
            if tokenValueAllowed st
            then (TokOk (Delim "{"), pushState dec rest tokenObjectStart)
            else (TokErr, dec)
          else if Ascii.eqb c "}" then
            match st with
            | tokenObjectStart | tokenObjectComma => (TokOk (Delim "}"), popState dec rest)
            | _ => (TokErr, dec)
            end
          else if Ascii.eqb c ":" then
            match st with
            | tokenObjectColon =>
                Token_loop fuel' (set_state (set_buf dec rest) tokenObjectValue)
            | _ => (TokErr, dec)
            end
          else if Ascii.eqb c "," then
            match st with
            | tokenArrayComma =>
                Token_loop fuel' (set_state (set_buf dec rest) tokenArrayValue)
            | tokenObjectComma =>
                Token_loop fuel' (set_state (set_buf dec rest) tokenObjectKey)
            | _ => (TokErr, dec)
            end
          else
            let key := match st with
                       | tokenObjectStart | tokenObjectKey => Ascii.eqb c quote
                       | _ => false
                       end in
            if key then
              (* an object key: decoded into a string as a top value *)
              match Decode (set_state dec tokenTopValue) with
              | (TokOk t, dec') => (TokOk t, set_state dec' tokenObjectColon)
              | (r, dec') => (r, set_state dec' st)
              end
            else if tokenValueAllowed st then Decode dec
            else (TokErr, dec)
      end
  end.

Definition Token (dec : Decoder) : token_result * Decoder :=
  Token_loop (S (String.length (buf dec))) dec.


(** ** internal/devcontainer: the key-order tracker *)

(** [keyOrder]: the keys of an object in document order and the orders
    of its nested objects.  A [*keyOrder] is an [option keyOrder]. *)
Inductive keyOrder : Type :=
| KeyOrder (keys : list string) (children : gmap string keyOrder).

Definition keys (o : keyOrder) : list string :=
  match o with KeyOrder ks _ => ks end.

Definition children (o : keyOrder) : gmap string keyOrder :=
  match o with KeyOrder _ ch => ch end.

(** How a call ends: it returns, it panics, or the model has used up
    its fuel without seeing it return. *)
Inductive exec (A : Type) : Type :=
| Returns (a : A)
| Panics
| OutOfFuel.
Arguments Returns {A} a.
Arguments Panics {A}.
Arguments OutOfFuel {A}.

(** [decodeValueOrder], [decodeObjectOrder] (entered at the head of its
    loop, with the order built so far) and [decodeArrayOrder].  A result
    is the order, whether the error is non-nil, and the decoder. *)
Fixpoint decodeValueOrder (fuel : nat) (dec : Decoder)
  : exec (option keyOrder * bool * Decoder) :=
  match fuel with
  | O => OutOfFuel
  | S fuel =>
      match Token dec with
      | (TokPanic, _) => Panics
      | (TokErr, dec) => Returns (None, true, dec)
      | (TokOk (Delim c), dec) =>
          if Ascii.eqb c "{" then decodeObjectOrder fuel (KeyOrder [] ∅) dec
          else if Ascii.eqb c "[" then decodeArrayOrder fuel dec
          else Returns (None, false, dec)
      | (TokOk _, dec) => Returns (None, false, dec)
      end
  end
with decodeObjectOrder (fuel : nat) (order : keyOrder) (dec : Decoder)
  : exec (option keyOrder * bool * Decoder) :=
  match fuel with
  | O => OutOfFuel
  | S fuel =>
      match More dec with
      | (false, dec) =>
          (* consume closing '}' *)
          match Token dec with
          | (TokPanic, _) => Panics
          | (_, dec) => Returns (Some order, false, dec)
          end
      | (true, dec) =>
          match Token dec with
          | (TokPanic, _) => Panics
          | (TokErr, dec) => Returns (Some order, true, dec)
          | (TokOk (TString key), dec) =>
              let order := KeyOrder (keys order ++ [key])%list (children order) in
              match decodeValueOrder fuel dec with
              | Returns (_, true, dec) => Returns (Some order, true, dec)
              | Returns (child, false, dec) =>
                  let order :=
                    match child with
                    | Some c => KeyOrder (keys order) (<[key := c]> (children order))
                    | None => order
                    end in
                  decodeObjectOrder fuel order dec
              | Panics => Panics
              | OutOfFuel => OutOfFuel
              end
          | (TokOk _, dec) => decodeObjectOrder fuel order dec
          end
      end
  end
with decodeArrayOrder (fuel : nat) (dec : Decoder)
  : exec (option keyOrder * bool * Decoder) :=
  match fuel with
  | O => OutOfFuel
  | S fuel =>
      match More dec with
      | (false, dec) =>
          (* consume closing ']' *)
          match Token dec with
          | (TokPanic, _) => Panics
          | (_, dec) => Returns (None, false, dec)
          end
      | (true, dec) =>
          match decodeValueOrder fuel dec with
          | Returns (_, _, dec) => decodeArrayOrder fuel dec
          | Panics => Panics
          | OutOfFuel => OutOfFuel
          end
      end
  end.

(** [extractKeyOrder]. *)
Definition extractKeyOrder (fuel : nat) (data : string) : exec (option keyOrder) :=
  match decodeValueOrder fuel (NewDecoder data) with
  | Returns (order, _, _) => Returns order
  | Panics => Panics
  | OutOfFuel => OutOfFuel
  end.

(** ** internal/devcontainer: the ordered serializer *)

(** The structured value: what [json.Unmarshal] puts in an [any].  A
    number is held as the text [json.Marshal] prints for it (the empty
    text for a NaN or an infinity, which [json.Marshal] refuses). *)
Inductive value : Type :=
| VNull
| VBool (b : bool)
| VNumber (lit : string)
| VString (s : string)
| VList (arr : list value)
| VObject (m : gmap string value).

(** [json.Marshal] of a value that is neither a map nor a slice. *)
Definition json_Marshal (v : value) : string :=
  match v with
  | VNull => "null"
  | VBool true => "true"
  | VBool false => "false"
  | VNumber lit => lit
  | VString s => appendString s
  | VList _ | VObject _ => EmptyString
  end.

(** [sort.Strings]. *)
Definition sort_Strings (l : list string) : list string :=
  merge_sort String.le l.

(** The keys a [range] over the map goes through, in some order. *)
Definition range_keys {A} (m : gmap string A) : list string :=
  (map_to_list m).*1.

(** [seen[k]], false for a missing key. *)
Definition seen_at (seen : gmap string bool) (k : string) : bool :=
  default false (seen !! k).

(** [orderedKeysForMap]. *)
Definition orderedKeysForMap {A} (m : gmap string A) (order : option keyOrder)
  : list string :=
  match order with
  | None => sort_Strings (range_keys m)
  | Some order =>
      let '(ks, seen) :=
        foldl (fun (acc : list string * gmap string bool) (k : string) =>
                 match m !! k with
                 | Some _ => ((acc.1 ++ [k])%list, <[k := true]> (acc.2))
                 | None => acc
                 end)
              ([], ∅) (keys order) in
      let newKeys := List.filter (fun k => negb (seen_at seen k)) (range_keys m) in
      (ks ++ sort_Strings newKeys)%list
  end.

Definition nl : ascii := "010"%char.

Definition is_nil {A} (l : list A) : bool :=
  match l with [] => true | _ => false end.

(** The comma after every element but the last, and the newline. *)
Definition line_end {A} (rest : list A) : string :=
  (if is_nil rest then EmptyString else ",") +:+ String nl EmptyString.

(** A writer for a value: [writeValue] with the value already given. *)
Definition writer : Type := option keyOrder -> string -> nat -> string.

(** The writer of [m[k]]; a missing key gives nil, written "null". *)
Definition member_writer (w : gmap string writer) (k : string) : writer :=
  default (fun _ _ _ => "null") (w !! k).

(** The loop of [writeObject] over [keys[i:]]. *)
Fixpoint writeMembers (w : gmap string writer) (order : option keyOrder)
    (indent : string) (depth : nat) (ks : list string) : string :=
  match ks with
  | [] => EmptyString
  | k :: rest =>
      Repeat indent (depth + 1)
      +:+ appendString k +:+ ": "
      +:+ member_writer w k (order ≫= fun o => children o !! k) indent (depth + 1)%nat
      +:+ line_end rest
      +:+ writeMembers w order indent depth rest
  end.

(** [writeObject]; the map holds the writer of each member. *)
Definition writeObject (w : gmap string writer) (order : option keyOrder)
    (indent : string) (depth : nat) : string :=
  if decide (size w = 0%nat) then "{}"
  else
    let keys := orderedKeysForMap w order in
    String "{" (String nl EmptyString)
    +:+ writeMembers w order indent depth keys
    +:+ Repeat indent depth +:+ "}".

Definition isPrimitive (v : value) : bool :=
  match v with
  | VObject _ | VList _ => false
  | _ => true
  end.

(** The compact loop of [writeArray] over [arr[i:]]. *)
Fixpoint writeCompact (arr : list value) : string :=
  match arr with
  | [] => EmptyString
  | v :: rest =>
      json_Marshal v +:+ (if is_nil rest then EmptyString else ", ")
      +:+ writeCompact rest
  end.

(** The multi-line loop of [writeArray] over [arr[i:]]; [wv] writes an
    element one level down with a nil order. *)
Fixpoint writeElements (wv : value -> string) (indent : string) (depth : nat)
    (arr : list value) : string :=
  match arr with
  | [] => EmptyString
  | v :: rest =>
      Repeat indent (depth + 1) +:+ wv v +:+ line_end rest
      +:+ writeElements wv indent depth rest
  end.

(** [writeArray]. *)
Definition writeArray (wv : value -> string) (arr : list value)
    (indent : string) (depth : nat) : string :=
  if is_nil arr then "[]"
  else if forallb isPrimitive arr then
    "[" +:+ writeCompact arr +:+ "]"
  else
    String "[" (String nl EmptyString)
    +:+ writeElements wv indent depth arr
    +:+ Repeat indent depth +:+ "]".

(** [writeValue]. *)
Fixpoint writeValue (v : value) (order : option keyOrder) (indent : string)
    (depth : nat) {struct v} : string :=
  match v with
  | VObject m => writeObject (writeValue <$> m) order indent depth
  | VList arr =>
      writeArray (fun e => writeValue e None indent (depth + 1)%nat) arr indent depth
  | _ => json_Marshal v
  end.

(** [marshalOrdered]. *)
Definition marshalOrdered (v : value) (order : option keyOrder) : string :=
  writeValue v order "  " 0 +:+ String nl EmptyString.

(** ** internal/devcontainer: writing the configuration file

    The file system and the comment stripper are outside the program:
    the operating-system calls act on a state of the world. *)
Section Facade.
Context {world : Type}.
Variable os_ReadFile : string -> world -> result string * world.
Variable os_MkdirAll : string -> world -> option error * world.
Variable os_WriteFile : string -> string -> world -> option error * world.
Variable filepath_Dir : string -> string.
Variable jsonc_ToJSON : string -> string.

(** The second half of [WriteConfig]: the directory, then the file. *)
Definition persist (path data : string) (w : world) : option error * world :=
  match os_MkdirAll (filepath_Dir path) w with
  | (Some e, w) => (Some ("creating directory: " +:+ e), w)
  | (None, w) =>
      match os_WriteFile path data w with
      | (Some e, w) => (Some ("writing devcontainer.json: " +:+ e), w)
      | (None, w) => (None, w)
      end
  end.

(** [WriteConfig]. *)
Definition WriteConfig (fuel : nat) (path : string) (config : gmap string value)
    (w : world) : exec (option error * world) :=
  let '(existing, w) := os_ReadFile path w in
  let order :=
    match existing with
    | Ok existing => extractKeyOrder fuel (jsonc_ToJSON existing)
    | Err _ => Returns None
    end in
  match order with
  | Returns order => Returns (persist path (marshalOrdered (VObject config) order) w)
  | Panics => Panics
  | OutOfFuel => OutOfFuel
  end.
End Facade.

(** ** Writing down documents

    In the examples a JSON text is written with an apostrophe where it
    has a double quote. *)
Fixpoint dq (s : string) : string :=
  match s with
  | EmptyString => EmptyString
  | String c r => String (if Ascii.eqb c "'" then quote else c) (dq r)
  end.

(** A map from its list of entries. *)
Definition obj (l : list (string * value)) : value := VObject (list_to_map l).

(** ** Notions used in the statements *)

(** The keys of the prior order that are still in the map, in the
    recorded order. *)
Definition kept_keys {A} (m : gmap string A) (o : keyOrder) : list string :=
  List.filter (fun k => bool_decide (is_Some (m !! k))) (keys o).

(** The order [writeObject] hands down for the member [k]. *)
Definition child_order (order : option keyOrder) (k : string) : option keyOrder :=
  order ≫= fun o => children o !! k.

(** The member lines of an object for the keys [ks], read off the map
    of values: indentation, key, colon and space, the value one level
    down, a comma but after the last, a newline. *)
Fixpoint member_lines (m : gmap string value) (order : option keyOrder)
    (indent : string) (depth : nat) (ks : list string) : string :=
  match ks with
  | [] => EmptyString
  | k :: rest =>
      Repeat indent (depth + 1)
      +:+ appendString k +:+ ": "
      +:+ writeValue (default VNull (m !! k)) (child_order order k) indent (depth + 1)%nat
      +:+ line_end rest
      +:+ member_lines m order indent depth rest
  end.

(** The element lines of a multi-line list. *)
Fixpoint element_lines (indent : string) (depth : nat) (arr : list value) : string :=
  match arr with
  | [] => EmptyString
  | v :: rest =>
      Repeat indent (depth + 1)
      +:+ writeValue v None indent (depth + 1)%nat
      +:+ line_end rest
      +:+ element_lines indent depth rest
  end.

(** A number literal as [json.Marshal] prints one: it starts with a
    digit or a minus sign, the scanner reads it as one whole value, and
    it is in the range of a [float64]. *)
Definition wf_number (lit : string) : bool :=
  match lit with
  | EmptyString => false
  | String c _ =>
      (isDigit c || Ascii.eqb c "-")
      && bool_decide (readValue lit = Some (String.length lit))
      && negb (floatOverflows lit)
  end.

(** Every entry of a map of booleans holds. *)
Definition all_true (m : gmap string bool) : bool :=
  map_fold (fun _ b acc => b && acc) true m.

(** A well-formed value: every number in it has a literal. *)
Fixpoint wf_value (v : value) : bool :=
  match v with
  | VNumber lit => wf_number lit
  | VList arr => forallb wf_value arr
  | VObject m => all_true (wf_value <$> m)
  | _ => true
  end.

(** The number of nodes of a value. *)
Fixpoint value_size (v : value) : nat :=
  match v with
  | VList arr => S (list_sum (List.map value_size arr))
  | VObject m => S (map_fold (fun _ n acc => (n + acc)%nat) O (value_size <$> m))
  | _ => 1
  end.




(** ** Notions used in the proofs *)

(** The scanner state after the bytes of [s], when none of them ends
    the value or is an error. *)
Fixpoint run (st : scan_state) (s : string) : option scan_state :=
  match s with
  | EmptyString => Some st
  | String c r =>
      match step st c with
      | scanContinue st' => run st' r
      | _ => None
      end
  end.

(** Every byte of [s] satisfies [p]. *)
Fixpoint all_bytes (p : ascii -> bool) (s : string) : bool :=
  match s with
  | EmptyString => true
  | String c r => p c && all_bytes p r
  end.

(** A byte that may follow a value in the serializer's output. *)
Definition closes_value (c : ascii) : bool :=
  Ascii.eqb c "," || Ascii.eqb c nl || Ascii.eqb c "]".

(** A text that starts with such a byte. *)
Definition delimited (s : string) : Prop :=
  match s with
  | EmptyString => False
  | String c _ => closes_value c = true
  end.

(** [s] is valid UTF-8, as [utf8.ValidString] reports it: going
    through [s] rune by rune, [utf8.DecodeRune] never gives
    [(RuneError, 1)]. *)
Fixpoint valid_utf8_loop (fuel : nat) (s : string) : bool :=
  match fuel with
  | O => true
  | S fuel' =>
      match s with
      | EmptyString => true
      | String b0 rest =>
          if byte b0 <? 0x80 then valid_utf8_loop fuel' rest
          else
            let '(c, size) := DecodeRune (substring 0 4 s) in
            if (c =? RuneError) && (size =? 1) then false
            else valid_utf8_loop fuel' (slice_from s size)
      end
  end.

Definition valid_utf8 (s : string) : bool := valid_utf8_loop (String.length s) s.

(** Every key of every object of the value is valid UTF-8. *)
Fixpoint keys_valid (v : value) : bool :=
  match v with
  | VList arr => forallb keys_valid arr
  | VObject m =>
      forallb valid_utf8 (range_keys m) && all_true (keys_valid <$> m)
  | _ => true
  end.

(** A key survives the round trip through its JSON string literal:
    decoding what [json.Marshal] writes for it gives the key back. *)
Definition key_roundtrips (k : string) : bool :=
  bool_decide (unquote (appendString k) = Some k).

(** Every key of every object of the value survives that round trip. *)
Fixpoint keys_roundtrip (v : value) : bool :=
  match v with
  | VList arr => forallb keys_roundtrip arr
  | VObject m =>
      forallb key_roundtrips (range_keys m) && all_true (keys_roundtrip <$> m)
  | _ => true
  end.

(** The children of an order, as [decodeObjectOrder] stores them while
    it goes through the keys [ks]; [f] gives the order of each member. *)
Definition build_children (f : string -> option keyOrder) (ks : list string)
  : gmap string keyOrder :=
  foldl (fun ch k => match f k with
                     | Some c => <[k := c]> ch
                     | None => ch
                     end) ∅ ks.

(** The key order of the text [writeValue] produces for a value under
    a prior order. *)
Fixpoint written_order (v : value) : option keyOrder -> option keyOrder :=
  match v with
  | VObject m => fun o =>
      let ks := orderedKeysForMap m o in
      let sub := written_order <$> m in
      Some (KeyOrder ks
              (build_children
                 (fun k => (sub !! k) ≫= fun e => e (child_order o k)) ks))
  | _ => fun _ => None
  end.

(** A byte a scalar literal of the serializer starts with. *)
Definition scalar_start (c : ascii) : bool :=
  isDigit c || Ascii.eqb c "-" || Ascii.eqb c quote
  || Ascii.eqb c "n" || Ascii.eqb c "t" || Ascii.eqb c "f".

(** The decoder once a value has been read from it. *)
Definition after_value (rest : string) (s : token_state) (st : list token_state)
  : Decoder :=
  mkDecoder rest false (tokenValueEnd s) st.

(** What is left of a list after one of its elements: a comma, white
    space and the next element, and so on up to the closing bracket. *)
Fixpoint array_tail (W Wend : string) (E : value -> string) (vs : list value)
    (rest : string) : string :=
  match vs with
  | [] => Wend +:+ "]" +:+ rest
  | v :: vs' => "," +:+ W +:+ E v +:+ array_tail W Wend E vs' rest
  end.

(** What is left of an object after one of its members. *)
Fixpoint object_tail (W Wend : string) (E : string -> string) (ks : list string)
    (rest : string) : string :=
  match ks with
  | [] => Wend +:+ "}" +:+ rest
  | k :: ks' =>
      "," +:+ W +:+ appendString k +:+ ": " +:+ E k
      +:+ object_tail W Wend E ks' rest
  end.

(** The order [decodeObjectOrder] has after one more member [k]; [F]
    gives the order of each member. *)
Definition grow_step (F : string -> option keyOrder) (acc : keyOrder) (k : string)
  : keyOrder :=
  match F k with
  | Some c => KeyOrder (keys acc ++ [k])%list (<[k := c]> (children acc))
  | None => KeyOrder (keys acc ++ [k])%list (children acc)
  end.

(** The order it has built after the keys [ks] on top of [acc]. *)
Definition grow_order (F : string -> option keyOrder) (acc : keyOrder)
    (ks : list string) : keyOrder :=
  foldl (grow_step F) acc ks.

(** The scanner is inside a string literal. *)
Definition is_string_state (st : scan_state) : bool :=
  match st with
  | stateInString | stateInStringEsc | stateInStringEscU | stateInStringEscU1
  | stateInStringEscU12 | stateInStringEscU123 => true
  | _ => false
  end.


(** A text is read back as the order [r]: from any decoder that allows
    a value and holds the text, white space before it and a delimiter
    after it, [decodeValueOrder] returns [r] without an error, given
    enough fuel, and leaves the decoder right behind the text. *)
Definition reads (r : option keyOrder) (text : string) : Prop :=
  forall sp rest s st,
    all_bytes isSpace sp = true -> tokenValueAllowed s = true -> delimited rest ->
    exists f0, forall f, (f0 <= f)%nat ->
      decodeValueOrder f (mkDecoder (sp +:+ text +:+ rest) false s st)
      = Returns (r, false, after_value rest s st).

(** The text of a value is read back as the order it was written in. *)
Definition parses (v : value) (o : option keyOrder) (text : string) : Prop :=
  reads (written_order v o) text.

(** The member [k] of a map, nil when it is missing. *)
Definition member (m : gmap string value) (k : string) : value :=
  default VNull (m !! k).


(** ** internal/registry: concurrent calls of [FetchCollectionMetadata]

    A call goes through three regions.  The first and the third hold
    [collectionCacheMu], so each of them is one atomic step on the
    shared cache; between them the lock is free and the call fetches
    the manifest and its layers over the network.  Calls running
    together interleave these steps in any order. *)
Section Collection.
Context {metadata : Type}.
(** What the network gives for a collection base: the metadata of the
    first layer that holds it, or the error of the call. *)
Variable resolve : string -> result metadata.








End Collection.


(** ** cmd/helpers.go, internal/ui: references with a version *)

(** [strings.Contains(s, sep)] for a one-byte [sep]. *)
Definition Contains (s : string) (sep : ascii) : bool := 0 <=? Index s sep.

(** [stripVersion]. *)
Definition stripVersion (ref : string) : string :=
  let idx := LastIndex ref ":" in
  if negb (idx =? -1) then slice_to ref idx else ref.

Module catalog.
(** [catalog.CatalogEntry]. *)
Record CatalogEntry : Type := mkCatalogEntry {
  Name : string;
  Maintainer : string;
  OciRef : string;
  Version : string;
  SourceURL : string
}.
End catalog.

(** [ui.FormatFeatureOciRef]. *)
Definition FormatFeatureOciRef (entry : catalog.CatalogEntry) : string :=
  let ref := catalog.OciRef entry in
  if negb (String.eqb (catalog.Version entry) EmptyString) && negb (Contains ref ":")
  then ref +:+ ":" +:+ catalog.Version entry
  else ref.

(** [ui.FormatOciRefWithVersion]. *)
Definition FormatOciRefWithVersion (entry : catalog.CatalogEntry) : string :=
  let ref := catalog.OciRef entry in
  if negb (String.eqb (catalog.Version entry) EmptyString) && negb (Contains ref ":")
  then ref +:+ ":" +:+ catalog.Version entry
  else ref.

(** ** internal/registry/client.go: the registry client

    The HTTP transport and the JSON decoding of the responses are
    library code: requests act on a state of the world. *)

(** [fmt.Sprintf("%d", n)]. *)
Definition itoa (n : Z) : string := NilZero.string_of_int (Z.to_int n).

(** An [*http.Request] as the client builds it. *)
Record Request : Type := mkRequest {
  Method : string;
  URL : string;
  Header : list (string * string)
}.

(** [req.Header.Set(key, value)]: the value of [key] is replaced. *)
Definition Header_Set (req : Request) (key value : string) : Request :=
  mkRequest (Method req) (URL req)
    ((key, value) :: List.filter (fun kv => negb (String.eqb (fst kv) key)) (Header req)).

(** An [*http.Response]: the status and what [io.ReadAll(resp.Body)]
    gives, the bytes read and the error that ended the reading. *)
Record Response : Type := mkResponse {
  StatusCode : Z;
  Body : string * option error
}.

Definition StatusOK : Z := 200.

(** [ociLayer]. *)
Record ociLayer : Type := mkLayer {
  MediaType : string;
  Digest : string;
  Size : Z
}.

(** [Client]: the token cache, from "registry/repo" to the token. *)
Record Client : Type := mkClient {
  tokens : gmap string string
}.

(** [NewClient]. *)
Definition NewClient : Client := mkClient ∅.

Section Registry.
Context {world : Type}.
(** [c.httpClient.Get(url)] and [c.httpClient.Do(req)]. *)
Variable http_Get : string -> world -> result Response * world.
Variable http_Do : Request -> world -> result Response * world.
(** [http.NewRequest("GET", url, nil)]. *)
Variable http_NewRequest : string -> string -> result Request.
(** [json.NewDecoder(resp.Body).Decode] into a [tokenResponse] (its
    [Token]) and into an [ociManifest] (its [Layers]). *)
Variable decodeToken : string * option error -> result string.
Variable decodeManifest : string * option error -> result (list ociLayer).

(** [Client.GetToken]. *)
Definition GetToken (c : Client) (registry repository : string) (w : world)
  : result string * Client * world :=
  let key := registry +:+ "/" +:+ repository in
  match tokens c !! key with
  | Some tok => (Ok tok, c, w)
  | None =>
      let tokenURL := "https://" +:+ registry +:+ "/token?scope=repository:"
                      +:+ repository +:+ ":pull" in
      match http_Get tokenURL w with
      | (Err e, w) => (Err ("fetching token: " +:+ e), c, w)
      | (Ok resp, w) =>
          if negb (StatusCode resp =? StatusOK) then
            (Err ("token request failed (status " +:+ itoa (StatusCode resp)
                  +:+ "): " +:+ fst (Body resp)), c, w)
          else
            match decodeToken (Body resp) with
            | Err e => (Err ("decoding token response: " +:+ e), c, w)
            | Ok tok => (Ok tok, mkClient (<[key := tok]> (tokens c)), w)
            end
      end
  end.

(** [Client.GetManifest]. *)
Definition GetManifest (c : Client) (registry repository tag : string) (w : world)
  : result (list ociLayer) * Client * world :=
  match GetToken c registry repository w with
  | (Err e, c, w) => (Err e, c, w)
  | (Ok token, c, w) =>
      let url := "https://" +:+ registry +:+ "/v2/" +:+ repository
                 +:+ "/manifests/" +:+ tag in
      match http_NewRequest "GET" url with
      | Err e => (Err e, c, w)
      | Ok req =>
          let req := Header_Set req "Authorization" ("Bearer " +:+ token) in
          let req := Header_Set req "Accept"
                       "application/vnd.oci.image.manifest.v1+json" in
          match http_Do req w with
          | (Err e, w) => (Err ("fetching manifest: " +:+ e), c, w)
          | (Ok resp, w) =>
              if negb (StatusCode resp =? StatusOK) then
                (Err ("manifest request failed (status " +:+ itoa (StatusCode resp)
                      +:+ "): " +:+ fst (Body resp)), c, w)
              else
                match decodeManifest (Body resp) with
                | Err e => (Err ("decoding manifest: " +:+ e), c, w)
                | Ok layers => (Ok layers, c, w)
                end
          end
      end
  end.

(** [Client.GetBlob].  [io.ReadAll] gives the bytes and the error
    together; the callers look at the bytes only when the error is
    nil. *)
Definition GetBlob (c : Client) (registry repository digest : string) (w : world)
  : result string * Client * world :=
  match GetToken c registry repository w with
  | (Err e, c, w) => (Err e, c, w)
  | (Ok token, c, w) =>
      let url := "https://" +:+ registry +:+ "/v2/" +:+ repository
                 +:+ "/blobs/" +:+ digest in
      match http_NewRequest "GET" url with
      | Err e => (Err e, c, w)
      | Ok req =>
          let req := Header_Set req "Authorization" ("Bearer " +:+ token) in
          match http_Do req w with
          | (Err e, w) => (Err ("fetching blob: " +:+ e), c, w)
          | (Ok resp, w) =>
              if negb (StatusCode resp =? StatusOK) then
                (Err ("blob request failed (status " +:+ itoa (StatusCode resp)
                      +:+ "): " +:+ fst (Body resp)), c, w)
              else
                match Body resp with
                | (data, None) => (Ok data, c, w)
                | (_, Some e) => (Err e, c, w)
                end
          end
      end
  end.

(** *** internal/registry/collection.go: fetching metadata *)

Context {reader : Type}.
Variable gzip_NewReader : string -> result reader.
Variable bytes_NewReader : string -> reader.
Variable tar_NewReader : reader -> tar_stream.
Context {TemplateDefinition FeatureDefinition CollectionMetadata : Type}.
Variable unmarshalTemplate : string -> result TemplateDefinition.
Variable unmarshalFeature : string -> result FeatureDefinition.
Variable unmarshalCollection : string -> result CollectionMetadata.

(** [extractCollectionJSON]. *)
Definition extractCollectionJSON (blob : string) : result CollectionMetadata :=
  extractJSONFromTgz gzip_NewReader bytes_NewReader tar_NewReader
    unmarshalCollection blob "devcontainer-collection.json".

(** The loop of [FetchItemMetadata] over the layers of the manifest. *)
Fixpoint itemLayers (ociRef registry repository : string) (layers : list ociLayer)
    (c : Client) (w : world)
  : option TemplateDefinition * option FeatureDefinition * option error * world :=
  match layers with
  | [] => (None, None, Some ("metadata not found in " +:+ ociRef), w)
  | layer :: rest =>
      match GetBlob c registry repository (Digest layer) w with
      | (Err _, c, w) => itemLayers ociRef registry repository rest c w
      | (Ok blob, c, w) =>
          match extractItemJSON gzip_NewReader bytes_NewReader tar_NewReader
                  unmarshalTemplate unmarshalFeature blob with
          | (_, _, Some _) => itemLayers ociRef registry repository rest c w
          | (tmpl, feat, None) =>
              match tmpl, feat with
              | None, None => itemLayers ociRef registry repository rest c w
              | _, _ => (tmpl, feat, None, w)
              end
          end
      end
  end.

(** [FetchItemMetadata]: the returned triple and the world after. *)
Definition FetchItemMetadata (ociRef : string) (w : world)
  : option TemplateDefinition * option FeatureDefinition * option error * world :=
  let client := NewClient in
  match ParseOciRef ociRef with
  | Err e => (None, None, Some ("parsing OCI ref: " +:+ e), w)
  | Ok (registry, repository, tag) =>
      match GetManifest client registry repository tag w with
      | (Err e, _, w) =>
          (None, None, Some ("fetching manifest for " +:+ ociRef +:+ ": " +:+ e), w)
      | (Ok layers, client, w) =>
          itemLayers ociRef registry repository layers client w
      end
  end.

(** The loop of [FetchCollectionMetadata] over the layers. *)
Fixpoint collectionLayers (collectionBase registry repository : string)
    (layers : list ociLayer) (c : Client)
    (cache : gmap string CollectionMetadata) (w : world)
  : result CollectionMetadata * gmap string CollectionMetadata * world :=
  match layers with
  | [] => (Err ("devcontainer-collection.json not found in " +:+ collectionBase),
           cache, w)
  | layer :: rest =>
      match GetBlob c registry repository (Digest layer) w with
      | (Err _, c, w) =>
          collectionLayers collectionBase registry repository rest c cache w
      | (Ok blob, c, w) =>
          match extractCollectionJSON blob with
          | Err _ => collectionLayers collectionBase registry repository rest c cache w
          | Ok metadata => (Ok metadata, <[collectionBase := metadata]> cache, w)
          end
      end
  end.

(** [FetchCollectionMetadata] run from start to end with no other
    call in between: the result, the cache and the world after. *)
Definition FetchCollectionMetadata (ociRef : string)
    (cache : gmap string CollectionMetadata) (w : world)
  : result CollectionMetadata * gmap string CollectionMetadata * world :=
  let collectionBase := extractCollectionBase ociRef in
  match cache !! collectionBase with
  | Some cached => (Ok cached, cache, w)
  | None =>
      let client := NewClient in
      match ParseOciRef (collectionBase +:+ ":latest") with
      | Err e => (Err ("parsing collection OCI ref: " +:+ e), cache, w)
      | Ok (registry, repository, tag) =>
          match GetManifest client registry repository tag w with
          | (Err e, _, w) => (Err ("fetching collection manifest: " +:+ e), cache, w)
          | (Ok layers, client, w) =>
              collectionLayers collectionBase registry repository layers client cache w
          end
      end
  end.
End Registry.

(** Exactly one of the three results of [FetchItemMetadata] is there:
    the template, the feature or the error. *)
Definition exactly_one {T F : Type} (r : option T * option F * option error) : Prop :=
  match r with
  | (Some _, None, None) | (None, Some _, None) | (None, None, Some _) => True
  | _ => False
  end.

(** *** Counting the token requests

    The transport with a counter beside the world: [counted_Get] adds
    one for every [Get] (the client uses [Get] for the token endpoint
    only), [uncounted_Do] passes the counter on. *)
Section Counting.
Context {world : Type}.
Variable http_Get : string -> world -> result Response * world.
Variable http_Do : Request -> world -> result Response * world.

Definition counted_Get (url : string) (wn : world * nat)
  : result Response * (world * nat) :=
  let '(r, w) := http_Get url (fst wn) in (r, (w, S (snd wn))).

Definition uncounted_Do (req : Request) (wn : world * nat)
  : result Response * (world * nat) :=
  let '(r, w) := http_Do req (fst wn) in (r, (w, snd wn)).
End Counting.


(** ** internal/devcontainer: reading the configuration file;
       internal/feature: replacing the features *)

Module feature.
(** [feature.FeatureConfig].  A nil [Options] is the empty map. *)
Record FeatureConfig : Type := mkFeatureConfig {
  OciRef : string;
  Options : gmap string value
}.
End feature.

Section Config.
Context {world : Type}.
Variable os_ReadFile : string -> world -> result string * world.
Variable os_MkdirAll : string -> world -> option error * world.
Variable os_WriteFile : string -> string -> world -> option error * world.
Variable os_Stat : string -> world -> option error * world.
Variable filepath_Dir : string -> string.
Variable filepath_Join : list string -> string.
Variable jsonc_ToJSON : string -> string.
(** [json.Unmarshal(data, &config)] for a [map[string]any]: the map,
    which stays nil ([None]) when the document is [null]. *)
Variable json_Unmarshal : string -> result (option (gmap string value)).

(** [ReadConfig]: the map, the path, the error, and the world after. *)
Definition ReadConfig (workspaceFolder : string) (w : world)
  : option (gmap string value) * string * option error * world :=
  let configPath :=
    filepath_Join [workspaceFolder; ".devcontainer"; "devcontainer.json"] in
  match os_ReadFile configPath w with
  | (Err e, w) => (None, configPath, Some ("reading devcontainer.json: " +:+ e), w)
  | (Ok data, w) =>
      let cleanJSON := jsonc_ToJSON data in
      match json_Unmarshal cleanJSON with
      | Err e => (None, configPath, Some ("parsing devcontainer.json: " +:+ e), w)
      | Ok config => (config, configPath, None, w)
      end
  end.

(** [Exists]. *)
Definition Exists (workspaceFolder : string) (w : world) : bool * world :=
  match os_Stat (filepath_Join [workspaceFolder; ".devcontainer"]) w with
  | (None, w) => (true, w)
  | (Some _, w) => (false, w)
  end.

(** The map [ReplaceAll] builds from the features it is given. *)
Definition featuresMap (features : list feature.FeatureConfig) : gmap string value :=
  foldl (fun fm f =>
           if (0 <? size (feature.Options f))%nat
           then <[feature.OciRef f := VObject (feature.Options f)]> fm
           else <[feature.OciRef f := VObject ∅]> fm)
        ∅ features.

(** [feature.ReplaceAll].  Storing into a nil map panics. *)
Definition ReplaceAll (fuel : nat) (workspaceFolder : string)
    (features : list feature.FeatureConfig) (w : world)
  : exec (option error * world) :=
  match ReadConfig workspaceFolder w with
  | (_, _, Some err, w) => Returns (Some err, w)
  | (config, configPath, None, w) =>
      let fm := featuresMap features in
      match config with
      | None => Panics
      | Some config =>
          WriteConfig os_ReadFile os_MkdirAll os_WriteFile filepath_Dir jsonc_ToJSON
            fuel configPath (<["features" := VObject fm]> config) w
      end
  end.
End Config.

(** ** An in-memory file system for the examples: a map from paths to
       contents; every directory exists. *)
Definition mem_ReadFile (p : string) (w : gmap string string)
  : result string * gmap string string :=
  (match w !! p with Some d => Ok d | None => Err "no such file" end, w).

Definition mem_MkdirAll (p : string) (w : gmap string string)
  : option error * gmap string string := (None, w).

Definition mem_WriteFile (p d : string) (w : gmap string string)
  : option error * gmap string string := (None, <[p := d]> w).


(** * Properties *)

(** ** Byte strings *)

Lemma append_nil_r (s : string) : s +:+ EmptyString = s.
Proof. induction s as [|a s IH]; simpl; [reflexivity | now rewrite IH]. Qed.

Lemma append_assoc (s t u : string) : (s +:+ t) +:+ u = s +:+ (t +:+ u).
Proof. induction s as [|a s IH]; simpl; [reflexivity | now rewrite IH]. Qed.

Lemma length_append (s t : string) :
  String.length (s +:+ t) = (String.length s + String.length t)%nat.
Proof. induction s as [|a s IH]; simpl; [reflexivity | now rewrite IH]. Qed.

Lemma substring_all (s : string) : substring 0 (String.length s) s = s.
Proof. induction s as [|a s IH]; simpl; [reflexivity | now rewrite IH]. Qed.

Lemma substring_zero (s : string) : substring 0 0 s = EmptyString.
Proof. destruct s; reflexivity. Qed.

Lemma slice_to_S (a : ascii) (s : string) (i : Z) :
  0 <= i -> slice_to (String a s) (i + 1) = String a (slice_to s i).
Proof.
  intros Hi. unfold slice_to.
  replace (Z.to_nat (i + 1)) with (S (Z.to_nat i)) by lia. reflexivity.
Qed.

Lemma slice_from_S (a : ascii) (s : string) (i : Z) :
  0 <= i -> slice_from (String a s) (i + 1) = slice_from s i.
Proof.
  intros Hi. unfold slice_from.
  replace (Z.to_nat (i + 1)) with (S (Z.to_nat i)) by lia. reflexivity.
Qed.

Lemma slice_from_0 (s : string) : slice_from s 0 = s.
Proof.
  unfold slice_from. simpl Z.to_nat. rewrite Nat.sub_0_r. apply substring_all.
Qed.

Lemma slice_to_0 (s : string) : slice_to s 0 = EmptyString.
Proof. apply substring_zero. Qed.

Lemma slice_from_append (p s : string) :
  slice_from (p +:+ s) (Z.of_nat (String.length p)) = s.
Proof.
  induction p as [|a p IH].
  - apply slice_from_0.
  - cbn [String.length String.append]. rewrite Nat2Z.inj_succ, <- Z.add_1_r.
    rewrite slice_from_S by lia. exact IH.
Qed.

Lemma prefix_append (p s : string) : String.prefix p (p +:+ s) = true.
Proof.
  induction p as [|a p IH]; simpl.
  - now destruct s.
  - destruct (ascii_dec a a); [exact IH | congruence].
Qed.

Lemma prefix_inv (p s : string) :
  String.prefix p s = true -> exists t, s = p +:+ t.
Proof.
  revert s. induction p as [|a p IH]; intros s H.
  - now exists s.
  - destruct s as [|b s]; simpl in H; [discriminate|].
    destruct (ascii_dec a b) as [->|]; [|discriminate].
    destruct (IH _ H) as [t ->]. now exists t.
Qed.

(** [TrimPrefix] removes the prefix when it is there and only then. *)
Lemma TrimPrefix_spec (s pre : string) :
  (exists t, s = pre +:+ t /\ TrimPrefix s pre = t)
  \/ ((forall t, s <> pre +:+ t) /\ TrimPrefix s pre = s).
Proof.
  unfold TrimPrefix, HasPrefix.
  destruct (String.prefix pre s) eqn:E.
  - left. destruct (prefix_inv _ _ E) as [t ->]. exists t. split; [reflexivity|].
    apply slice_from_append.
  - right. split; [|reflexivity]. intros t ->. now rewrite prefix_append in E.
Qed.

Lemma Index_ge (s : string) (c : ascii) : -1 <= Index s c.
Proof.
  induction s as [|a s IH]; simpl; [lia|].
  destruct (Ascii.eqb a c); [lia|].
  destruct (Z.eqb_spec (Index s c) (-1)); lia.
Qed.

Lemma Index_none (s : string) (c : ascii) :
  Index s c = -1 <-> occurs c s = false.
Proof.
  induction s as [|a s IH]; simpl; [tauto|].
  pose proof (Index_ge s c).
  destruct (Ascii.eqb a c); simpl.
  - split; [lia | discriminate].
  - destruct (Z.eqb_spec (Index s c) (-1)) as [E|E]; rewrite <- IH; split;
      intros; try lia; tauto.
Qed.

(** At a hit, [Index] cuts the string at the first occurrence. *)
Lemma Index_cut (s : string) (c : ascii) :
  Index s c <> -1 ->
  s = slice_to s (Index s c) +:+ String c (slice_from s (Index s c + 1))
  /\ occurs c (slice_to s (Index s c)) = false.
Proof.
  induction s as [|a s IH]; simpl; [congruence|].
  pose proof (Index_ge s c).
  destruct (Ascii.eqb_spec a c) as [->|Hne].
  - intros _. rewrite slice_to_0.
    pose proof (slice_from_S c s 0 ltac:(lia)) as E. rewrite slice_from_0 in E.
    simpl in E |- *. rewrite E. split; reflexivity.
  - destruct (Z.eqb_spec (Index s c) (-1)) as [E|E]; [congruence|]. intros _.
    destruct (IH E) as [IH1 IH2].
    rewrite slice_to_S, slice_from_S by lia. simpl. split.
    + now rewrite <- IH1.
    + rewrite IH2. now destruct (Ascii.eqb_spec a c).
Qed.

Lemma LastIndex_ge (s : string) (c : ascii) : -1 <= LastIndex s c.
Proof.
  induction s as [|a s IH]; simpl; [lia|].
  destruct (Z.eqb_spec (LastIndex s c) (-1)); [|lia].
  destruct (Ascii.eqb a c); lia.
Qed.

Lemma LastIndex_none (s : string) (c : ascii) :
  LastIndex s c = -1 <-> occurs c s = false.
Proof.
  induction s as [|a s IH]; simpl; [tauto|].
  pose proof (LastIndex_ge s c).
  destruct (Z.eqb_spec (LastIndex s c) (-1)) as [E|E].
  - destruct (Ascii.eqb a c); simpl; [split; [lia | discriminate]|]. tauto.
  - split; [lia|]. intros [_ H1]%orb_false_iff. tauto.
Qed.

(** At a hit, [LastIndex] cuts the string at the last occurrence. *)
Lemma LastIndex_cut (s : string) (c : ascii) :
  LastIndex s c <> -1 ->
  exists suffix,
    s = slice_to s (LastIndex s c) +:+ String c suffix
    /\ occurs c suffix = false.
Proof.
  induction s as [|a s IH]; simpl; [congruence|].
  pose proof (LastIndex_ge s c).
  destruct (Z.eqb_spec (LastIndex s c) (-1)) as [E|E].
  - destruct (Ascii.eqb_spec a c) as [->|Hne]; [|congruence]. intros _.
    exists s. rewrite slice_to_0. split; [reflexivity|].
    now apply LastIndex_none.
  - intros _. destruct (IH E) as (suffix & IH1 & IH2). exists suffix.
    rewrite slice_to_S by lia. simpl. split; [now rewrite <- IH1 | exact IH2].
Qed.

Lemma Split_nonempty (s : string) (c : ascii) : Split s c <> [].
Proof.
  induction s as [|a s IH]; simpl; [discriminate|].
  destruct (Ascii.eqb a c); [discriminate|].
  destruct (Split s c); [contradiction | discriminate].
Qed.

(** A string is one field exactly when the separator does not occur. *)
Lemma Split_single (s : string) (c : ascii) :
  List.length (Split s c) = 1%nat <-> occurs c s = false.
Proof.
  induction s as [|a s IH]; simpl; [tauto|].
  pose proof (Split_nonempty s c) as Hne.
  destruct (Ascii.eqb a c); simpl.
  - destruct (Split s c); [contradiction|]. simpl. split; [lia | discriminate].
  - destruct (Split s c) as [|h t] eqn:E; [contradiction|]. exact IH.
Qed.


(** ** OCI references *)

Example ParseOciRef_python :
  ParseOciRef "ghcr.io/devcontainers/templates/python:1"
  = Ok ("ghcr.io", "devcontainers/templates/python", "1").
Proof. reflexivity. Qed.

Example ParseOciRef_default_tag :
  ParseOciRef "oci://ghcr.io/devcontainers/templates/python"
  = Ok ("ghcr.io", "devcontainers/templates/python", "latest").
Proof. reflexivity. Qed.

(** A registry with a port is cut at the port's colon. *)
Example ParseOciRef_port :
  is_err (ParseOciRef "localhost:5000/templates/python:1") = true.
Proof. reflexivity. Qed.

(** C5, as stated, fails: a reference with a single path segment beyond
    the registry host has fewer than two of them, yet it parses. *)
Lemma ParseOciRef_single_segment_accepted :
  ParseOciRef "ghcr.io/foo" = Ok ("ghcr.io", "foo", "latest")
  /\ ~ (is_err (ParseOciRef "ghcr.io/foo") = true
        <-> (segments_beyond_host "ghcr.io/foo" < 2)%nat).
Proof.
  split; [reflexivity|].
  intros [_ H]. specialize (H ltac:(vm_compute; lia)). discriminate H.
Qed.

(** C5 (amended): parsing a reference fails if and only if, once the
    optional scheme prefix is stripped and the text is cut at its first
    colon, no path segment is left beyond the registry host, that is the
    remainder holds no slash; otherwise parsing succeeds. *)
Theorem ParseOciRef_invalid_iff (ociRef : string) :
  is_err (ParseOciRef ociRef) = true
  <-> (segments_beyond_host ociRef < 1)%nat.
Proof.
  unfold ParseOciRef, segments_beyond_host, ref_path.
  set (fullPath := List.hd EmptyString (SplitN2 (TrimPrefix ociRef "oci://") ":")).
  pose proof (Split_nonempty fullPath "/") as Hne.
  pose proof (Split_single fullPath "/") as Hone.
  pose proof (Index_none fullPath "/") as Hidx.
  destruct (Z.eqb_spec (Index fullPath "/") (-1)) as [E|E]; simpl.
  - split; [intros _ | reflexivity].
    apply Hidx, Hone in E. lia.
  - split; [discriminate|]. intros Hlt. exfalso. apply E, Hidx, Hone.
    destruct (Split fullPath "/"); [contradiction | simpl in *; lia].
Qed.

(** ** Collection base *)

(** C6: [extractCollectionBase] strips the optional scheme prefix, cuts
    the text at its last colon (the tag), then cuts it at its last slash
    (the last path segment); the python template maps to the templates
    collection. *)
Theorem extractCollectionBase_spec :
  (forall ociRef : string,
     exists stripped untagged : string,
       ((ociRef = "oci://" +:+ stripped)
        \/ ((forall t, ociRef <> "oci://" +:+ t) /\ stripped = ociRef))
       /\ cut_at_last ":" stripped untagged
       /\ cut_at_last "/" untagged (extractCollectionBase ociRef))
  /\ extractCollectionBase "ghcr.io/devcontainers/templates/python:1"
     = "ghcr.io/devcontainers/templates".
Proof.
  split; [|reflexivity].
  intros ociRef. unfold extractCollectionBase.
  set (stripped := TrimPrefix ociRef "oci://").
  exists stripped.
  assert (Hcut : forall c s,
    cut_at_last c s (if negb (LastIndex s c =? -1)
                     then slice_to s (LastIndex s c) else s)).
  { intros c s. destruct (Z.eqb_spec (LastIndex s c) (-1)) as [E|E]; simpl.
    - right. split; [now apply LastIndex_none | reflexivity].
    - left. exact (LastIndex_cut s c E). }
  eexists. split; [|split; [apply Hcut | apply Hcut]].
  unfold stripped.
  destruct (TrimPrefix_spec ociRef "oci://") as [(t & H1 & H2)|[H1 H2]];
    rewrite H2; [left; exact H1 | right; split; [exact H1 | reflexivity]].
Qed.

(** ** Archive metadata extraction *)

Section ArchiveFacts.
Context {reader : Type}.
Variable gzip_NewReader : string -> result reader.
Variable bytes_NewReader : string -> reader.
Variable tar_NewReader : reader -> tar_stream.

#[local] Abbreviation archive_reader := (archive_reader gzip_NewReader bytes_NewReader).

Lemma scanEntries_skip {T} (u : string -> result T) filename l rest :
  no_match filename l ->
  scanEntries u filename (tar_entries l rest) = scanEntries u filename rest.
Proof.
  induction 1 as [|[n b] l Hn _ IH]; simpl; [reflexivity|].
  destruct (String.eqb_spec (TrimPrefix n "./") filename); [contradiction|].
  exact IH.
Qed.

(** C7: extraction first tries gzip and, failing that, reads the bytes
    as a plain tar; entries are walked in order with a leading "./"
    stripped from their names; the body of the first entry named as
    the target is decoded and returned; a stream exhausted without a
    match is the not-found error. *)
Theorem extractJSONFromTgz_spec {T} (u : string -> result T)
    (blob filename : string) :
  (forall e, gzip_NewReader blob = Err e ->
     extractJSONFromTgz gzip_NewReader bytes_NewReader tar_NewReader u blob filename
     = scanEntries u filename (tar_NewReader (bytes_NewReader blob)))
  /\ (forall gzr, gzip_NewReader blob = Ok gzr ->
     extractJSONFromTgz gzip_NewReader bytes_NewReader tar_NewReader u blob filename
     = scanEntries u filename (tar_NewReader gzr))
  /\ (forall l name data rest,
     tar_NewReader (archive_reader blob)
       = tar_entries l (TarEntry name (Ok data) rest) ->
     no_match filename l ->
     TrimPrefix name "./" = filename ->
     extractJSONFromTgz gzip_NewReader bytes_NewReader tar_NewReader u blob filename
     = u data)
  /\ (forall l,
     tar_NewReader (archive_reader blob) = tar_entries l TarEOF ->
     no_match filename l ->
     extractJSONFromTgz gzip_NewReader bytes_NewReader tar_NewReader u blob filename
     = Err (filename +:+ " not found in archive")).
Proof.
  unfold extractJSONFromTgz, archive_reader. repeat split.
  - intros e ->. reflexivity.
  - intros gzr ->. reflexivity.
  - intros l name data rest -> Hl Hn.
    rewrite scanEntries_skip by assumption. simpl.
    now destruct (String.eqb_spec (TrimPrefix name "./") filename).
  - intros l -> Hl. now rewrite scanEntries_skip.
Qed.

Context {TemplateDefinition FeatureDefinition : Type}.
Variable unmarshalTemplate : string -> result TemplateDefinition.
Variable unmarshalFeature : string -> result FeatureDefinition.

#[local] Abbreviation extractTemplate blob :=
  (extractJSONFromTgz gzip_NewReader bytes_NewReader tar_NewReader
     unmarshalTemplate blob "devcontainer-template.json").
#[local] Abbreviation extractFeature blob :=
  (extractJSONFromTgz gzip_NewReader bytes_NewReader tar_NewReader
     unmarshalFeature blob "devcontainer-feature.json").
#[local] Abbreviation extractItem blob :=
  (extractItemJSON gzip_NewReader bytes_NewReader tar_NewReader
     unmarshalTemplate unmarshalFeature blob).

End ArchiveFacts.


(** ** Key order of an object *)

(** The keys a [range] visits are the keys of the map, each once. *)
Lemma range_keys_spec {A} (m : gmap string A) (k : string) :
  k ∈ range_keys m <-> is_Some (m !! k).
Proof.
  unfold range_keys. rewrite list_elem_of_fmap. split.
  - intros [[k' v] [-> H]]. apply elem_of_map_to_list in H. eauto.
  - intros [v H]. exists (k, v). split; [reflexivity|].
    now apply elem_of_map_to_list.
Qed.

Lemma range_keys_NoDup {A} (m : gmap string A) : NoDup (range_keys m).
Proof. apply NoDup_fst_map_to_list. Qed.

Lemma range_keys_nil {A} (m : gmap string A) :
  range_keys m = [] <-> size m = 0%nat.
Proof.
  unfold range_keys. rewrite map_size_empty_iff, <- map_to_list_empty_iff.
  destruct (map_to_list m); simpl; split; congruence.
Qed.

(** [sort.Strings] puts its input in ascending order. *)
Lemma sort_Strings_perm (l : list string) : sort_Strings l ≡ₚ l.
Proof. apply merge_sort_Permutation. Qed.

Lemma sort_Strings_sorted (l : list string) :
  StronglySorted String.le (sort_Strings l).
Proof. apply StronglySorted_merge_sort; apply _. Qed.

Lemma sort_Strings_elem (l : list string) (k : string) :
  k ∈ sort_Strings l <-> k ∈ l.
Proof. now rewrite sort_Strings_perm. Qed.

Lemma sort_Strings_NoDup (l : list string) : NoDup l -> NoDup (sort_Strings l).
Proof. now rewrite sort_Strings_perm. Qed.

(** Ascending and without repetition is strictly ascending. *)
Lemma sorted_strict (l : list string) :
  StronglySorted String.le l -> NoDup l -> StronglySorted (strict String.le) l.
Proof.
  induction 1 as [|a l Hs IH Ha]; intros Hnd; constructor.
  - apply IH. now apply NoDup_cons in Hnd.
  - apply NoDup_cons in Hnd as [Hnotin _].
    rewrite Forall_forall in Ha |- *. intros x Hx. split; [now apply Ha|].
    intros Hxa. assert (a = x) as -> by (apply (anti_symm String.le); auto).
    contradiction.
Qed.

(** Two strictly ascending lists with the same elements are equal: the
    result of a sort does not depend on the order of its input. *)
Lemma sorted_unique (l1 l2 : list string) :
  StronglySorted (strict String.le) l1 -> StronglySorted (strict String.le) l2 ->
  (forall k, k ∈ l1 <-> k ∈ l2) -> l1 = l2.
Proof.
  intros H1. revert l2. induction H1 as [|a l1 Hs1 IH Ha]; intros l2 H2 Hel.
  - destruct l2 as [|b l2]; [reflexivity|].
    exfalso. eapply not_elem_of_nil, Hel. left.
  - destruct H2 as [|b l2 Hs2 Hb].
    { exfalso. eapply not_elem_of_nil, Hel. left. }
    rewrite Forall_forall in Ha, Hb.
    assert (a = b) as ->.
    { assert (Hab : a ∈ b :: l2) by (apply Hel; left).
      assert (Hba : b ∈ a :: l1) by (apply Hel; left).
      apply elem_of_cons in Hab as [?|Hab]; [assumption|].
      apply elem_of_cons in Hba as [?|Hba]; [congruence|].
      destruct (Hb _ Hab) as [? Hn1]. destruct (Ha _ Hba) as [? Hn2].
      contradiction. }
    f_equal. apply IH; [assumption|]. intros k. split; intros Hk.
    + assert (Hk' : k ∈ b :: l2) by (apply Hel; now right).
      apply elem_of_cons in Hk' as [->|?]; [|assumption].
      destruct (Ha _ Hk) as [_ []]. reflexivity.
    + assert (Hk' : k ∈ b :: l1) by (apply Hel; now right).
      apply elem_of_cons in Hk' as [->|?]; [|assumption].
      destruct (Hb _ Hk) as [_ []]. reflexivity.
Qed.

(** The first loop of [orderedKeysForMap]: the keys kept so far and the
    set of keys seen. *)
Lemma first_loop_spec {A} (m : gmap string A) (l : list string)
    (ks0 : list string) (seen0 : gmap string bool) :
  let r := foldl (fun (acc : list string * gmap string bool) (k : string) =>
                    match m !! k with
                    | Some _ => ((acc.1 ++ [k])%list, <[k := true]> (acc.2))
                    | None => acc
                    end) (ks0, seen0) l in
  r.1 = (ks0 ++ List.filter (fun k => bool_decide (is_Some (m !! k))) l)%list
  /\ forall k, seen_at r.2 k
               = seen_at seen0 k || bool_decide (k ∈ l /\ is_Some (m !! k)).
Proof.
  revert ks0 seen0. induction l as [|a l IH]; intros ks0 seen0;
    cbn [foldl fst snd List.filter].
  - split; [now rewrite app_nil_r|]. intros k.
    rewrite bool_decide_eq_false_2; [now rewrite orb_false_r|].
    intros [H _]. now apply not_elem_of_nil in H.
  - destruct (m !! a) as [v|] eqn:Ea.
    + destruct (IH (ks0 ++ [a])%list (<[a:=true]> seen0)) as [IH1 IH2].
      cbn [fst snd] in IH1, IH2 |- *. split.
      * rewrite IH1, <- app_assoc.
        rewrite bool_decide_eq_true_2 by eauto. reflexivity.
      * intros k. rewrite IH2. unfold seen_at.
        destruct (decide (a = k)) as [->|Hne].
        -- rewrite lookup_insert_eq. cbn [default orb].
           rewrite (bool_decide_eq_true_2 (k ∈ k :: l /\ _)) by (split; [left | eauto]).
           now rewrite orb_true_r.
        -- rewrite lookup_insert_ne by assumption.
           f_equal. apply bool_decide_ext. rewrite elem_of_cons.
           split; [tauto|]. intros [[?|?] ?]; [congruence | tauto].
    + destruct (IH ks0 seen0) as [IH1 IH2]. cbn [fst snd] in IH1, IH2 |- *. split.
      * rewrite IH1. rewrite bool_decide_eq_false_2; [reflexivity|].
        intros [? ?]. congruence.
      * intros k. rewrite IH2. f_equal. apply bool_decide_ext.
        rewrite elem_of_cons. split; [tauto|].
        intros [[->|?] Hs]; [|tauto]. destruct Hs. congruence.
Qed.

(** The result of [orderedKeysForMap] with a prior order. *)
Lemma orderedKeysForMap_some {A} (m : gmap string A) (o : keyOrder) :
  orderedKeysForMap m (Some o)
  = (kept_keys m o
     ++ sort_Strings (List.filter (fun k => bool_decide (k ∉ keys o)) (range_keys m)))%list.
Proof.
  unfold orderedKeysForMap.
  pose proof (first_loop_spec m (keys o) [] ∅) as H. cbv zeta in H.
  destruct (foldl _ _ _) as [ks seen]. destruct H as [H1 H2].
  cbn [fst snd app] in H1, H2.
  subst ks. unfold kept_keys. f_equal. f_equal.
  apply filter_ext_in. intros k Hk. rewrite H2.
  apply list_elem_of_In, range_keys_spec in Hk.
  unfold seen_at. rewrite lookup_empty. cbn [default orb].
  destruct (decide (k ∈ keys o)) as [Hin|Hout].
  - rewrite bool_decide_eq_true_2 by auto. now rewrite bool_decide_eq_false_2 by auto.
  - rewrite bool_decide_eq_false_2 by tauto. now rewrite bool_decide_eq_true_2.
Qed.


(** ** Values: size and induction *)

Lemma fold_sum_lookup (m : gmap string nat) (k : string) (n : nat) :
  m !! k = Some n ->
  (n <= map_fold (fun _ n acc => (n + acc)%nat) O m)%nat.
Proof.
  rewrite map_fold_foldr. intros H%elem_of_map_to_list.
  induction (map_to_list m) as [|[k' n'] l IH]; [now apply not_elem_of_nil in H|].
  apply elem_of_cons in H as [[= <- <-]|H]; simpl; [lia|].
  specialize (IH H). lia.
Qed.

Lemma all_true_spec (m : gmap string bool) :
  all_true m = true <-> forall k b, m !! k = Some b -> b = true.
Proof.
  unfold all_true. rewrite map_fold_foldr.
  setoid_rewrite <- elem_of_map_to_list.
  induction (map_to_list m) as [|[k' b'] l IH]; simpl.
  - split; [|reflexivity]. intros _ k b H. now apply not_elem_of_nil in H.
  - rewrite andb_true_iff, IH. split.
    + intros [-> H] k b [[= -> ->]|Hin]%elem_of_cons; [reflexivity | eauto].
    + intros H. split; [apply (H k'); left | intros k b Hin; apply (H k); now right].
Qed.

Lemma value_size_member (m : gmap string value) (k : string) (v : value) :
  m !! k = Some v -> (value_size v < value_size (VObject m))%nat.
Proof.
  intros H. simpl.
  assert (Hk : (value_size <$> m) !! k = Some (value_size v))
    by now rewrite lookup_fmap, H.
  apply fold_sum_lookup in Hk. lia.
Qed.

Lemma value_size_element (arr : list value) (v : value) :
  v ∈ arr -> (value_size v < value_size (VList arr))%nat.
Proof.
  intros H. simpl. induction arr as [|a arr IH]; [now apply not_elem_of_nil in H|].
  apply elem_of_cons in H as [->|H]; simpl; [lia|]. specialize (IH H). lia.
Qed.

(** Induction on values: a list holds for its elements, an object for
    its members. *)
Lemma value_induction (P : value -> Prop) :
  P VNull ->
  (forall b, P (VBool b)) ->
  (forall lit, P (VNumber lit)) ->
  (forall s, P (VString s)) ->
  (forall arr, Forall P arr -> P (VList arr)) ->
  (forall m, (forall k v, m !! k = Some v -> P v) -> P (VObject m)) ->
  forall v, P v.
Proof.
  intros Hnull Hbool Hnum Hstr Hlist Hobj.
  assert (H : forall n v, (value_size v < n)%nat -> P v).
  { induction n as [|n IH]; intros v Hv; [lia|].
    destruct v as [| | | |arr|m]; auto.
    - apply Hlist, Forall_forall. intros e He. apply IH.
      apply value_size_element in He. lia.
    - apply Hobj. intros k e He. apply IH.
      apply (value_size_member _ _ _) in He. lia. }
  intros v. apply (H (S (value_size v))). lia.
Qed.

Lemma wf_value_object (m : gmap string value) :
  wf_value (VObject m) = true <-> forall k v, m !! k = Some v -> wf_value v = true.
Proof.
  simpl. rewrite all_true_spec. split.
  - intros H k v Hk. apply (H k). now rewrite lookup_fmap, Hk.
  - intros H k b. rewrite lookup_fmap.
    destruct (m !! k) as [v|] eqn:E; [|discriminate]. intros [= <-]. eauto.
Qed.

Lemma wf_value_list (arr : list value) :
  wf_value (VList arr) = true <-> Forall (fun v => wf_value v = true) arr.
Proof. simpl. rewrite forallb_forall, Forall_forall. now setoid_rewrite list_elem_of_In. Qed.

(** ** The writers, on the values themselves *)

Lemma filter_elem {A} (p : A -> bool) (l : list A) (x : A) :
  x ∈ List.filter p l <-> x ∈ l /\ p x = true.
Proof. now rewrite !list_elem_of_In, filter_In. Qed.

Lemma filter_NoDup {A} (p : A -> bool) (l : list A) :
  NoDup l -> NoDup (List.filter p l).
Proof.
  induction 1 as [|a l Ha Hl IH]; simpl; [constructor|].
  destruct (p a); [|assumption]. constructor; [|assumption].
  rewrite filter_elem. tauto.
Qed.

(** The order of the keys depends on the keys of the map only. *)
Lemma orderedKeysForMap_fmap {A B} (f : A -> B) (m : gmap string A)
    (order : option keyOrder) :
  orderedKeysForMap (f <$> m) order = orderedKeysForMap m order.
Proof.
  assert (Hsome : forall k, is_Some ((f <$> m) !! k) <-> is_Some (m !! k)).
  { intros k. rewrite lookup_fmap. now rewrite fmap_is_Some. }
  assert (Hsort : forall p : string -> bool,
    sort_Strings (List.filter p (range_keys (f <$> m)))
    = sort_Strings (List.filter p (range_keys m))).
  { intros p. apply sorted_unique.
    - apply sorted_strict; [apply sort_Strings_sorted|].
      apply sort_Strings_NoDup, filter_NoDup, range_keys_NoDup.
    - apply sorted_strict; [apply sort_Strings_sorted|].
      apply sort_Strings_NoDup, filter_NoDup, range_keys_NoDup.
    - intros k. rewrite !sort_Strings_elem, !filter_elem, !range_keys_spec, Hsome.
      reflexivity. }
  destruct order as [o|].
  - rewrite !orderedKeysForMap_some, Hsort. f_equal.
    unfold kept_keys. apply filter_ext. intros k.
    apply bool_decide_ext, Hsome.
  - unfold orderedKeysForMap.
    specialize (Hsort (fun _ => true)).
    assert (Hall : forall l : list string, List.filter (fun _ => true) l = l).
    { induction l as [|a l IH]; simpl; [reflexivity | now rewrite IH]. }
    now rewrite !Hall in Hsort.
Qed.

Lemma writeMembers_lines (m : gmap string value) order indent depth ks :
  writeMembers (writeValue <$> m) order indent depth ks
  = member_lines m order indent depth ks.
Proof.
  induction ks as [|k rest IH]; simpl; [reflexivity|].
  rewrite IH. do 3 f_equal. f_equal. unfold member_writer, child_order.
  rewrite lookup_fmap. now destruct (m !! k).
Qed.

Lemma writeElements_lines indent depth arr :
  writeElements (fun e => writeValue e None indent (depth + 1)%nat) indent depth arr
  = element_lines indent depth arr.
Proof. induction arr as [|v rest IH]; simpl; [reflexivity | now rewrite IH]. Qed.

(** [writeValue] on an object. *)
Lemma writeValue_object (m : gmap string value) order indent depth :
  writeValue (VObject m) order indent depth
  = if decide (size m = 0%nat) then "{}"
    else String "{" (String nl EmptyString)
         +:+ member_lines m order indent depth (orderedKeysForMap m order)
         +:+ Repeat indent depth +:+ "}".
Proof.
  cbn [writeValue]. unfold writeObject.
  rewrite map_size_fmap, orderedKeysForMap_fmap, writeMembers_lines. reflexivity.
Qed.

(** [writeValue] on a list. *)
Lemma writeValue_list (arr : list value) order indent depth :
  writeValue (VList arr) order indent depth
  = if is_nil arr then "[]"
    else if forallb isPrimitive arr then "[" +:+ writeCompact arr +:+ "]"
    else String "[" (String nl EmptyString)
         +:+ element_lines indent depth arr
         +:+ Repeat indent depth +:+ "]".
Proof.
  cbn [writeValue]. unfold writeArray. now rewrite writeElements_lines.
Qed.

Lemma writeValue_scalar (v : value) order indent depth :
  isPrimitive v = true -> writeValue v order indent depth = json_Marshal v.
Proof. destruct v; simpl; congruence. Qed.


(** ** The scanner *)

Ltac each_byte c := destruct c as [[] [] [] [] [] [] [] []].

Lemma run_app (st : scan_state) (a b : string) :
  run st (a +:+ b) = match run st a with
                     | Some st' => run st' b
                     | None => None
                     end.
Proof.
  revert st. induction a as [|c a IH]; intros st; simpl; [reflexivity|].
  destruct (step st c); auto.
Qed.

(** A value scanned up to [a] goes on with what follows. *)
Lemma scanValue_run (st st' : scan_state) (a b : string) :
  run st a = Some st' ->
  scanValue st (a +:+ b) = option_map (Nat.add (String.length a)) (scanValue st' b).
Proof.
  revert st. induction a as [|c a IH]; intros st; simpl.
  - intros [= ->]. now destruct (scanValue st' b).
  - destruct (step st c); try discriminate. intros H. rewrite (IH _ H).
    now destruct (scanValue st' b).
Qed.

(** The value ends before a byte on which the scanner says so. *)
Lemma scanValue_end (st st' : scan_state) (a : string) (c : ascii) (r : string) :
  run st a = Some st' -> step st' c = scanEnd ->
  scanValue st (a +:+ String c r) = Some (String.length a).
Proof.
  intros H E. rewrite (scanValue_run _ _ _ _ H). simpl. rewrite E. simpl.
  f_equal. lia.
Qed.

(** A text scanned as one whole value leaves the scanner in a state
    that a space ends. *)
Lemma scanValue_whole (st : scan_state) (s : string) :
  scanValue st s = Some (String.length s) ->
  exists st', run st s = Some st' /\ step st' " " = scanEnd.
Proof.
  revert st. induction s as [|c s IH]; intros st; simpl.
  - destruct (step st " ") eqn:E; try discriminate. eauto.
  - destruct (step st c) as [st1| |]; try discriminate.
    destruct (scanValue st1 s) as [n|] eqn:E; try discriminate.
    simpl. intros [= ->]. apply IH in E. exact E.
Qed.

(** Where a space ends the value, so does a comma, a newline or a
    closing bracket. *)
Lemma step_end_closes (st : scan_state) (c : ascii) :
  step st " " = scanEnd -> closes_value c = true -> step st c = scanEnd.
Proof.
  unfold closes_value. intros H Hc.
  apply orb_true_iff in Hc as [Hc|Hc]; [apply orb_true_iff in Hc as [Hc|Hc]|];
    apply Ascii.eqb_eq in Hc; subst c; destruct st; try discriminate H;
    reflexivity.
Qed.


Lemma step_leaves_begin (st st' : scan_state) (c : ascii) :
  isSpace c = false -> step st c = scanContinue st' -> st' <> stateBeginValue.
Proof.
  intros Hc H E. subst st'.
  destruct st; simpl in H; unfold step_state0, step_stateESign, expect in H;
    try rewrite Hc in H;
    repeat match type of H with
           | context [if ?b then _ else _] => destruct b
           end; discriminate.
Qed.


(** Bytes from 0x80 up are taken as they are inside a string. *)
Lemma step_string_high (c : ascii) :
  0x80 <= byte c -> step stateInString c = scanContinue stateInString.
Proof. each_byte c; vm_compute; intros H; try reflexivity; now exfalso. Qed.

Lemma run_string_high (s : string) :
  all_bytes (fun b => 0x80 <=? byte b) s = true ->
  run stateInString s = Some stateInString.
Proof.
  induction s as [|c s IH]; cbn [run all_bytes]; [reflexivity|].
  intros [Hc Hs]%andb_true_iff. rewrite step_string_high by lia. auto.
Qed.

(** An ASCII byte written as it is stays inside the string. *)
Lemma step_string_safe (c : ascii) :
  htmlSafeSet (byte c) = true -> step stateInString c = scanContinue stateInString.
Proof. each_byte c; vm_compute; intros H; try reflexivity; discriminate. Qed.

(** An escape is read as a whole and leaves the scanner in the string. *)
Lemma run_escapeByte (c : ascii) :
  byte c < 0x80 -> htmlSafeSet (byte c) = false ->
  run stateInString (escapeByte (byte c)) = Some stateInString.
Proof.
  each_byte c; vm_compute; intros H1 H2; try reflexivity; try discriminate;
    now exfalso.
Qed.

Lemma slice_split (s : string) (i : Z) :
  0 <= i <= Z.of_nat (String.length s) -> s = slice_to s i +:+ slice_from s i.
Proof.
  revert i. induction s as [|a s IH]; intros i Hi.
  - simpl in Hi. assert (i = 0) as -> by lia. reflexivity.
  - destruct (Z.eq_dec i 0) as [->|Hne].
    + now rewrite slice_to_0, slice_from_0.
    + replace i with ((i - 1) + 1) by lia.
      rewrite slice_to_S, slice_from_S by lia. simpl. f_equal. apply IH.
      cbn [String.length] in Hi. lia.
Qed.

(** ** UTF-8 *)

Lemma first_high (p0 : Z) :
  0x80 <= p0 ->
  first p0 = 0xF1 \/ first p0 = 0x02 \/ first p0 = 0x13 \/ first p0 = 0x03
  \/ first p0 = 0x23 \/ first p0 = 0x34 \/ first p0 = 0x04 \/ first p0 = 0x44.
Proof.
  intros H. unfold first.
  repeat match goal with
         | |- context [if ?b then _ else _] => destruct b eqn:?
         end; try lia; tauto.
Qed.

#[local] Opaque byte first.

(** On a byte from 0x80 up [DecodeRune] either gives [(RuneError, 1)]
    or takes two to four such bytes. *)
Lemma DecodeRune_window (s : string) (c size : Z) :
  0x80 <= byte_at s 0 ->
  DecodeRune (substring 0 4 s) = (c, size) ->
  (size = 1 /\ c = RuneError)
  \/ (2 <= size <= 4
      /\ size <= Z.of_nat (String.length s)
      /\ s = slice_to s size +:+ slice_from s size
      /\ all_bytes (fun b => 0x80 <=? byte b) (slice_to s size) = true).
Proof.
  intros H0 H.
  destruct s as [|a0 [|a1 [|a2 [|a3 r]]]]; [exfalso; apply H0; reflexivity|..].
  all: cbn [substring] in H; rewrite ?substring_zero in H; unfold DecodeRune in H.
  all: simpl in H; unfold byte_at in H0, H; cbn [String.get] in H0, H.
  all: destruct (first_high _ H0) as [E|[E|[E|[E|[E|[E|[E|E]]]]]]]; rewrite E in H; simpl in H.
  all: repeat match type of H with
         | context [if ?b then _ else _] => destruct b eqn:?
         end; injection H as <- <-; try (left; split; reflexivity).
  all: try discriminate.
  all: right; split; [lia|]; split; [cbn [String.length]; lia|];
    split; [apply slice_split; cbn [String.length]; lia|].
  all: unfold slice_to; simpl; rewrite ?substring_zero.
  all: repeat match goal with
         | H : (_ || _) = false |- _ => apply orb_false_iff in H as [? ?]
         end.
  all: rewrite ?Z.ltb_ge in *; rewrite ?andb_true_iff, ?Z.leb_le; repeat split; lia.
Qed.

#[local] Transparent byte first.

(** ** Strings as [json.Marshal] writes them *)

(** The text between the quotes is read as the inside of a string. *)
Lemma run_appendString_loop (fuel : nat) (src : string) :
  run stateInString (appendString_loop fuel src) = Some stateInString.
Proof.
  revert src. induction fuel as [|fuel IH]; intros src; [reflexivity|].
  destruct src as [|b0 rest]; [reflexivity|]. cbn [appendString_loop].
  destruct (Z.ltb_spec (byte b0) 0x80) as [Hlo|Hhi].
  - destruct (htmlSafeSet (byte b0)) eqn:Hs.
    + cbn [run]. rewrite step_string_safe by assumption. apply IH.
    + rewrite run_app, run_escapeByte by assumption. apply IH.
  - destruct (DecodeRune (substring 0 4 (String b0 rest))) as [c size] eqn:E.
    apply DecodeRune_window in E; [|exact Hhi].
    destruct E as [[-> ->]|(Hsz & _ & Hsplit & Hall)].
    + change ((RuneError =? RuneError) && (1 =? 1)) with true. cbv iota.
      rewrite run_app.
      change (run stateInString (String backslash "ufffd")) with (Some stateInString).
      apply IH.
    + replace (size =? 1) with false by (symmetry; apply Z.eqb_neq; lia).
      rewrite andb_false_r.
      destruct ((c =? 0x2028) || (c =? 0x2029)) eqn:Hc.
      * rewrite run_app.
        assert (Hrun : run stateInString
                  (String backslash ("u202" +:+ String (hex (Z.land c 0xF)) EmptyString))
                = Some stateInString).
        { apply orb_true_iff in Hc as [Hc|Hc]; apply Z.eqb_eq in Hc; subst c;
            reflexivity. }
        rewrite Hrun. apply IH.
      * rewrite run_app, run_string_high by assumption. apply IH.
Qed.

Lemma run_appendString (s : string) :
  run stateBeginValue (appendString s) = Some stateEndValue.
Proof.
  unfold appendString.
  change (run stateBeginValue (String quote ?x)) with (run stateInString x).
  rewrite run_app, run_appendString_loop. reflexivity.
Qed.

(** A string literal is read as one whole value, whatever follows. *)
Lemma readValue_appendString (s rest : string) :
  readValue (appendString s +:+ rest) = Some (String.length (appendString s)).
Proof.
  unfold readValue. rewrite (scanValue_run _ _ _ _ (run_appendString s)).
  replace (scanValue stateEndValue rest) with (Some O) by now destruct rest.
  simpl. f_equal. lia.
Qed.


(** ** C1: the order of the keys of an object *)

Example orderedKeys_new_after_prior :
  orderedKeysForMap
    (list_to_map [("name", VNull); ("image", VNull); ("remoteUser", VNull);
                  ("capAdd", VNull)] : gmap string value)
    (Some (KeyOrder ["name"; "image"; "features"] ∅))
  = ["name"; "image"; "capAdd"; "remoteUser"].
Proof. vm_compute. reflexivity. Qed.

(** C1: at every object level the serializer emits first the keys of
    the prior order that are still in the map, in the recorded order,
    then the keys of the map that the prior order does not list, in
    ascending order; a key the map does not hold is never emitted; with
    no prior order all the keys are emitted in ascending order. *)
Theorem orderedKeys_spec (m : gmap string value) :
  (forall order indent depth,
     writeValue (VObject m) order indent depth
     = if decide (size m = 0%nat) then "{}"
       else String "{" (String nl EmptyString)
            +:+ member_lines m order indent depth (orderedKeysForMap m order)
            +:+ Repeat indent depth +:+ "}")
  /\ (forall o, exists fresh,
        orderedKeysForMap m (Some o) = (kept_keys m o ++ fresh)%list
        /\ StronglySorted (strict String.le) fresh
        /\ forall k, k ∈ fresh <-> is_Some (m !! k) /\ k ∉ keys o)
  /\ (StronglySorted (strict String.le) (orderedKeysForMap m None)
      /\ forall k, k ∈ orderedKeysForMap m None <-> is_Some (m !! k))
  /\ (forall order k, k ∈ orderedKeysForMap m order -> is_Some (m !! k)).
Proof.
  assert (Hsome : forall o, exists fresh,
        orderedKeysForMap m (Some o) = (kept_keys m o ++ fresh)%list
        /\ StronglySorted (strict String.le) fresh
        /\ forall k, k ∈ fresh <-> is_Some (m !! k) /\ k ∉ keys o).
  { intros o. eexists. split; [apply orderedKeysForMap_some|]. split.
    - apply sorted_strict; [apply sort_Strings_sorted|].
      apply sort_Strings_NoDup, filter_NoDup, range_keys_NoDup.
    - intros k. rewrite sort_Strings_elem, filter_elem, range_keys_spec,
        bool_decide_eq_true. reflexivity. }
  assert (Hnone : StronglySorted (strict String.le) (orderedKeysForMap m None)
      /\ forall k, k ∈ orderedKeysForMap m None <-> is_Some (m !! k)).
  { unfold orderedKeysForMap. split.
    - apply sorted_strict; [apply sort_Strings_sorted|].
      apply sort_Strings_NoDup, range_keys_NoDup.
    - intros k. now rewrite sort_Strings_elem, range_keys_spec. }
  split; [intros; apply writeValue_object|]. split; [exact Hsome|].
  split; [exact Hnone|].
  intros [o|] k Hk; [|now apply Hnone].
  destruct (Hsome o) as (fresh & E & _ & Hfresh). rewrite E in Hk.
  apply elem_of_app in Hk as [Hk|Hk]; [|now apply Hfresh].
  unfold kept_keys in Hk. apply filter_elem in Hk as [_ Hk].
  now apply bool_decide_eq_true in Hk.
Qed.

(** ** C3: the layout of the output *)

Lemma occurs_app (c : ascii) (a b : string) :
  occurs c (a +:+ b) = occurs c a || occurs c b.
Proof.
  induction a as [|x a IH]; simpl; [reflexivity|]. now rewrite IH, orb_assoc.
Qed.







(** A number literal has no newline in it. *)
Lemma wf_number_run (lit : string) :
  wf_number lit = true ->
  exists c r st st',
    lit = String c r /\ isSpace c = false
    /\ step stateBeginValue c = scanContinue st /\ st <> stateBeginValue
    /\ run st r = Some st' /\ step st' " " = scanEnd
    /\ floatOverflows lit = false.
Proof.
  destruct lit as [|c r]; [discriminate|]. unfold wf_number.
  intros [[Hc Hscan]%andb_true_iff Hrange%negb_true_iff]%andb_true_iff.
  apply bool_decide_eq_true in Hscan. unfold readValue in Hscan.
  apply scanValue_whole in Hscan as (st' & Hrun & Hend).
  assert (Hsp : isSpace c = false).
  { revert Hc. clear. each_byte c; vm_compute; intros H; try reflexivity;
      discriminate. }
  cbn [run] in Hrun. destruct (step stateBeginValue c) as [st| |] eqn:E;
    try discriminate.
  exists c, r, st, st'. repeat split; try assumption.
  now apply (step_leaves_begin stateBeginValue st c).
Qed.








Example marshalOrdered_ports :
  marshalOrdered (obj [("forwardPorts", VList [VNumber "3000"; VNumber "8080"])]) None
  = dq "{" +:+ String nl (dq "  'forwardPorts': [3000, 8080]")
    +:+ String nl "}" +:+ String nl EmptyString.
Proof. vm_compute. reflexivity. Qed.

Example marshalOrdered_object_in_list :
  marshalOrdered
    (VList [VNumber "1"; obj [("b", VNull); ("a", VList [])]])
    (Some (KeyOrder ["b"; "a"] ∅))
  = "[" +:+ String nl "  1," +:+ String nl "  {"
    +:+ String nl (dq "    'a': [],") +:+ String nl (dq "    'b': null")
    +:+ String nl "  }" +:+ String nl "]" +:+ String nl EmptyString.
Proof. vm_compute. reflexivity. Qed.



(** ** C4: the key-order tracker on malformed input *)

Example extractKeyOrder_test :
  extractKeyOrder 20
    (dq "{'name': 'test', 'image': 'ubuntu', 'features': {'a': {}, 'b': {}}}")
  = Returns (Some (KeyOrder ["name"; "image"; "features"]
       {[ "features" := KeyOrder ["a"; "b"]
            {[ "a" := KeyOrder [] ∅; "b" := KeyOrder [] ∅ ]} ]})).
Proof. vm_compute. reflexivity. Qed.

Example extractKeyOrder_scalar : extractKeyOrder 1 "42" = Returns None.
Proof. reflexivity. Qed.

Example extractKeyOrder_garbage : extractKeyOrder 1 "?" = Returns None.
Proof. reflexivity. Qed.


(** The loop of [decodeArrayOrder] drops the error of [decodeValueOrder]
    and asks [More] again; a failed [Token] leaves the read position
    where it was, so on a malformed element the loop does not end. *)
Lemma decodeArrayOrder_stuck (fuel : nat) :
  decodeArrayOrder fuel (mkDecoder "x]" true tokenArrayStart [tokenTopValue])
  = OutOfFuel.
Proof.
  induction fuel as [|fuel IH]; [reflexivity|].
  cbn [decodeArrayOrder].
  change (More (mkDecoder "x]" true tokenArrayStart [tokenTopValue]))
    with (true, mkDecoder "x]" true tokenArrayStart [tokenTopValue]).
  cbv iota. destruct fuel as [|fuel']; [reflexivity|].
  change (decodeValueOrder (S fuel') (mkDecoder "x]" true tokenArrayStart [tokenTopValue]))
    with (Returns (@None keyOrder, true,
                   mkDecoder "x]" true tokenArrayStart [tokenTopValue])).
  cbv iota. exact IH.
Qed.

Lemma extractKeyOrder_array_hang (fuel : nat) :
  extractKeyOrder fuel "[x]" = OutOfFuel.
Proof.
  destruct fuel as [|[|[|fuel]]]; try reflexivity.
  unfold extractKeyOrder.
  change (decodeValueOrder (S (S (S fuel))) (NewDecoder "[x]"))
    with (decodeArrayOrder (S fuel)
            (mkDecoder "x]" true tokenArrayStart [tokenTopValue])).
  now rewrite decodeArrayOrder_stuck.
Qed.



(** ** C9: writing the configuration file *)

Section FacadeFacts.
Context {world : Type}.
Variable os_ReadFile : string -> world -> result string * world.
Variable os_MkdirAll : string -> world -> option error * world.
Variable os_WriteFile : string -> string -> world -> option error * world.
Variable filepath_Dir : string -> string.
Variable jsonc_ToJSON : string -> string.

#[local] Abbreviation WriteConfig' :=
  (WriteConfig os_ReadFile os_MkdirAll os_WriteFile filepath_Dir jsonc_ToJSON).
#[local] Abbreviation persist' :=
  (persist os_MkdirAll os_WriteFile filepath_Dir).

(** C9: a prior file that cannot be read gives the absent order and
    no error; [WriteConfig] fails only when the directory cannot be
    made or the file cannot be written, never because of rendering;
    when making the directory fails the file is not written at all. *)
Theorem WriteConfig_spec (fuel : nat) (path : string)
    (config : gmap string value) (w : world) :
  let read := os_ReadFile path w in
  (forall e, read.1 = Err e ->
     WriteConfig' fuel path config w
     = Returns (persist' path (marshalOrdered (VObject config) None) read.2))
  /\ (forall existing order, read.1 = Ok existing ->
        extractKeyOrder fuel (jsonc_ToJSON existing) = Returns order ->
        WriteConfig' fuel path config w
        = Returns (persist' path (marshalOrdered (VObject config) order) read.2))
  /\ (forall data w1,
        let mk := os_MkdirAll (filepath_Dir path) w1 in
        let wr := os_WriteFile path data mk.2 in
        persist' path data w1
        = match mk.1, wr.1 with
          | Some e, _ => (Some ("creating directory: " +:+ e), mk.2)
          | None, Some e => (Some ("writing devcontainer.json: " +:+ e), wr.2)
          | None, None => (None, wr.2)
          end)
  /\ (forall e w', WriteConfig' fuel path config w = Returns (Some e, w') ->
        exists data w1,
          let mk := os_MkdirAll (filepath_Dir path) w1 in
          (exists e1, mk.1 = Some e1 /\ w' = mk.2)
          \/ (mk.1 = None /\ exists e2, (os_WriteFile path data mk.2).1 = Some e2)).
Proof.
  cbv zeta.
  assert (Hpersist : forall data w1,
        persist' path data w1
        = match (os_MkdirAll (filepath_Dir path) w1).1,
                (os_WriteFile path data (os_MkdirAll (filepath_Dir path) w1).2).1 with
          | Some e, _ =>
              (Some ("creating directory: " +:+ e),
               (os_MkdirAll (filepath_Dir path) w1).2)
          | None, Some e =>
              (Some ("writing devcontainer.json: " +:+ e),
               (os_WriteFile path data (os_MkdirAll (filepath_Dir path) w1).2).2)
          | None, None =>
              (None, (os_WriteFile path data (os_MkdirAll (filepath_Dir path) w1).2).2)
          end).
  { intros data w1. unfold persist.
    destruct (os_MkdirAll (filepath_Dir path) w1) as [[e|] w2]; [reflexivity|].
    cbn [fst snd]. now destruct (os_WriteFile path data w2) as [[e|] w3]. }
  unfold WriteConfig.
  destruct (os_ReadFile path w) as [[existing|e0] w0]; cbn [fst snd].
  - split; [discriminate|]. split.
    { intros ? order [= <-] ->. reflexivity. }
    split; [exact Hpersist|].
    intros e w'.
    destruct (extractKeyOrder fuel (jsonc_ToJSON existing)) as [order| |];
      try discriminate.
    intros [= H]. exists (marshalOrdered (VObject config) order), w0.
    rewrite Hpersist in H.
    destruct (os_MkdirAll (filepath_Dir path) w0) as [[e1|] w2]; cbn [fst snd] in *.
    + left. exists e1. split; [reflexivity | congruence].
    + right. split; [reflexivity|].
      destruct (os_WriteFile path _ w2) as [[e2|] w3]; cbn [fst snd] in *;
        [eauto | discriminate].
  - split; [reflexivity|]. split; [discriminate|].
    split; [exact Hpersist|].
    intros e w' [= H]. exists (marshalOrdered (VObject config) None), w0.
    rewrite Hpersist in H.
    destruct (os_MkdirAll (filepath_Dir path) w0) as [[e1|] w2]; cbn [fst snd] in *.
    + left. exists e1. split; [reflexivity | congruence].
    + right. split; [reflexivity|].
      destruct (os_WriteFile path _ w2) as [[e2|] w3]; cbn [fst snd] in *;
        [eauto | discriminate].
Qed.
End FacadeFacts.

(** ** C10: concurrent collection resolution *)


Section CollectionFacts.
Context {metadata : Type}.
Variable resolve : string -> result metadata.





End CollectionFacts.


(** ** The decoder, step by step *)

Lemma substring_append_l (a b : string) :
  substring 0 (String.length a) (a +:+ b) = a.
Proof.
  induction a as [|c a IH]; simpl; [apply substring_zero | now rewrite IH].
Qed.

Lemma substring_append_r (a b : string) :
  substring (String.length a) (String.length (a +:+ b) - String.length a) (a +:+ b) = b.
Proof.
  induction a as [|c a IH]; simpl.
  - rewrite Nat.sub_0_r. apply substring_all.
  - exact IH.
Qed.

Lemma skipSpace_app (sp s : string) :
  all_bytes isSpace sp = true -> skipSpace (sp +:+ s) = skipSpace s.
Proof.
  induction sp as [|c sp IH]; simpl; [reflexivity|].
  intros [-> H]%andb_true_iff. auto.
Qed.

Lemma skipSpace_length (s : string) :
  (String.length (skipSpace s) <= String.length s)%nat.
Proof.
  induction s as [|c s IH]; simpl; [lia|]. destruct (isSpace c); simpl; lia.
Qed.

Lemma peek_at (sp : string) (c : ascii) (r : string) e s st :
  all_bytes isSpace sp = true -> isSpace c = false ->
  peek (mkDecoder (sp +:+ String c r) e s st) = (Some c, mkDecoder (String c r) e s st).
Proof.
  intros Hsp Hc. unfold peek. cbn [buf]. rewrite skipSpace_app by assumption.
  cbn [skipSpace]. rewrite Hc. reflexivity.
Qed.

Lemma More_at (sp : string) (c : ascii) (r : string) e s st :
  all_bytes isSpace sp = true -> isSpace c = false ->
  More (mkDecoder (sp +:+ String c r) e s st)
  = (negb (Ascii.eqb c "]") && negb (Ascii.eqb c "}"), mkDecoder (String c r) e s st).
Proof. intros Hsp Hc. unfold More. now rewrite peek_at. Qed.

(** More fuel than there are bytes makes no difference to [Token]. *)
Lemma Token_loop_fuel (f1 f2 : nat) (dec : Decoder) :
  (String.length (buf dec) < f1)%nat -> (String.length (buf dec) < f2)%nat ->
  Token_loop f1 dec = Token_loop f2 dec.
Proof.
  revert f2 dec. induction f1 as [|f1 IH]; intros [|f2] dec H1 H2; try lia.
  cbn [Token_loop]. unfold peek.
  pose proof (skipSpace_length (buf dec)) as Hlen.
  destruct (skipSpace (buf dec)) as [|c r] eqn:E; [reflexivity|].
  cbn [buf set_buf tokenState] in *.
  assert (Hr : forall s, (String.length (buf (set_state (set_buf
              (mkDecoder (String c r) (err dec) (tokenState dec) (tokenStack dec)) r) s))
            < f1)%nat /\ (String.length (buf (set_state (set_buf
              (mkDecoder (String c r) (err dec) (tokenState dec) (tokenStack dec)) r) s))
            < f2)%nat).
  { intros s. cbn. simpl in Hlen. lia. }
  repeat match goal with
         | |- (if ?b then _ else _) = (if ?b then _ else _) => destruct b
         | |- match ?s with _ => _ end = match ?s with _ => _ end => destruct s
         end; try reflexivity; apply IH; apply Hr.
Qed.

Lemma Token_loop_Token (f : nat) (dec : Decoder) :
  (String.length (buf dec) < f)%nat -> Token_loop f dec = Token dec.
Proof. intros H. apply Token_loop_fuel; [assumption | lia]. Qed.

Lemma isSpace_spaces (n : nat) : all_bytes isSpace (Repeat "  " n) = true.
Proof. induction n as [|n IH]; [reflexivity|]. simpl. exact IH. Qed.

Ltac token_unfold Hsp :=
  unfold Token; cbn [Token_loop buf]; rewrite peek_at by (exact Hsp || reflexivity);
  cbn [buf tokenState tokenStack err].

Lemma Token_open_brace (sp r : string) s st :
  all_bytes isSpace sp = true -> tokenValueAllowed s = true ->
  Token (mkDecoder (sp +:+ String "{" r) false s st)
  = (TokOk (Delim "{"), mkDecoder r false tokenObjectStart (s :: st)).
Proof. intros Hsp Hs. token_unfold Hsp. cbn. now rewrite Hs. Qed.

Lemma Token_open_bracket (sp r : string) s st :
  all_bytes isSpace sp = true -> tokenValueAllowed s = true ->
  Token (mkDecoder (sp +:+ String "[" r) false s st)
  = (TokOk (Delim "["), mkDecoder r false tokenArrayStart (s :: st)).
Proof. intros Hsp Hs. token_unfold Hsp. cbn. now rewrite Hs. Qed.

Lemma Token_close_brace (sp r : string) s s0 st :
  all_bytes isSpace sp = true ->
  s = tokenObjectStart \/ s = tokenObjectComma ->
  Token (mkDecoder (sp +:+ String "}" r) false s (s0 :: st))
  = (TokOk (Delim "}"), mkDecoder r false (tokenValueEnd s0) st).
Proof. intros Hsp [-> | ->]; token_unfold Hsp; reflexivity. Qed.

Lemma Token_close_bracket (sp r : string) s s0 st :
  all_bytes isSpace sp = true ->
  s = tokenArrayStart \/ s = tokenArrayComma ->
  Token (mkDecoder (sp +:+ String "]" r) false s (s0 :: st))
  = (TokOk (Delim "]"), mkDecoder r false (tokenValueEnd s0) st).
Proof. intros Hsp [-> | ->]; token_unfold Hsp; reflexivity. Qed.

Lemma Token_colon (sp r : string) st :
  all_bytes isSpace sp = true ->
  Token (mkDecoder (sp +:+ String ":" r) false tokenObjectColon st)
  = Token (mkDecoder r false tokenObjectValue st).
Proof.
  intros Hsp. token_unfold Hsp. cbn.
  apply Token_loop_Token. cbn. rewrite length_append. cbn. lia.
Qed.

Lemma Token_comma_array (sp r : string) st :
  all_bytes isSpace sp = true ->
  Token (mkDecoder (sp +:+ String "," r) false tokenArrayComma st)
  = Token (mkDecoder r false tokenArrayValue st).
Proof.
  intros Hsp. token_unfold Hsp. cbn.
  apply Token_loop_Token. cbn. rewrite length_append. cbn. lia.
Qed.

Lemma Token_comma_object (sp r : string) st :
  all_bytes isSpace sp = true ->
  Token (mkDecoder (sp +:+ String "," r) false tokenObjectComma st)
  = Token (mkDecoder r false tokenObjectKey st).
Proof.
  intros Hsp. token_unfold Hsp. cbn.
  apply Token_loop_Token. cbn. rewrite length_append. cbn. lia.
Qed.

Lemma scalar_start_plain (c : ascii) :
  scalar_start c = true ->
  isSpace c = false
  /\ Ascii.eqb c "[" = false /\ Ascii.eqb c "]" = false
  /\ Ascii.eqb c "{" = false /\ Ascii.eqb c "}" = false
  /\ Ascii.eqb c ":" = false /\ Ascii.eqb c "," = false.
Proof.
  each_byte c; vm_compute; intros H; try discriminate H; repeat split.
Qed.

(** A scalar where a value is allowed is handed to [Decode]. *)
Lemma Token_scalar (sp : string) (c : ascii) (r : string) e s st :
  all_bytes isSpace sp = true -> scalar_start c = true ->
  tokenValueAllowed s = true ->
  Token (mkDecoder (sp +:+ String c r) e s st) = Decode (mkDecoder (String c r) e s st).
Proof.
  intros Hsp Hc Hs.
  destruct (scalar_start_plain c Hc) as (H0 & H1 & H2 & H3 & H4 & H5 & H6).
  unfold Token. cbn [Token_loop buf]. rewrite peek_at by assumption.
  cbn [buf tokenState tokenStack err]. rewrite H1, H2, H3, H4, H5, H6, Hs.
  now destruct s.
Qed.

(** A quote where a key is expected is decoded as a top value. *)
Lemma Token_key (sp r : string) e s st :
  all_bytes isSpace sp = true ->
  s = tokenObjectStart \/ s = tokenObjectKey ->
  Token (mkDecoder (sp +:+ String quote r) e s st)
  = match Decode (mkDecoder (String quote r) e tokenTopValue st) with
    | (TokOk t, dec') => (TokOk t, set_state dec' tokenObjectColon)
    | (res, dec') => (res, set_state dec' s)
    end.
Proof. intros Hsp [-> | ->]; token_unfold Hsp; reflexivity. Qed.

(** [Decode] on a literal that the scanner reads as a whole. *)
Lemma Decode_item (item rest : string) (st' : scan_state) s st :
  run stateBeginValue item = Some st' ->
  match rest with
  | EmptyString => step st' " " = scanEnd
  | String c _ => step st' c = scanEnd
  end ->
  Decode (mkDecoder (item +:+ rest) false s st)
  = (literalInterface item, after_value rest s st).
Proof.
  intros Hrun Hend. unfold Decode. cbn [err buf tokenState tokenStack].
  assert (Hscan : readValue (item +:+ rest) = Some (String.length item)).
  { unfold readValue. rewrite (scanValue_run _ _ _ _ Hrun).
    destruct rest as [|c r]; simpl; rewrite Hend; simpl; f_equal; lia. }
  rewrite Hscan, substring_append_l, substring_append_r. reflexivity.
Qed.


(** ** String literals: what the scanner accepts, [unquote] reads *)

Lemma chr_byte (c : ascii) : chr (byte c) = c.
Proof. unfold chr, byte. now rewrite N2Z.id, ascii_N_embedding. Qed.

Lemma byte_eq (c : ascii) (z : Z) : byte c = z -> c = chr z.
Proof. intros <-. now rewrite chr_byte. Qed.

Lemma slice_to_length (s : string) (i : Z) :
  0 <= i <= Z.of_nat (String.length s) ->
  String.length (slice_to s i) = Z.to_nat i.
Proof.
  revert i. induction s as [|a s IH]; intros i Hi.
  - simpl in Hi. assert (i = 0) as -> by lia. reflexivity.
  - destruct (Z.eq_dec i 0) as [->|Hne]; [reflexivity|].
    replace i with ((i - 1) + 1) by lia. rewrite slice_to_S by lia.
    cbn [String.length] in *. rewrite IH by lia. lia.
Qed.

Lemma slice_to_app (a b : string) (j : Z) :
  0 <= j ->
  slice_to (a +:+ b) (Z.of_nat (String.length a) + j) = a +:+ slice_to b j.
Proof.
  intros Hj. induction a as [|c a IH]; [reflexivity|].
  cbn [String.length String.append].
  replace (Z.of_nat (S (String.length a)) + j)
    with ((Z.of_nat (String.length a) + j) + 1) by lia.
  rewrite slice_to_S by lia. now rewrite IH.
Qed.

Lemma slice_from_app (a b : string) (j : Z) :
  0 <= j ->
  slice_from (a +:+ b) (Z.of_nat (String.length a) + j) = slice_from b j.
Proof.
  intros Hj. induction a as [|c a IH]; [reflexivity|].
  cbn [String.length String.append].
  replace (Z.of_nat (S (String.length a)) + j)
    with ((Z.of_nat (String.length a) + j) + 1) by lia.
  rewrite slice_from_S by lia. exact IH.
Qed.

#[local] Opaque byte first.

(** [DecodeRune] reads four bytes at most. *)
Lemma DecodeRune_full (s : string) : DecodeRune s = DecodeRune (substring 0 4 s).
Proof.
  destruct s as [|a0 [|a1 [|a2 [|a3 r]]]]; try reflexivity.
  cbn [substring]. rewrite substring_zero. unfold DecodeRune.
  cbn [String.length]. unfold byte_at. cbn [String.get].
  assert (Hn : forall k, k <= 4 ->
            (Z.of_nat (S (S (S (S (String.length r))))) <? k) = false
            /\ (Z.of_nat 4 <? k) = false).
  { intros k Hk. split; apply Z.ltb_ge; lia. }
  destruct (Hn 1 ltac:(lia)) as [-> ->].
  destruct (first (byte a0) >=? 240); [reflexivity|].
  assert (Hsz : Z.land (first (byte a0)) 7 <= 4).
  { Transparent first. unfold first.
    repeat match goal with
           | |- context [if ?b then _ else _] => destruct b
           end; vm_compute; discriminate. }
  destruct (Hn _ Hsz) as [-> ->]. reflexivity.
Qed.

#[local] Opaque first.

(** The bytes [DecodeRune] takes together, split off. *)
Lemma DecodeRune_split (s : string) (c size : Z) :
  0x80 <= byte_at s 0 -> DecodeRune s = (c, size) ->
  (size = 1 /\ c = RuneError)
  \/ (exists a b, s = a +:+ b /\ 2 <= size <= 4
                  /\ Z.of_nat (String.length a) = size
                  /\ slice_to s size = a /\ slice_from s size = b
                  /\ all_bytes (fun x => 0x80 <=? byte x) a = true).
Proof.
  intros H0 H. rewrite DecodeRune_full in H.
  destruct (DecodeRune_window s c size H0 H) as [?|(Hsz & Hlen & Hsplit & Hall)];
    [now left|].
  right. exists (slice_to s size), (slice_from s size).
  repeat split; try assumption; try lia.
  rewrite slice_to_length by lia. lia.
Qed.

#[local] Transparent byte first.

Lemma step_string_plain (c : ascii) :
  32 <= byte c < 128 -> byte c <> 34 -> byte c <> 92 ->
  step stateInString c = scanContinue stateInString.
Proof.
  each_byte c; vm_compute; intros [H1 H2] H3 H4; try reflexivity;
    try (now exfalso; apply H1); try (now exfalso; apply H3);
    try (now exfalso; apply H4); now exfalso.
Qed.

Lemma step_string_ctl (c : ascii) :
  byte c < 32 -> step stateInString c = scanError.
Proof. each_byte c; vm_compute; intros H; try reflexivity; discriminate. Qed.

Lemma run_end_value (x : string) (st : scan_state) :
  run stateEndValue x = Some st -> x = EmptyString /\ st = stateEndValue.
Proof. destruct x; simpl; [intros [= <-]; auto | discriminate]. Qed.

(** Inside a string the scanner stays inside it until the closing
    quote. *)
Lemma step_string_state (st st1 : scan_state) (c : ascii) :
  is_string_state st = true -> step st c = scanContinue st1 ->
  is_string_state st1 = true
  \/ (st1 = stateEndValue /\ st = stateInString /\ c = quote).
Proof.
  destruct st; try discriminate; intros _; cbn [step].
  - destruct (Ascii.eqb_spec c quote) as [->|]; [intros [= <-]; auto|].
    destruct (Ascii.eqb c backslash); [intros [= <-]; auto|].
    destruct (byte c <? 32); [discriminate | intros [= <-]; auto].
  - destruct (_ || _); [intros [= <-]; auto|].
    destruct (Ascii.eqb c "u"); [intros [= <-]; auto | discriminate].
  - destruct (isHex c); [intros [= <-]; auto | discriminate].
  - destruct (isHex c); [intros [= <-]; auto | discriminate].
  - destruct (isHex c); [intros [= <-]; auto | discriminate].
  - destruct (isHex c); [intros [= <-]; auto | discriminate].
Qed.

(** A string literal read to its end is a body inside the string and
    the closing quote. *)
Lemma run_string_close (x : string) (st : scan_state) :
  is_string_state st = true -> run st x = Some stateEndValue ->
  exists body, x = body +:+ String quote EmptyString
               /\ run st body = Some stateInString.
Proof.
  revert st. induction x as [|c x IH]; intros st Hst; cbn [run].
  - intros [= ->]. discriminate.
  - destruct (step st c) as [st1| |] eqn:E; try discriminate. intros Hrun.
    destruct (step_string_state _ _ _ Hst E) as [H1|(-> & -> & ->)].
    + destruct (IH _ H1 Hrun) as (body & -> & Hb). exists (String c body).
      split; [reflexivity|]. cbn [run]. now rewrite E.
    + apply run_end_value in Hrun as [-> _]. now exists EmptyString.
Qed.

Lemma dropLast_end (body : string) (c : ascii) :
  dropLast c (body +:+ String c EmptyString) = Some body.
Proof.
  induction body as [|a body IH]; simpl; [now rewrite Ascii.eqb_refl|].
  rewrite IH. now destruct body.
Qed.

(** The first loop of [unquoteBytes] stops inside the body, on the
    boundary of a character. *)
Lemma plainPrefix_spec (fuel : nat) (s : string) :
  0 <= plainPrefix fuel s <= Z.of_nat (String.length s)
  /\ run stateInString (slice_to s (plainPrefix fuel s)) = Some stateInString.
Proof.
  revert s. induction fuel as [|fuel IH]; intros s.
  { cbn [plainPrefix]. rewrite slice_to_0. split; [lia | reflexivity]. }
  destruct s as [|c0 rest].
  { cbn [plainPrefix]. split; [simpl; lia | reflexivity]. }
  cbn [plainPrefix].
  destruct ((byte c0 =? 92) || (byte c0 =? 34) || (byte c0 <? 32)) eqn:Hsp.
  { rewrite slice_to_0. split; [lia | reflexivity]. }
  apply orb_false_iff in Hsp as [[H1 H2]%orb_false_iff H3].
  apply Z.eqb_neq in H1, H2. apply Z.ltb_ge in H3.
  destruct (Z.ltb_spec (byte c0) 128) as [Hlo|Hhi].
  - destruct (IH rest) as [Hr Hrun]. cbn [String.length]. split; [lia|].
    rewrite Z.add_comm, slice_to_S by lia. cbn [run].
    rewrite step_string_plain by lia. exact Hrun.
  - destruct (DecodeRune (String c0 rest)) as [rr size] eqn:E.
    apply DecodeRune_split in E; [|exact Hhi].
    destruct E as [[-> ->]|(a & b & Hs & Hsz & Hlen & Ha & Hb & Hall)].
    + change ((RuneError =? RuneError) && (1 =? 1)) with true. cbv iota.
      rewrite slice_to_0. split; [lia | reflexivity].
    + replace (size =? 1) with false by (symmetry; apply Z.eqb_neq; lia).
      rewrite andb_false_r. rewrite Hb, Hs. destruct (IH b) as [Hr Hrun].
      rewrite length_append. split; [lia|].
      rewrite <- Hlen, slice_to_app by lia.
      now rewrite run_app, run_string_high.
Qed.

Lemma getu4_hex (s : string) :
  0 <= getu4 s ->
  exists h1 h2 h3 h4 r,
    s = String backslash (String "u" (String h1 (String h2 (String h3 (String h4 r)))))
    /\ isHex h1 = true /\ isHex h2 = true /\ isHex h3 = true /\ isHex h4 = true.
Proof.
  destruct s as [|b [|u [|h1 [|h2 [|h3 [|h4 r]]]]]]; cbn [getu4]; try lia.
  destruct (Ascii.eqb_spec b backslash) as [->|]; cbn [negb orb]; [|lia].
  destruct (Ascii.eqb_spec u "u") as [->|]; cbn [negb]; [|lia].
  destruct (isHex h1) eqn:E1, (isHex h2) eqn:E2, (isHex h3) eqn:E3,
    (isHex h4) eqn:E4; cbn [andb]; try lia.
  intros _. exists h1, h2, h3, h4, r. repeat split; assumption.
Qed.

Lemma hexval_nonneg (c : ascii) : isHex c = true -> 0 <= hexval c.
Proof.
  each_byte c; vm_compute; intros H; try discriminate H; intros H2;
    discriminate H2.
Qed.

(** An escape with four hex digits, read from inside the string. *)
Lemma run_u4 (h1 h2 h3 h4 : ascii) (r : string) (st : scan_state) :
  run stateInString
    (String backslash (String "u" (String h1 (String h2 (String h3 (String h4 r))))))
  = Some st ->
  isHex h1 = true /\ isHex h2 = true /\ isHex h3 = true /\ isHex h4 = true
  /\ run stateInString r = Some st.
Proof.
  cbn [run]. change (step stateInString backslash) with (scanContinue stateInStringEsc).
  cbv iota. change (step stateInStringEsc "u") with (scanContinue stateInStringEscU).
  cbv iota. cbn [step].
  destruct (isHex h1); [|intros [=]]. cbn [step].
  destruct (isHex h2); [|intros [=]]. cbn [step].
  destruct (isHex h3); [|intros [=]]. cbn [step].
  destruct (isHex h4); [|intros [=]]. auto.
Qed.

Lemma option_map_some {A B} (f : A -> B) (o : option A) :
  is_Some o -> is_Some (option_map f o).
Proof. intros [x ->]. simpl. eauto. Qed.

Lemma slice_from_6 (a b c d e f : ascii) (r : string) :
  slice_from (String a (String b (String c (String d (String e (String f r)))))) 6 = r.
Proof.
  unfold slice_from. cbn [Z.to_nat String.length]. simpl.
  rewrite Nat.sub_0_r. apply substring_all.
Qed.

Lemma esc_tests (e0 : ascii) :
  step stateInStringEsc e0 = scanContinue stateInString ->
  (byte e0 =? 34) || (byte e0 =? 92) || (byte e0 =? 47) || (byte e0 =? 39)
  || (byte e0 =? 98) || (byte e0 =? 102) || (byte e0 =? 110)
  || (byte e0 =? 114) || (byte e0 =? 116) = true.
Proof. each_byte e0; vm_compute; intros H; try reflexivity; discriminate H. Qed.

(** The second loop of [unquoteBytes] never gives up on what the
    scanner has accepted as the inside of a string. *)
Lemma unquoteLoop_total (fuel : nat) (s : string) :
  run stateInString s = Some stateInString -> is_Some (unquoteLoop fuel s).
Proof.
  revert s. induction fuel as [|fuel IH]; intros s Hrun; [simpl; eauto|].
  destruct s as [|c0 rest]; [simpl; eauto|]. cbn [unquoteLoop].
  destruct (Z.eqb_spec (byte c0) 92) as [E|E].
  - apply byte_eq in E. subst c0.
    destruct rest as [|e0 rest']; [discriminate Hrun|].
    assert (Hesc : exists st1, step stateInStringEsc e0 = scanContinue st1
                               /\ run st1 rest' = Some stateInString).
    { cbn [run] in Hrun.
      change (step stateInString (chr 92)) with (scanContinue stateInStringEsc) in Hrun.
      cbv iota in Hrun. destruct (step stateInStringEsc e0) as [st1| |];
        try discriminate. eauto. }
    destruct Hesc as (st1 & Hstep & Hrest).
    destruct (Z.eqb_spec (byte e0) 117) as [Eu|Eu].
    + (* a unicode escape *)
      apply byte_eq in Eu. subst e0.
      replace ((117 =? 34) || (117 =? 92) || (117 =? 47) || (117 =? 39)) with false
        by reflexivity.
      change (byte (chr 117)) with 117. cbn [Z.eqb Pos.eqb].
      destruct rest' as [|h1 [|h2 [|h3 [|h4 r6]]]];
        try (exfalso; revert Hrun; cbn; repeat (destruct (isHex _); cbn);
             discriminate).
      apply run_u4 in Hrun as (H1 & H2 & H3 & H4 & Hr6).
      assert (Hrr : 0 <= getu4 (String (chr 92) (String (chr 117)
                (String h1 (String h2 (String h3 (String h4 r6))))))).
      { cbn [getu4]. change (Ascii.eqb (chr 92) backslash) with true.
        change (Ascii.eqb (chr 117) "u") with true. cbn [negb orb].
        rewrite H1, H2, H3, H4. cbn [andb].
        pose proof (hexval_nonneg _ H1). pose proof (hexval_nonneg _ H2).
        pose proof (hexval_nonneg _ H3). pose proof (hexval_nonneg _ H4). lia. }
      destruct (Z.ltb_spec (getu4 (String (chr 92) (String (chr 117)
                (String h1 (String h2 (String h3 (String h4 r6))))))) 0) as [?|_];
        [lia|].
      rewrite (slice_from_6 _ _ _ _ _ _ r6).
      destruct (IsSurrogate _); [|apply option_map_some, IH, Hr6].
      destruct (utf16_DecodeRune _ (getu4 r6) =? RuneError) eqn:Ed; cbn [negb];
        [apply option_map_some, IH, Hr6|].
      apply option_map_some, IH.
      assert (Hg : 0 <= getu4 r6).
      { apply Z.eqb_neq in Ed. unfold utf16_DecodeRune in Ed.
        destruct (_ && _) eqn:Hc; [|congruence].
        apply andb_true_iff in Hc as [[_ Hc]%andb_true_iff _].
        apply Z.leb_le in Hc. lia. }
      apply getu4_hex in Hg as (g1 & g2 & g3 & g4 & r12 & -> & _).
      rewrite slice_from_6. now apply run_u4 in Hr6.
    + (* a one-byte escape *)
      assert (Hin : st1 = stateInString).
      { cbn [step] in Hstep.
        destruct (_ || _); [now injection Hstep|].
        destruct (Ascii.eqb_spec e0 "u") as [->|]; [now exfalso | discriminate]. }
      subst st1. pose proof (esc_tests e0 Hstep) as Ht.
      repeat match goal with
             | |- is_Some (if ?b then _ else _) => destruct b eqn:?
             end; try (apply option_map_some, IH, Hrest).
      exfalso.
      repeat match goal with
             | H : _ = false |- _ => rewrite H in Ht; clear H
             end.
      discriminate Ht.
  - destruct ((byte c0 =? 34) || (byte c0 <? 32)) eqn:Hq.
    { exfalso. apply orb_true_iff in Hq as [Hq|Hq].
      - apply Z.eqb_eq, byte_eq in Hq. subst c0. cbn [run] in Hrun.
        change (step stateInString (chr 34)) with (scanContinue stateEndValue) in Hrun.
        cbv iota in Hrun. now apply run_end_value in Hrun as [_ ?].
      - apply Z.ltb_lt in Hq. cbn [run] in Hrun.
        now rewrite step_string_ctl in Hrun. }
    apply orb_false_iff in Hq as [Hq1%Z.eqb_neq Hq2%Z.ltb_ge].
    destruct (Z.ltb_spec (byte c0) 128) as [Hlo|Hhi].
    + apply option_map_some, IH. cbn [run] in Hrun.
      now rewrite step_string_plain in Hrun by lia.
    + destruct (DecodeRune (String c0 rest)) as [rr size] eqn:Ed.
      apply option_map_some, IH.
      apply DecodeRune_split in Ed; [|exact Hhi].
      destruct Ed as [[-> ->]|(a & b & Hs & Hsz & Hlen & Ha & Hb & Hall)].
      * change 1 with (0 + 1). rewrite slice_from_S, slice_from_0 by lia.
        cbn [run] in Hrun. now rewrite step_string_high in Hrun.
      * rewrite Hb. rewrite Hs, run_app, run_string_high in Hrun; assumption.
Qed.

(** [unquote] succeeds on every string literal the scanner accepts. *)
Lemma unquote_total (lit : string) :
  run stateBeginValue (String quote lit) = Some stateEndValue ->
  is_Some (unquote (String quote lit)).
Proof.
  change (run stateBeginValue (String quote lit)) with (run stateInString lit).
  intros H. apply run_string_close in H as (body & -> & Hbody); [|reflexivity].
  unfold unquote. rewrite Ascii.eqb_refl, dropLast_end. cbv zeta.
  destruct (_ =? _); [eauto|].
  apply option_map_some, unquoteLoop_total.
  destruct (plainPrefix_spec (String.length body) body) as [Hr Hp].
  rewrite (slice_split body _ Hr), run_app, Hp in Hbody. exact Hbody.
Qed.


(** ** Encoding a decoded rune *)

Lemma byte_range (c : ascii) : 0 <= byte c < 256.
Proof. unfold byte. pose proof (N_ascii_bounded c). lia. Qed.

Lemma land_disjoint (a b n : Z) :
  0 <= n -> 0 <= b < 2 ^ n -> Z.land (a * 2 ^ n) b = 0.
Proof.
  intros Hn Hb. rewrite <- (Z.mod_small b (2 ^ n)) by lia.
  rewrite <- Z.land_ones, (Z.land_comm b), Z.land_assoc by lia.
  rewrite (Z.land_ones (a * 2 ^ n)) by lia.
  now rewrite Z.mod_mul by lia.
Qed.

(** Bits that do not overlap add up. *)
Lemma lor_add (a b n : Z) :
  0 <= n -> 0 <= b < 2 ^ n -> Z.lor (a * 2 ^ n) b = a * 2 ^ n + b.
Proof.
  intros Hn Hb. pose proof (land_disjoint a b n Hn Hb).
  rewrite <- Z.lxor_lor by assumption. symmetry. now apply Z.add_nocarry_lxor.
Qed.

Lemma land_3F (x : Z) : 0 <= x -> Z.land x 0x3F = x mod 64.
Proof. intros H. change 0x3F with (Z.ones 6). now rewrite Z.land_ones. Qed.

Lemma land_1F (x : Z) : 0 <= x -> Z.land x 0x1F = x mod 32.
Proof. intros H. change 0x1F with (Z.ones 5). now rewrite Z.land_ones. Qed.

Lemma land_0F (x : Z) : 0 <= x -> Z.land x 0x0F = x mod 16.
Proof. intros H. change 0x0F with (Z.ones 4). now rewrite Z.land_ones. Qed.

Lemma land_07 (x : Z) : 0 <= x -> Z.land x 0x07 = x mod 8.
Proof. intros H. change 0x07 with (Z.ones 3). now rewrite Z.land_ones. Qed.

Lemma lor_shift6 (x y : Z) : 0 <= y < 64 -> Z.lor (Z.shiftl x 6) y = x * 64 + y.
Proof. intros H. rewrite Z.shiftl_mul_pow2 by lia. now apply (lor_add x y 6). Qed.

Lemma lor_80 (q : Z) : 0 <= q < 64 -> Z.lor 0x80 q = 128 + q.
Proof. intros H. exact (lor_add 2 q 6 ltac:(lia) H). Qed.

Lemma lor_C0 (q : Z) : 0 <= q < 64 -> Z.lor 0xC0 q = 192 + q.
Proof. intros H. exact (lor_add 3 q 6 ltac:(lia) H). Qed.

Lemma lor_E0 (q : Z) : 0 <= q < 32 -> Z.lor 0xE0 q = 224 + q.
Proof. intros H. exact (lor_add 7 q 5 ltac:(lia) H). Qed.

Lemma lor_F0 (q : Z) : 0 <= q < 16 -> Z.lor 0xF0 q = 240 + q.
Proof. intros H. exact (lor_add 15 q 4 ltac:(lia) H). Qed.

(** The runes of two, three and four bytes, in arithmetic. *)
Lemma rune2 (p0 b1 : Z) :
  0xC0 <= p0 < 0xE0 -> 0x80 <= b1 <= 0xBF ->
  Z.lor (Z.shiftl (Z.land p0 0x1F) 6) (Z.land b1 0x3F)
  = (p0 - 0xC0) * 64 + (b1 - 0x80).
Proof.
  intros H0 H1. rewrite land_1F, land_3F by lia.
  rewrite lor_shift6 by (apply Z.mod_pos_bound; lia).
  replace (p0 mod 32) with (p0 - 0xC0)
    by (apply (Z.mod_unique_pos _ _ 6); lia).
  replace (b1 mod 64) with (b1 - 0x80)
    by (apply (Z.mod_unique_pos _ _ 2); lia).
  reflexivity.
Qed.

Lemma rune3 (p0 b1 b2 : Z) :
  0xE0 <= p0 < 0xF0 -> 0x80 <= b1 <= 0xBF -> 0x80 <= b2 <= 0xBF ->
  Z.lor (Z.lor (Z.shiftl (Z.land p0 0x0F) 12) (Z.shiftl (Z.land b1 0x3F) 6))
        (Z.land b2 0x3F)
  = ((p0 - 0xE0) * 64 + (b1 - 0x80)) * 64 + (b2 - 0x80).
Proof.
  intros H0 H1 H2. rewrite land_0F, !land_3F by lia.
  replace (p0 mod 16) with (p0 - 0xE0)
    by (apply (Z.mod_unique_pos _ _ 14); lia).
  replace (b1 mod 64) with (b1 - 0x80)
    by (apply (Z.mod_unique_pos _ _ 2); lia).
  replace (b2 mod 64) with (b2 - 0x80)
    by (apply (Z.mod_unique_pos _ _ 2); lia).
  replace (Z.shiftl (p0 - 224) 12) with (Z.shiftl (Z.shiftl (p0 - 224) 6) 6)
    by (rewrite Z.shiftl_shiftl by lia; reflexivity).
  rewrite <- Z.shiftl_lor, (lor_shift6 (p0 - 224)) by lia.
  now rewrite lor_shift6 by lia.
Qed.

Lemma rune4 (p0 b1 b2 b3 : Z) :
  0xF0 <= p0 < 0xF8 -> 0x80 <= b1 <= 0xBF -> 0x80 <= b2 <= 0xBF ->
  0x80 <= b3 <= 0xBF ->
  Z.lor (Z.lor (Z.lor (Z.shiftl (Z.land p0 0x07) 18)
                      (Z.shiftl (Z.land b1 0x3F) 12))
               (Z.shiftl (Z.land b2 0x3F) 6))
        (Z.land b3 0x3F)
  = (((p0 - 0xF0) * 64 + (b1 - 0x80)) * 64 + (b2 - 0x80)) * 64 + (b3 - 0x80).
Proof.
  intros H0 H1 H2 H3. rewrite land_07, !land_3F by lia.
  replace (p0 mod 8) with (p0 - 0xF0)
    by (apply (Z.mod_unique_pos _ _ 30); lia).
  replace (b1 mod 64) with (b1 - 0x80)
    by (apply (Z.mod_unique_pos _ _ 2); lia).
  replace (b2 mod 64) with (b2 - 0x80)
    by (apply (Z.mod_unique_pos _ _ 2); lia).
  replace (b3 mod 64) with (b3 - 0x80)
    by (apply (Z.mod_unique_pos _ _ 2); lia).
  replace (Z.shiftl (p0 - 240) 18) with (Z.shiftl (Z.shiftl (p0 - 240) 6) 12)
    by (rewrite Z.shiftl_shiftl by lia; reflexivity).
  replace (Z.shiftl (b1 - 128) 12) with (Z.shiftl (Z.shiftl (b1 - 128) 6) 6)
    by (rewrite Z.shiftl_shiftl by lia; reflexivity).
  replace (Z.shiftl (Z.shiftl (p0 - 240) 6) 12)
    with (Z.shiftl (Z.shiftl (Z.shiftl (p0 - 240) 6) 6) 6)
    by (rewrite (Z.shiftl_shiftl _ 6 6) by lia; reflexivity).
  rewrite <- !Z.shiftl_lor, (lor_shift6 (p0 - 240)) by lia.
  rewrite (lor_shift6 ((p0 - 240) * 64 + (b1 - 128))) by lia.
  now rewrite lor_shift6 by lia.
Qed.

Lemma shiftr_6 (r : Z) : Z.shiftr r 6 = r / 64.
Proof. now rewrite Z.shiftr_div_pow2 by lia. Qed.

Lemma shiftr_12 (r : Z) : Z.shiftr r 12 = r / 64 / 64.
Proof. rewrite Z.shiftr_div_pow2, Z.div_div by lia. reflexivity. Qed.

Lemma shiftr_18 (r : Z) : Z.shiftr r 18 = r / 64 / 64 / 64.
Proof. rewrite Z.shiftr_div_pow2, !Z.div_div by lia. reflexivity. Qed.

Lemma div_64 (q y : Z) : 0 <= y < 64 -> (q * 64 + y) / 64 = q.
Proof. intros H. symmetry. apply (Z.div_unique_pos _ _ _ y); lia. Qed.

Lemma mod_64 (q y : Z) : 0 <= y < 64 -> (q * 64 + y) mod 64 = y.
Proof. intros H. symmetry. apply (Z.mod_unique_pos _ _ q); lia. Qed.

Lemma encode2 (x y : Z) :
  2 <= x < 32 -> 0 <= y < 64 ->
  EncodeRune (x * 64 + y)
  = String (chr (0xC0 + x)) (String (chr (0x80 + y)) EmptyString).
Proof.
  intros Hx Hy. unfold EncodeRune.
  replace ((0 <=? x * 64 + y) && (x * 64 + y <=? 127)) with false
    by (symmetry; apply andb_false_iff; right; apply Z.leb_gt; lia).
  replace ((0 <=? x * 64 + y) && (x * 64 + y <=? 2047)) with true
    by (symmetry; apply andb_true_iff; split; apply Z.leb_le; lia).
  rewrite shiftr_6, land_3F, div_64, mod_64 by lia.
  now rewrite lor_C0, lor_80 by lia.
Qed.

Lemma encode3 (x y z : Z) :
  0 <= x < 16 -> 0 <= y < 64 -> 0 <= z < 64 ->
  0x800 <= (x * 64 + y) * 64 + z ->
  ~ (0xD800 <= (x * 64 + y) * 64 + z <= 0xDFFF) ->
  EncodeRune ((x * 64 + y) * 64 + z)
  = String (chr (0xE0 + x))
      (String (chr (0x80 + y)) (String (chr (0x80 + z)) EmptyString)).
Proof.
  intros Hx Hy Hz Hlo Hsur. unfold EncodeRune.
  set (r := (x * 64 + y) * 64 + z) in *.
  replace ((0 <=? r) && (r <=? 127)) with false
    by (symmetry; apply andb_false_iff; right; apply Z.leb_gt; lia).
  replace ((0 <=? r) && (r <=? 2047)) with false
    by (symmetry; apply andb_false_iff; right; apply Z.leb_gt; lia).
  replace ((r <? 0) || (1114111 <? r) || (55296 <=? r) && (r <=? 57343)) with false.
  2:{ symmetry. apply orb_false_iff. split; [apply orb_false_iff; split|].
      - apply Z.ltb_ge. lia.
      - apply Z.ltb_ge. unfold r. lia.
      - destruct (Z.leb_spec 55296 r), (Z.leb_spec r 57343); try reflexivity. lia. }
  replace (r <=? 65535) with true by (symmetry; apply Z.leb_le; unfold r; lia).
  rewrite shiftr_12, shiftr_6, !land_3F by (unfold r; try apply Z.div_pos; lia).
  unfold r. rewrite !div_64, !mod_64 by lia.
  now rewrite lor_E0, !lor_80 by lia.
Qed.

Lemma encode4 (x y z w : Z) :
  0 <= x < 8 -> 0 <= y < 64 -> 0 <= z < 64 -> 0 <= w < 64 ->
  0x10000 <= ((x * 64 + y) * 64 + z) * 64 + w <= 0x10FFFF ->
  EncodeRune (((x * 64 + y) * 64 + z) * 64 + w)
  = String (chr (0xF0 + x))
      (String (chr (0x80 + y))
         (String (chr (0x80 + z)) (String (chr (0x80 + w)) EmptyString))).
Proof.
  intros Hx Hy Hz Hw Hr. unfold EncodeRune.
  set (r := ((x * 64 + y) * 64 + z) * 64 + w) in *.
  replace ((0 <=? r) && (r <=? 127)) with false
    by (symmetry; apply andb_false_iff; right; apply Z.leb_gt; lia).
  replace ((0 <=? r) && (r <=? 2047)) with false
    by (symmetry; apply andb_false_iff; right; apply Z.leb_gt; lia).
  replace ((r <? 0) || (1114111 <? r) || (55296 <=? r) && (r <=? 57343)) with false.
  2:{ symmetry. apply orb_false_iff. split; [apply orb_false_iff; split|].
      - apply Z.ltb_ge. lia.
      - apply Z.ltb_ge. lia.
      - apply andb_false_iff. right. apply Z.leb_gt. lia. }
  replace (r <=? 65535) with false by (symmetry; apply Z.leb_gt; lia).
  rewrite shiftr_18, shiftr_12, shiftr_6, !land_3F
    by (unfold r; repeat apply Z.div_pos; lia).
  unfold r. rewrite !div_64 by lia. rewrite !mod_64 by lia.
  now rewrite lor_F0, !lor_80 by lia.
Qed.

Lemma first_inv (p0 : Z) :
  (first p0 = 0x02 -> 0xC2 <= p0 < 0xE0)
  /\ (first p0 = 0x13 -> p0 = 0xE0)
  /\ (first p0 = 0x03 -> 0xE1 <= p0 < 0xF0 /\ p0 <> 0xED)
  /\ (first p0 = 0x23 -> p0 = 0xED)
  /\ (first p0 = 0x34 -> p0 = 0xF0)
  /\ (first p0 = 0x04 -> 0xF1 <= p0 < 0xF4)
  /\ (first p0 = 0x44 -> p0 = 0xF4).
Proof.
  unfold first.
  repeat match goal with
         | |- context [if ?b then _ else _] => destruct b eqn:?
         end;
    repeat match goal with |- _ /\ _ => split end;
    intros Hf; try discriminate Hf; lia.
Qed.

#[local] Opaque byte first.

Lemma DecodeRune_2 (a0 a1 : ascii) (t : string) :
  first (byte a0) = 0x02 ->
  (byte a1 <? 0x80) || (0xBF <? byte a1) = false ->
  DecodeRune (String a0 (String a1 t))
  = (Z.lor (Z.shiftl (Z.land (byte a0) 0x1F) 6) (Z.land (byte a1) 0x3F), 2).
Proof.
  intros Hf H1. unfold DecodeRune. set (n := Z.of_nat _).
  assert (Hn : 2 <= n) by (unfold n; cbn [String.length]; lia).
  destruct (Z.ltb_spec n 1); [lia|].
  unfold byte_at. cbn [String.get]. rewrite Hf. simpl.
  match goal with
  | |- context [n <? ?k] => let k' := eval vm_compute in k in change k with k'
  end.
  destruct (Z.ltb_spec n 2); [lia|]. now rewrite H1.
Qed.

Lemma DecodeRune_3 (a0 a1 a2 : ascii) (t : string) (x : Z) :
  first (byte a0) = x -> x = 0x13 \/ x = 0x03 \/ x = 0x23 ->
  (byte a1 <? fst (acceptRanges (Z.shiftr x 4)))
  || (snd (acceptRanges (Z.shiftr x 4)) <? byte a1) = false ->
  (byte a2 <? 0x80) || (0xBF <? byte a2) = false ->
  DecodeRune (String a0 (String a1 (String a2 t)))
  = (Z.lor (Z.lor (Z.shiftl (Z.land (byte a0) 0x0F) 12)
                  (Z.shiftl (Z.land (byte a1) 0x3F) 6))
           (Z.land (byte a2) 0x3F), 3).
Proof.
  intros Hf Hx H1 H2. unfold DecodeRune. set (n := Z.of_nat _).
  assert (Hn : 3 <= n) by (unfold n; cbn [String.length]; lia).
  destruct (Z.ltb_spec n 1); [lia|].
  unfold byte_at. cbn [String.get]. rewrite Hf.
  destruct Hx as [->|[->| ->]]; simpl in *;
    match goal with
    | |- context [n <? ?k] => let k' := eval vm_compute in k in change k with k'
    end;
    (destruct (Z.ltb_spec n 3); [lia|]); now rewrite H1, H2.
Qed.

Lemma DecodeRune_4 (a0 a1 a2 a3 : ascii) (t : string) (x : Z) :
  first (byte a0) = x -> x = 0x34 \/ x = 0x04 \/ x = 0x44 ->
  (byte a1 <? fst (acceptRanges (Z.shiftr x 4)))
  || (snd (acceptRanges (Z.shiftr x 4)) <? byte a1) = false ->
  (byte a2 <? 0x80) || (0xBF <? byte a2) = false ->
  (byte a3 <? 0x80) || (0xBF <? byte a3) = false ->
  DecodeRune (String a0 (String a1 (String a2 (String a3 t))))
  = (Z.lor (Z.lor (Z.lor (Z.shiftl (Z.land (byte a0) 0x07) 18)
                         (Z.shiftl (Z.land (byte a1) 0x3F) 12))
                  (Z.shiftl (Z.land (byte a2) 0x3F) 6))
           (Z.land (byte a3) 0x3F), 4).
Proof.
  intros Hf Hx H1 H2 H3. unfold DecodeRune. set (n := Z.of_nat _).
  assert (Hn : 4 <= n) by (unfold n; cbn [String.length]; lia).
  destruct (Z.ltb_spec n 1); [lia|].
  unfold byte_at. cbn [String.get]. rewrite Hf.
  destruct Hx as [->|[->| ->]]; simpl in *;
    match goal with
    | |- context [n <? ?k] => let k' := eval vm_compute in k in change k with k'
    end;
    (destruct (Z.ltb_spec n 4); [lia|]); now rewrite H1, H2, H3.
Qed.

(** The shapes of a rune that [DecodeRune] accepts on bytes from 0x80
    up. *)
Lemma DecodeRune_shape (s : string) (c size : Z) :
  0x80 <= byte_at s 0 ->
  DecodeRune (substring 0 4 s) = (c, size) -> size <> 1 ->
  (exists a0 a1 t, s = String a0 (String a1 t) /\ size = 2
     /\ first (byte a0) = 0x02
     /\ (byte a1 <? 0x80) || (0xBF <? byte a1) = false)
  \/ (exists a0 a1 a2 t x, s = String a0 (String a1 (String a2 t)) /\ size = 3
     /\ first (byte a0) = x /\ (x = 0x13 \/ x = 0x03 \/ x = 0x23)
     /\ (byte a1 <? fst (acceptRanges (Z.shiftr x 4)))
        || (snd (acceptRanges (Z.shiftr x 4)) <? byte a1) = false
     /\ (byte a2 <? 0x80) || (0xBF <? byte a2) = false)
  \/ (exists a0 a1 a2 a3 t x,
     s = String a0 (String a1 (String a2 (String a3 t))) /\ size = 4
     /\ first (byte a0) = x /\ (x = 0x34 \/ x = 0x04 \/ x = 0x44)
     /\ (byte a1 <? fst (acceptRanges (Z.shiftr x 4)))
        || (snd (acceptRanges (Z.shiftr x 4)) <? byte a1) = false
     /\ (byte a2 <? 0x80) || (0xBF <? byte a2) = false
     /\ (byte a3 <? 0x80) || (0xBF <? byte a3) = false).
Proof.
  intros H0 H Hsz.
  destruct s as [|a0 [|a1 [|a2 [|a3 r]]]]; [exfalso; apply H0; reflexivity|..].
  all: cbn [substring] in H; rewrite ?substring_zero in H; unfold DecodeRune in H.
  all: simpl in H; unfold byte_at in H0, H; cbn [String.get] in H0, H.
  all: destruct (first_high _ H0) as [E|[E|[E|[E|[E|[E|[E|E]]]]]]]; rewrite E in H; simpl in H.
  all: repeat match type of H with
         | context [if ?b then _ else _] => destruct b eqn:?
         end; injection H as <- <-; try congruence; try discriminate.
  all: first
    [ left; do 3 eexists; repeat split; (reflexivity || eassumption)
    | right; left; do 5 eexists; rewrite E; simpl;
      repeat split; try reflexivity; try eassumption; tauto
    | right; right; do 6 eexists; rewrite E; simpl;
      repeat split; try reflexivity; try eassumption; tauto ].
Qed.

#[local] Transparent byte first.

Lemma bounds_of_test (b lo hi : Z) :
  (b <? lo) || (hi <? b) = false -> lo <= b <= hi.
Proof. intros [H1%Z.ltb_ge H2%Z.ltb_ge]%orb_false_iff. lia. Qed.

#[local] Opaque byte first EncodeRune.

(** A rune that [DecodeRune] accepts on bytes from 0x80 up is decoded
    from its own bytes alone, and [EncodeRune] writes those bytes. *)
Lemma DecodeRune_valid (s : string) (c size : Z) :
  0x80 <= byte_at s 0 ->
  DecodeRune (substring 0 4 s) = (c, size) -> size <> 1 ->
  exists a0 a t,
    s = String a0 a +:+ t
    /\ Z.of_nat (String.length (String a0 a)) = size
    /\ 0x80 <= byte a0
    /\ EncodeRune c = String a0 a
    /\ forall t', DecodeRune (String a0 a +:+ t') = (c, size).
Proof.
  intros H0 H Hsz.
  destruct (DecodeRune_shape s c size H0 H Hsz)
    as [(a0 & a1 & t & -> & -> & Hf & H1)
       |[(a0 & a1 & a2 & t & x & -> & -> & Hf & Hx & H1 & H2)
        |(a0 & a1 & a2 & a3 & t & x & -> & -> & Hf & Hx & H1 & H2 & H3)]];
    unfold byte_at in H0; cbn [String.get] in H0; cbn [substring] in H.
  - rewrite (DecodeRune_2 _ _ _ Hf H1) in H. injection H as <-.
    exists a0, (String a1 EmptyString), t.
    split; [reflexivity|]. split; [reflexivity|]. split; [assumption|].
    split; [|intros t'; now apply DecodeRune_2].
    apply (proj1 (first_inv _)) in Hf. apply bounds_of_test in H1.
    rewrite rune2 by lia. rewrite encode2 by lia.
    replace (192 + (byte a0 - 192)) with (byte a0) by lia.
    replace (128 + (byte a1 - 128)) with (byte a1) by lia.
    now rewrite !chr_byte.
  - rewrite (DecodeRune_3 _ _ _ _ _ Hf Hx H1 H2) in H. injection H as <-.
    exists a0, (String a1 (String a2 EmptyString)), t.
    split; [reflexivity|]. split; [reflexivity|]. split; [assumption|].
    split; [|intros t'; now apply (DecodeRune_3 _ _ _ _ x)].
    apply bounds_of_test in H2.
    assert (Hr : 0xE0 <= byte a0 < 0xF0 /\ 0x80 <= byte a1 <= 0xBF
                 /\ (byte a0 = 0xE0 -> 0xA0 <= byte a1)
                 /\ (byte a0 = 0xED -> byte a1 <= 0x9F)).
    { pose proof (first_inv (byte a0)) as (_ & F13 & F03 & F23 & _).
      destruct Hx as [->|[->| ->]]; apply bounds_of_test in H1; simpl in H1;
        [specialize (F13 Hf) | specialize (F03 Hf) | specialize (F23 Hf)]; lia. }
    rewrite rune3 by lia. rewrite encode3 by lia.
    replace (224 + (byte a0 - 224)) with (byte a0) by lia.
    replace (128 + (byte a1 - 128)) with (byte a1) by lia.
    replace (128 + (byte a2 - 128)) with (byte a2) by lia.
    now rewrite !chr_byte.
  - rewrite (DecodeRune_4 _ _ _ _ _ _ Hf Hx H1 H2 H3) in H. injection H as <-.
    exists a0, (String a1 (String a2 (String a3 EmptyString))), t.
    split; [reflexivity|]. split; [reflexivity|]. split; [assumption|].
    split; [|intros t'; now apply (DecodeRune_4 _ _ _ _ _ x)].
    apply bounds_of_test in H2, H3.
    assert (Hr : 0xF0 <= byte a0 <= 0xF4 /\ 0x80 <= byte a1 <= 0xBF
                 /\ (byte a0 = 0xF0 -> 0x90 <= byte a1)
                 /\ (byte a0 = 0xF4 -> byte a1 <= 0x8F)).
    { pose proof (first_inv (byte a0)) as (_ & _ & _ & _ & F34 & F04 & F44).
      destruct Hx as [->|[->| ->]]; apply bounds_of_test in H1; simpl in H1;
        [specialize (F34 Hf) | specialize (F04 Hf) | specialize (F44 Hf)]; lia. }
    rewrite rune4 by lia. rewrite encode4 by lia.
    replace (240 + (byte a0 - 240)) with (byte a0) by lia.
    replace (128 + (byte a1 - 128)) with (byte a1) by lia.
    replace (128 + (byte a2 - 128)) with (byte a2) by lia.
    replace (128 + (byte a3 - 128)) with (byte a3) by lia.
    now rewrite !chr_byte.
Qed.

#[local] Transparent byte first EncodeRune.


(** ** Keys that are valid UTF-8 survive the round trip *)

(** An escape of [appendString] is read back as the byte it stands
    for. *)
Lemma unquoteLoop_escapeByte (b0 : ascii) (f : nat) (tail : string) :
  byte b0 < 0x80 -> htmlSafeSet (byte b0) = false ->
  unquoteLoop (S f) (escapeByte (byte b0) +:+ tail)
  = option_map (String b0) (unquoteLoop f tail).
Proof.
  each_byte b0; intros Hlo Hs; try (exfalso; vm_compute in Hlo; discriminate Hlo);
    try discriminate Hs; clear Hlo Hs;
    try reflexivity.
  all: match goal with
       | |- unquoteLoop _ (escapeByte ?b +:+ _) = _ =>
           let e := eval vm_compute in (escapeByte b) in
           change (escapeByte b) with e
       end; cbn [String.append unquoteLoop];
       match goal with
       | |- context [slice_from ?s 6] =>
           rewrite (slice_from_6 _ _ _ _ _ _ tail)
       end; reflexivity.
Qed.

Lemma escapeByte_backslash (b : Z) :
  exists r, escapeByte b = String backslash r.
Proof.
  unfold escapeByte.
  repeat match goal with
         | |- context [if ?c then _ else _] => destruct c
         end; eauto.
Qed.

Lemma unquoteLoop_nil (f : nat) : unquoteLoop f EmptyString = Some EmptyString.
Proof. now destruct f. Qed.

Lemma plainPrefix_nil (f : nat) : plainPrefix f EmptyString = 0.
Proof. now destruct f. Qed.

Lemma htmlSafeSet_plain (b : Z) :
  htmlSafeSet b = true ->
  (b =? 92) = false /\ (b =? 34) = false /\ (b <? 32) = false /\ (b <? 0x80) = true.
Proof.
  unfold htmlSafeSet.
  intros [[H1%Z.leb_le H2%Z.ltb_lt]%andb_true_iff H3%negb_true_iff]%andb_true_iff.
  repeat apply orb_false_iff in H3 as [H3 ?].
  repeat split; try assumption; try (apply Z.ltb_ge; lia). now apply Z.ltb_lt.
Qed.

Lemma slice_to_append (a b : string) :
  slice_to (a +:+ b) (Z.of_nat (String.length a)) = a.
Proof.
  rewrite <- (Z.add_0_r (Z.of_nat (String.length a))).
  rewrite slice_to_app, slice_to_0 by lia. apply append_nil_r.
Qed.

(** What [valid_utf8_loop] and [appendString_loop] see at a byte from
    0x80 up of a valid string. *)
Lemma valid_high (g : nat) (b0 : ascii) (rest : string) :
  0x80 <= byte b0 -> valid_utf8_loop (S g) (String b0 rest) = true ->
  exists c size a0 a t,
    DecodeRune (substring 0 4 (String b0 rest)) = (c, size)
    /\ (c =? RuneError) && (size =? 1) = false
    /\ String b0 rest = String a0 a +:+ t
    /\ Z.of_nat (String.length (String a0 a)) = size
    /\ 0x80 <= byte a0
    /\ EncodeRune c = String a0 a
    /\ (forall t', DecodeRune (String a0 a +:+ t') = (c, size))
    /\ slice_to (String b0 rest) size = String a0 a
    /\ slice_from (String b0 rest) size = t
    /\ valid_utf8_loop g t = true.
Proof.
  intros Hhi. cbn [valid_utf8_loop].
  destruct (Z.ltb_spec (byte b0) 128) as [?|_]; [lia|].
  destruct (DecodeRune (substring 0 4 (String b0 rest))) as [c size] eqn:E.
  destruct ((c =? RuneError) && (size =? 1)) eqn:Hc; [discriminate|]. intros Hv.
  assert (Hsz : size <> 1).
  { destruct (DecodeRune_window (String b0 rest) c size Hhi E) as [[-> ->]|[? _]];
      [discriminate Hc | lia]. }
  destruct (DecodeRune_valid (String b0 rest) c size Hhi E Hsz)
    as (a0 & a & t & Hs & Hlen & Ha0 & Henc & Hdet).
  exists c, size, a0, a, t. subst size. rewrite Hs in Hv |- *.
  rewrite slice_from_append in Hv |- *. rewrite slice_to_append.
  repeat split; try assumption; try reflexivity.
Qed.

(** The second loop of [unquoteBytes] reads the text [appendString]
    wrote for a valid string back as that string. *)
Lemma unquoteLoop_appendString (g : nat) :
  forall k f, valid_utf8_loop g k = true -> (String.length k <= g)%nat ->
    (String.length (appendString_loop g k) <= f)%nat ->
    unquoteLoop f (appendString_loop g k) = Some k.
Proof.
  induction g as [|g IH]; intros k f Hv Hg Hf.
  { destruct k; [|simpl in Hg; lia]. apply unquoteLoop_nil. }
  destruct k as [|b0 rest]; [apply unquoteLoop_nil|].
  cbn [String.length] in Hg. revert Hf. cbn [appendString_loop].
  destruct (Z.ltb_spec (byte b0) 128) as [Hlo|Hhi].
  - assert (Hrest : valid_utf8_loop g rest = true).
    { revert Hv. cbn [valid_utf8_loop].
      now destruct (Z.ltb_spec (byte b0) 128); [|lia]. }
    destruct (htmlSafeSet (byte b0)) eqn:Hs.
    + destruct (htmlSafeSet_plain _ Hs) as (E1 & E2 & E3 & E4).
      cbn [String.length]. intros Hf. destruct f as [|f]; [lia|].
      cbn [unquoteLoop]. rewrite E1, E2, E3, E4. cbn [orb].
      now rewrite IH by (assumption || lia).
    + rewrite length_append. intros Hf.
      destruct (escapeByte_backslash (byte b0)) as [r Er].
      assert (1 <= String.length (escapeByte (byte b0)))%nat
        by (rewrite Er; simpl; lia).
      destruct f as [|f]; [lia|].
      rewrite unquoteLoop_escapeByte by assumption.
      now rewrite IH by (assumption || lia).
  - destruct (valid_high g b0 rest Hhi Hv)
      as (c & size & a0 & a & t & E & Hc & Hs & Hlen & Ha0 & Henc & Hdet
          & Hto & Hfrom & Hvt).
    rewrite E, Hc, Hto, Hfrom.
    assert (Hgt : (String.length t <= g)%nat).
    { assert (Hl : String.length (String b0 rest)
                   = (String.length (String a0 a) + String.length t)%nat)
        by (rewrite Hs; apply length_append).
      cbn [String.length] in Hl. lia. }
    destruct ((c =? 0x2028) || (c =? 0x2029)) eqn:Hls.
    + intros Hf. rewrite Hs, <- Henc.
      apply orb_true_iff in Hls as [Hls|Hls]; apply Z.eqb_eq in Hls; subst c;
        (destruct f as [|f]; [cbn [String.length String.append] in Hf; lia|]);
        cbn [String.append Z.land hex] in Hf |- *;
        match goal with
        | |- unquoteLoop _ (String ?b (String ?u (String ?h1 (String ?h2
               (String ?h3 (String ?h4 ?x)))))) = _ =>
            cbn [unquoteLoop];
            rewrite (slice_from_6 b u h1 h2 h3 h4 x)
        end;
        cbn [String.length] in Hf;
        rewrite IH by (assumption || lia); reflexivity.
    + rewrite length_append. intros Hf. rewrite Hs.
      assert (Hl : (1 <= String.length (String a0 a))%nat) by (simpl; lia).
      destruct f as [|f]; [lia|].
      cbn [String.append unquoteLoop].
      destruct (Z.eqb_spec (byte a0) 92) as [?|_]; [lia|].
      destruct (Z.eqb_spec (byte a0) 34) as [?|_]; [lia|].
      destruct (Z.ltb_spec (byte a0) 32) as [?|_]; [lia|].
      destruct (Z.ltb_spec (byte a0) 128) as [?|_]; [lia|]. cbn [orb].
      change (String a0 (a +:+ ?x)) with (String a0 a +:+ x).
      rewrite Hdet, <- Hlen, slice_from_append, Henc.
      now rewrite IH by (assumption || lia).
Qed.

Lemma appendString_loop_nil (g : nat) (k : string) :
  (String.length k <= g)%nat -> appendString_loop g k = EmptyString ->
  k = EmptyString.
Proof.
  destruct g as [|g]; [destruct k; simpl; [reflexivity | lia]|].
  destruct k as [|b0 rest]; [reflexivity|]. intros _. cbn [appendString_loop].
  destruct (Z.ltb_spec (byte b0) 128) as [Hlo|Hhi].
  - destruct (htmlSafeSet (byte b0)); [discriminate|].
    destruct (escapeByte_backslash (byte b0)) as [r ->]. discriminate.
  - destruct (DecodeRune _) as [c size] eqn:E.
    destruct (_ && _) eqn:Hc; [discriminate|].
    destruct (_ || _); [discriminate|].
    destruct (DecodeRune_window (String b0 rest) _ _ Hhi E) as [[-> ->]|(Hsz & _ & _ & _)];
      [discriminate Hc|].
    unfold slice_to. destruct (Z.to_nat size) as [|n] eqn:En; [lia|]. discriminate.
Qed.

(** The first loop of [unquoteBytes] on the text [appendString] wrote
    for a valid string: the prefix it passes over is a prefix of the
    string itself, and what is left is the text written for the rest. *)
Lemma plainPrefix_appendString (g : nat) :
  forall k f, valid_utf8_loop g k = true -> (String.length k <= g)%nat ->
    (String.length (appendString_loop g k) <= f)%nat ->
    exists p k' g',
      k = p +:+ k'
      /\ appendString_loop g k = p +:+ appendString_loop g' k'
      /\ valid_utf8_loop g' k' = true /\ (String.length k' <= g')%nat
      /\ plainPrefix f (appendString_loop g k) = Z.of_nat (String.length p).
Proof.
  induction g as [|g IH]; intros k f Hv Hg Hf.
  { exists EmptyString, k, 0%nat.
    split; [reflexivity|]. split; [reflexivity|]. split; [assumption|].
    split; [assumption|]. apply plainPrefix_nil. }
  destruct k as [|b0 rest].
  { exists EmptyString, EmptyString, 0%nat.
    split; [reflexivity|]. split; [reflexivity|]. split; [reflexivity|].
    split; [reflexivity|]. apply plainPrefix_nil. }
  assert (Hstop : forall r,
            appendString_loop (S g) (String b0 rest) = String backslash r ->
            exists p k' g',
              String b0 rest = p +:+ k'
              /\ appendString_loop (S g) (String b0 rest)
                 = p +:+ appendString_loop g' k'
              /\ valid_utf8_loop g' k' = true /\ (String.length k' <= g')%nat
              /\ plainPrefix f (appendString_loop (S g) (String b0 rest))
                 = Z.of_nat (String.length p)).
  { intros r Er. exists EmptyString, (String b0 rest), (S g).
    split; [reflexivity|]. split; [reflexivity|]. split; [assumption|].
    split; [assumption|]. rewrite Er. now destruct f. }
  cbn [String.length] in Hg. revert Hf Hstop. cbn [appendString_loop].
  destruct (Z.ltb_spec (byte b0) 128) as [Hlo|Hhi].
  - assert (Hrest : valid_utf8_loop g rest = true).
    { revert Hv. cbn [valid_utf8_loop].
      now destruct (Z.ltb_spec (byte b0) 128); [|lia]. }
    destruct (htmlSafeSet (byte b0)) eqn:Hs.
    + destruct (htmlSafeSet_plain _ Hs) as (E1 & E2 & E3 & E4).
      cbn [String.length]. intros Hf _. destruct f as [|f]; [lia|].
      destruct (IH rest f Hrest ltac:(lia) ltac:(lia))
        as (p & k' & g' & Hk & Hout & Hv' & Hg' & Hp).
      exists (String b0 p), k', g'. cbn [String.append String.length].
      split; [now rewrite <- Hk|]. split; [now rewrite <- Hout|].
      split; [assumption|]. split; [assumption|].
      cbn [plainPrefix]. rewrite E1, E2, E3, E4. cbn [orb]. rewrite Hp. lia.
    + intros _ Hstop. destruct (escapeByte_backslash (byte b0)) as [r Er].
      apply (Hstop (r +:+ appendString_loop g rest)). now rewrite Er.
  - destruct (valid_high g b0 rest Hhi Hv)
      as (c & size & a0 & a & t & E & Hc & Hs & Hlen & Ha0 & Henc & Hdet
          & Hto & Hfrom & Hvt).
    rewrite E, Hc, Hto, Hfrom.
    assert (Hgt : (String.length t <= g)%nat).
    { assert (Hl : String.length (String b0 rest)
                   = (String.length (String a0 a) + String.length t)%nat)
        by (rewrite Hs; apply length_append).
      cbn [String.length] in Hl. lia. }
    destruct ((c =? 0x2028) || (c =? 0x2029)) eqn:Hls.
    + intros _ Hstop. eapply Hstop. reflexivity.
    + rewrite length_append. intros Hf _.
      assert (Hl : (1 <= String.length (String a0 a))%nat) by (simpl; lia).
      destruct f as [|f]; [lia|].
      destruct (IH t f Hvt Hgt ltac:(lia))
        as (p & k' & g' & Hk & Hout & Hv' & Hg' & Hp).
      exists (String a0 a +:+ p), k', g'.
      split; [now rewrite Hs, append_assoc, <- Hk|].
      split; [now rewrite append_assoc, <- Hout|].
      split; [assumption|]. split; [assumption|].
      cbn [String.append plainPrefix].
      destruct (Z.eqb_spec (byte a0) 92) as [?|_]; [lia|].
      destruct (Z.eqb_spec (byte a0) 34) as [?|_]; [lia|].
      destruct (Z.ltb_spec (byte a0) 32) as [?|_]; [lia|].
      destruct (Z.ltb_spec (byte a0) 128) as [?|_]; [lia|]. cbn [orb].
      change (String a0 (a +:+ ?x)) with (String a0 a +:+ x).
      rewrite Hdet, Hc, <- Hlen, slice_from_append, Hp.
      rewrite length_append. lia.
Qed.

(** A key that is valid UTF-8 survives the round trip through its JSON
    string literal. *)
Lemma key_roundtrips_valid (k : string) :
  valid_utf8 k = true -> key_roundtrips k = true.
Proof.
  intros Hv. apply bool_decide_eq_true. unfold appendString, unquote.
  rewrite Ascii.eqb_refl, dropLast_end. cbv zeta.
  set (body := appendString_loop (String.length k) k).
  destruct (plainPrefix_appendString (String.length k) k (String.length body)
              Hv (le_n _) (le_n _)) as (p & k' & g' & Hk & Hout & Hv' & Hg' & Hp).
  fold body in Hout, Hp. rewrite Hp.
  assert (Hlen : String.length body
                 = (String.length p + String.length (appendString_loop g' k'))%nat)
    by (rewrite Hout; apply length_append).
  destruct (Z.eqb_spec (Z.of_nat (String.length p)) (Z.of_nat (String.length body)))
    as [Heq|Hne].
  - assert (Hnil : appendString_loop g' k' = EmptyString).
    { destruct (appendString_loop g' k'); [reflexivity|].
      cbn [String.length] in Hlen. lia. }
    apply appendString_loop_nil in Hnil; [|assumption]. subst k'.
    rewrite Hout, Hk. cbn [appendString_loop]. f_equal.
    destruct g'; reflexivity.
  - rewrite Hout, slice_to_append, slice_from_append.
    rewrite unquoteLoop_appendString
      by (assumption || (rewrite ?length_append; lia)).
    cbn [option_map]. now rewrite Hk.
Qed.


(** ** No panic in the decoder *)












(** ** The tracker returns on inputs without arrays *)













(** ** Reading back what the serializer wrote: scalars *)

Lemma closes_value_end (st' : scan_state) (rest : string) :
  step st' " " = scanEnd -> delimited rest ->
  match rest with
  | EmptyString => step st' " " = scanEnd
  | String c _ => step st' c = scanEnd
  end.
Proof.
  intros H Hd. destruct rest as [|c r]; [assumption|].
  now apply step_end_closes.
Qed.

(** The literal of a scalar is scanned as a whole. *)
Lemma json_Marshal_run (v : value) :
  isPrimitive v = true -> wf_value v = true ->
  exists c r st',
    json_Marshal v = String c r /\ scalar_start c = true
    /\ run stateBeginValue (json_Marshal v) = Some st'
    /\ step st' " " = scanEnd.
Proof.
  destruct v as [|[]|lit|s| |]; cbn [isPrimitive wf_value json_Marshal];
    intros Hp Hw; try discriminate.
  - exists "n"%char, "ull", stateEndValue. repeat split.
  - exists "t"%char, "rue", stateEndValue. repeat split.
  - exists "f"%char, "alse", stateEndValue. repeat split.
  - pose proof Hw as Hw'.
    apply wf_number_run in Hw as (c & r & st & st' & -> & Hsp & Hstep & Hst & Hrun & Hend & _).
    exists c, r, st'. split; [reflexivity|]. split.
    { unfold wf_number in Hw'. apply andb_true_iff in Hw' as [Hc _].
      apply andb_true_iff in Hc as [Hc _]. unfold scalar_start.
      now rewrite Hc. }
    split; [|assumption]. cbn [run]. now rewrite Hstep.
  - exists quote, (appendString_loop (String.length s) s +:+ String quote EmptyString),
      stateEndValue.
    split; [reflexivity|]. split; [reflexivity|].
    split; [apply run_appendString | reflexivity].
Qed.

Lemma number_start (c : ascii) :
  isDigit c || Ascii.eqb c "-" = true ->
  Ascii.eqb c "n" = false /\ Ascii.eqb c "t" = false /\ Ascii.eqb c "f" = false
  /\ Ascii.eqb c quote = false.
Proof. each_byte c; vm_compute; intros H; try discriminate H; repeat split. Qed.

(** The token a scalar literal decodes to is not a delimiter. *)
Lemma json_Marshal_token (v : value) :
  isPrimitive v = true -> wf_value v = true ->
  exists t, literalInterface (json_Marshal v) = TokOk t
            /\ forall c, t <> Delim c.
Proof.
  destruct v as [|[]|lit|s| |]; cbn [isPrimitive wf_value json_Marshal];
    intros Hp Hw; try discriminate.
  - exists TNil. split; [reflexivity | discriminate].
  - exists (TBool true). split; [reflexivity | discriminate].
  - exists (TBool false). split; [reflexivity | discriminate].
  - exists (TFloat lit). split; [|discriminate].
    destruct lit as [|c r]; [discriminate|]. unfold wf_number in Hw.
    apply andb_true_iff in Hw as [[Hc _]%andb_true_iff Hr%negb_true_iff].
    destruct (number_start c Hc) as (H1 & H2 & H3 & H4).
    cbn [literalInterface]. now rewrite H1, H2, H3, H4, Hr.
  - destruct (unquote_total _ (run_appendString s)) as [s' Hs'].
    exists (TString s'). split; [|discriminate].
    unfold appendString in *. cbn [literalInterface].
    change (Ascii.eqb quote "n") with false. change (Ascii.eqb quote "t") with false.
    change (Ascii.eqb quote "f") with false. rewrite Ascii.eqb_refl.
    cbv iota. now rewrite Hs'.
Qed.

Lemma decodeValueOrder_scalar (f : nat) (dec dec' : Decoder) (t : json_Token) :
  Token dec = (TokOk t, dec') -> (forall c, t <> Delim c) ->
  decodeValueOrder (S f) dec = Returns (None, false, dec').
Proof.
  intros H Ht. cbn [decodeValueOrder]. rewrite H.
  destruct t; try reflexivity. now destruct (Ht c).
Qed.

(** A scalar is read back. *)
Lemma parses_scalar (v : value) (o : option keyOrder) (indent : string) (d : nat) :
  isPrimitive v = true -> wf_value v = true ->
  parses v o (writeValue v o indent d).
Proof.
  intros Hp Hw sp rest s st Hsp Hs Hd. rewrite writeValue_scalar by assumption.
  destruct (json_Marshal_run v Hp Hw) as (c & r & st' & Htext & Hc & Hrun & Hend).
  destruct (json_Marshal_token v Hp Hw) as (t & Htok & Hnd).
  exists 1%nat. intros [|f] Hf; [lia|].
  assert (E : written_order v o = None) by (destruct v; try discriminate; reflexivity).
  rewrite E. apply (decodeValueOrder_scalar _ _ _ t); [|assumption].
  rewrite <- Htok. rewrite Htext at 1. cbn [String.append].
  rewrite Token_scalar by assumption.
  change (String c (r +:+ rest)) with (String c r +:+ rest). rewrite <- Htext.
  apply Decode_item with (st' := st'); [assumption|].
  now apply closes_value_end.
Qed.

(** The key of a member is read back as it was. *)
Lemma Token_key_text (sp : string) (k rest : string) s st :
  all_bytes isSpace sp = true ->
  s = tokenObjectStart \/ s = tokenObjectKey ->
  key_roundtrips k = true ->
  Token (mkDecoder (sp +:+ appendString k +:+ rest) false s st)
  = (TokOk (TString k), mkDecoder rest false tokenObjectColon st).
Proof.
  intros Hsp Hs Hk.
  assert (Hd : Decode (mkDecoder (appendString k +:+ rest) false tokenTopValue st)
               = (TokOk (TString k), mkDecoder rest false tokenTopValue st)).
  { rewrite (Decode_item _ _ stateEndValue); [| apply run_appendString | now destruct rest].
    f_equal. apply bool_decide_eq_true in Hk. unfold appendString in *.
    cbn [literalInterface].
    change (Ascii.eqb quote "n") with false. change (Ascii.eqb quote "t") with false.
    change (Ascii.eqb quote "f") with false. rewrite Ascii.eqb_refl.
    cbv iota. now rewrite Hk. }
  unfold appendString in *. cbn [String.append] in *.
  rewrite Token_key by assumption. now rewrite Hd.
Qed.

(** The first byte of a value as written. *)
Lemma writeValue_start (v : value) (o : option keyOrder) (indent : string) (d : nat) :
  wf_value v = true ->
  exists c r, writeValue v o indent d = String c r
              /\ isSpace c = false
              /\ negb (Ascii.eqb c "]") && negb (Ascii.eqb c "}") = true.
Proof.
  intros Hw. destruct (isPrimitive v) eqn:Hp.
  - rewrite writeValue_scalar by assumption.
    destruct (json_Marshal_run v Hp Hw) as (c & r & st' & -> & Hc & _).
    exists c, r. split; [reflexivity|].
    destruct (scalar_start_plain c Hc) as (H0 & _ & H2 & _ & H4 & _).
    now rewrite H0, H2, H4.
  - destruct v as [| | | |arr|m]; try discriminate.
    + rewrite writeValue_list. destruct (is_nil arr); [now eexists _, _|].
      destruct (forallb isPrimitive arr); now eexists _, _.
    + rewrite writeValue_object. destruct (decide _); now eexists _, _.
Qed.


(** ** Reading back what the serializer wrote: lists *)

Lemma decodeValueOrder_Token_eq (f : nat) (d1 d2 : Decoder) :
  Token d1 = Token d2 -> decodeValueOrder f d1 = decodeValueOrder f d2.
Proof. intros H. destruct f; [reflexivity|]. cbn [decodeValueOrder]. now rewrite H. Qed.

Lemma array_tail_delimited W Wend E vs rest :
  delimited (Wend +:+ "]" +:+ rest) -> delimited (array_tail W Wend E vs rest).
Proof. destruct vs; [trivial | reflexivity]. Qed.

(** The loop of [decodeArrayOrder] over the rest of a list. *)
Lemma array_loop (W Wend : string) (E : value -> string) (rest : string)
    (vs : list value) (s0 : token_state) (st : list token_state) :
  all_bytes isSpace W = true -> all_bytes isSpace Wend = true ->
  delimited (Wend +:+ "]" +:+ rest) ->
  Forall (fun v => parses v None (E v)) vs ->
  exists f0, forall f, (f0 <= f)%nat ->
    decodeArrayOrder f
      (mkDecoder (array_tail W Wend E vs rest) false tokenArrayComma (s0 :: st))
    = Returns (None, false, mkDecoder rest false (tokenValueEnd s0) st).
Proof.
  intros HW HWend Hd Hvs. induction Hvs as [|v vs Hv _ [f2 IH]].
  - exists 1%nat. intros [|f] Hf; [lia|]. cbn [decodeArrayOrder array_tail].
    change (Wend +:+ "]" +:+ rest) with (Wend +:+ String "]" rest).
    rewrite More_at by (assumption || reflexivity). cbn [negb andb Ascii.eqb].
    change (Ascii.eqb "]" "]") with true. cbn [negb andb].
    change (String "]" rest) with (EmptyString +:+ String "]" rest).
    rewrite Token_close_bracket by (reflexivity || auto). reflexivity.
  - destruct (Hv W (array_tail W Wend E vs rest) tokenArrayValue (s0 :: st))
      as [f1 H1]; [assumption | reflexivity | now apply array_tail_delimited|].
    exists (S (Nat.max f1 f2)). intros [|f] Hf; [lia|].
    cbn [decodeArrayOrder array_tail].
    change ("," +:+ ?x) with (EmptyString +:+ String "," x).
    rewrite More_at by reflexivity.
    change (negb (Ascii.eqb "," "]") && negb (Ascii.eqb "," "}")) with true.
    cbv iota.
    change (String "," ?x) with (EmptyString +:+ String "," x).
    rewrite (decodeValueOrder_Token_eq f _ _ (Token_comma_array EmptyString _ _ eq_refl)).
    rewrite H1 by lia. apply IH. lia.
Qed.

(** A list that starts with [v], from its opening bracket on. *)
Lemma array_first (W0 W Wend : string) (E : value -> string) (v : value)
    (vs : list value) :
  all_bytes isSpace W0 = true -> all_bytes isSpace W = true ->
  all_bytes isSpace Wend = true ->
  (exists c r, E v = String c r /\ isSpace c = false
               /\ negb (Ascii.eqb c "]") && negb (Ascii.eqb c "}") = true) ->
  Forall (fun v => parses v None (E v)) (v :: vs) ->
  forall sp rest s st,
    all_bytes isSpace sp = true -> tokenValueAllowed s = true ->
    delimited (Wend +:+ "]" +:+ rest) ->
    exists f0, forall f, (f0 <= f)%nat ->
      decodeValueOrder f
        (mkDecoder (sp +:+ "[" +:+ W0 +:+ E v +:+ array_tail W Wend E vs rest) false s st)
      = Returns (None, false, after_value rest s st).
Proof.
  intros HW0 HW HWend (c & r & Hc & Hsp & Hcl) Hall sp rest s st Hspp Hs Hd.
  apply Forall_cons in Hall as [Hv Hvs].
  destruct (array_loop W Wend E rest vs s st HW HWend Hd Hvs) as [f2 H2].
  destruct (Hv EmptyString (array_tail W Wend E vs rest) tokenArrayStart (s :: st))
    as [f1 H1]; [reflexivity | reflexivity | now apply array_tail_delimited|].
  exists (S (S (Nat.max f1 f2))). intros [|[|f]] Hf; try lia.
  cbn [decodeValueOrder].
  change ("[" +:+ ?x) with (String "[" x).
  rewrite Token_open_bracket by assumption.
  change (Ascii.eqb "[" "{") with false. change (Ascii.eqb "[" "[") with true.
  cbv iota. cbn [decodeArrayOrder].
  rewrite Hc at 1. cbn [String.append]. rewrite More_at by assumption.
  rewrite Hcl. cbv iota.
  change (String c (r +:+ ?x)) with (EmptyString +:+ String c r +:+ x).
  rewrite <- Hc. rewrite H1 by lia.
  change (after_value ?t tokenArrayStart ?k) with (mkDecoder t false tokenArrayComma k).
  apply H2. lia.
Qed.

Lemma compact_text (vs : list value) (rest : string) (d : nat) :
  forallb isPrimitive vs = true ->
  (if is_nil vs then EmptyString else ", ") +:+ writeCompact vs +:+ "]" +:+ rest
  = array_tail " " EmptyString (fun v => writeValue v None "  " (d + 1)%nat) vs rest.
Proof.
  induction vs as [|v vs IH]; [reflexivity|].
  cbn [forallb is_nil writeCompact array_tail]. intros [Hv Hvs]%andb_true_iff.
  rewrite (writeValue_scalar v) by assumption. rewrite <- (IH Hvs).
  cbn [String.append]. now rewrite !append_assoc.
Qed.

Lemma multi_text (vs : list value) (rest : string) (d : nat) :
  line_end vs +:+ element_lines "  " d vs +:+ Repeat "  " d +:+ "]" +:+ rest
  = array_tail (String nl (Repeat "  " (d + 1))) (String nl (Repeat "  " d))
      (fun v => writeValue v None "  " (d + 1)%nat) vs rest.
Proof.
  induction vs as [|v vs IH]; [reflexivity|].
  cbn [element_lines array_tail]. rewrite <- IH.
  unfold line_end at 1. cbn [is_nil String.append]. now rewrite !append_assoc.
Qed.

Lemma spaces_line (n : nat) : all_bytes isSpace (String nl (Repeat "  " n)) = true.
Proof. cbn [all_bytes]. now rewrite isSpace_spaces. Qed.

Lemma keys_roundtrip_list (arr : list value) :
  keys_roundtrip (VList arr) = true <-> Forall (fun v => keys_roundtrip v = true) arr.
Proof.
  cbn [keys_roundtrip]. rewrite forallb_forall, Forall_forall.
  now setoid_rewrite list_elem_of_In.
Qed.

(** A list is read back when its elements are. *)
Lemma parses_list (arr : list value) (o : option keyOrder) (d : nat) :
  wf_value (VList arr) = true ->
  Forall (fun v => parses v None (writeValue v None "  " (d + 1)%nat)) arr ->
  parses (VList arr) o (writeValue (VList arr) o "  " d).
Proof.
  intros Hw Hall sp rest s st Hsp Hs Hd. cbn [written_order].
  rewrite writeValue_list. destruct arr as [|v vs]; cbn [is_nil].
  { exists 2%nat. intros [|[|f]] Hf; try lia.
    cbn [decodeValueOrder String.append]. rewrite Token_open_bracket by assumption.
    change (Ascii.eqb "[" "{") with false. change (Ascii.eqb "[" "[") with true.
    cbv iota. cbn [decodeArrayOrder].
    change (String "]" rest) with (EmptyString +:+ String "]" rest).
    rewrite More_at by reflexivity.
    change (negb (Ascii.eqb "]" "]") && negb (Ascii.eqb "]" "}")) with false.
    cbv iota. change (String "]" rest) with (EmptyString +:+ String "]" rest).
    rewrite Token_close_bracket by (reflexivity || auto). reflexivity. }
  assert (Hstart : exists c r, writeValue v None "  " (d + 1)%nat = String c r
            /\ isSpace c = false
            /\ negb (Ascii.eqb c "]") && negb (Ascii.eqb c "}") = true).
  { apply writeValue_start. apply wf_value_list in Hw. now apply Forall_cons in Hw. }
  destruct (forallb isPrimitive (v :: vs)) eqn:Hp.
  - pose proof (array_first EmptyString " " EmptyString
                  (fun v => writeValue v None "  " (d + 1)%nat) v vs
                  eq_refl eq_refl eq_refl Hstart Hall sp rest s st Hsp Hs eq_refl)
      as [f0 H0].
    exists f0. intros f Hf. rewrite <- (H0 f Hf). do 2 f_equal.
    cbn [forallb] in Hp. apply andb_true_iff in Hp as [Hv Hvs].
    rewrite <- (compact_text vs rest d Hvs). cbn [writeCompact].
    rewrite (writeValue_scalar v) by assumption.
    cbn [String.append]. now rewrite !append_assoc.
  - pose proof (array_first (String nl (Repeat "  " (d + 1)))
                  (String nl (Repeat "  " (d + 1))) (String nl (Repeat "  " d))
                  (fun v => writeValue v None "  " (d + 1)%nat) v vs
                  (spaces_line _) (spaces_line _) (spaces_line _) Hstart Hall
                  sp rest s st Hsp Hs eq_refl)
      as [f0 H0].
    exists f0. intros f Hf. rewrite <- (H0 f Hf). do 2 f_equal.
    rewrite <- (multi_text vs rest d). cbn [element_lines].
    cbn [String.append]. now rewrite !append_assoc.
Qed.


(** ** Reading back what the serializer wrote: objects *)

Lemma object_tail_delimited W Wend E ks rest :
  delimited (Wend +:+ "}" +:+ rest) -> delimited (object_tail W Wend E ks rest).
Proof. destruct ks; [trivial | reflexivity]. Qed.

(** One member, from its key on. *)
Lemma member_read (k : string) (E : string) (r : option keyOrder)
    (tail : string) (sk : token_state) (stack : list token_state) (sp : string) :
  all_bytes isSpace sp = true ->
  sk = tokenObjectStart \/ sk = tokenObjectKey ->
  key_roundtrips k = true -> reads r E -> delimited tail ->
  Token (mkDecoder (sp +:+ appendString k +:+ ": " +:+ E +:+ tail) false sk stack)
  = (TokOk (TString k), mkDecoder (": " +:+ E +:+ tail) false tokenObjectColon stack)
  /\ exists f0, forall f, (f0 <= f)%nat ->
       decodeValueOrder f (mkDecoder (": " +:+ E +:+ tail) false tokenObjectColon stack)
       = Returns (r, false, mkDecoder tail false tokenObjectComma stack).
Proof.
  intros Hsp Hsk Hk Hr Hd. split; [now apply Token_key_text|].
  destruct (Hr " " tail tokenObjectValue stack eq_refl eq_refl Hd) as [f0 H0].
  exists f0. intros f Hf.
  change (": " +:+ ?x) with (EmptyString +:+ String ":" (" " +:+ x)).
  rewrite (decodeValueOrder_Token_eq f _ _ (Token_colon EmptyString _ _ eq_refl)).
  now rewrite H0.
Qed.

Lemma grow_order_cons F acc k ks :
  grow_order F acc (k :: ks) = grow_order F (grow_step F acc k) ks.
Proof. reflexivity. Qed.

(** The loop of [decodeObjectOrder] over the rest of an object. *)
Lemma object_loop (W Wend : string) (E : string -> string)
    (F : string -> option keyOrder) (rest : string) (ks : list string)
    (s0 : token_state) (st : list token_state) :
  all_bytes isSpace W = true -> all_bytes isSpace Wend = true ->
  delimited (Wend +:+ "}" +:+ rest) ->
  Forall (fun k => key_roundtrips k = true /\ reads (F k) (E k)) ks ->
  forall acc, exists f0, forall f, (f0 <= f)%nat ->
    decodeObjectOrder f acc
      (mkDecoder (object_tail W Wend E ks rest) false tokenObjectComma (s0 :: st))
    = Returns (Some (grow_order F acc ks), false,
               mkDecoder rest false (tokenValueEnd s0) st).
Proof.
  intros HW HWend Hd Hks. induction Hks as [|k ks [Hk Hr] _ IH]; intros acc.
  - exists 1%nat. intros [|f] Hf; [lia|]. cbn [decodeObjectOrder object_tail].
    change (Wend +:+ "}" +:+ rest) with (Wend +:+ String "}" rest).
    rewrite More_at by (assumption || reflexivity).
    change (negb (Ascii.eqb "}" "]") && negb (Ascii.eqb "}" "}")) with false.
    cbv iota. change (String "}" rest) with (EmptyString +:+ String "}" rest).
    rewrite Token_close_brace by (reflexivity || auto). reflexivity.
  - destruct (member_read k (E k) (F k) (object_tail W Wend E ks rest)
                tokenObjectKey (s0 :: st) W HW (or_intror eq_refl) Hk Hr
                (object_tail_delimited _ _ _ _ _ Hd)) as [Htok [f1 H1]].
    destruct (IH (grow_step F acc k)) as [f2 H2].
    exists (S (Nat.max f1 f2)). intros [|f] Hf; [lia|].
    cbn [decodeObjectOrder object_tail].
    change ("," +:+ ?x) with (EmptyString +:+ String "," x).
    rewrite More_at by reflexivity.
    change (negb (Ascii.eqb "," "]") && negb (Ascii.eqb "," "}")) with true.
    cbv iota. change (String "," ?x) with (EmptyString +:+ String "," x).
    rewrite (Token_comma_object EmptyString _ _ eq_refl), Htok.
    rewrite H1 by lia. rewrite grow_order_cons, <- (H2 f) by lia.
    unfold grow_step. cbn [keys children]. now destruct (F k).
Qed.

(** An object that starts with the member [k], from its opening brace
    on. *)
Lemma object_first (W Wend : string) (E : string -> string)
    (F : string -> option keyOrder) (k : string) (ks : list string) :
  all_bytes isSpace W = true -> all_bytes isSpace Wend = true ->
  Forall (fun k => key_roundtrips k = true /\ reads (F k) (E k)) (k :: ks) ->
  forall sp rest s st,
    all_bytes isSpace sp = true -> tokenValueAllowed s = true ->
    delimited (Wend +:+ "}" +:+ rest) ->
    exists f0, forall f, (f0 <= f)%nat ->
      decodeValueOrder f
        (mkDecoder (sp +:+ "{" +:+ W +:+ appendString k +:+ ": " +:+ E k
                    +:+ object_tail W Wend E ks rest) false s st)
      = Returns (Some (grow_order F (KeyOrder [] ∅) (k :: ks)), false,
                 after_value rest s st).
Proof.
  intros HW HWend Hall sp rest s st Hsp Hs Hd.
  apply Forall_cons in Hall as [[Hk Hr] Hks].
  destruct (member_read k (E k) (F k) (object_tail W Wend E ks rest)
              tokenObjectStart (s :: st) EmptyString eq_refl (or_introl eq_refl) Hk Hr
              (object_tail_delimited _ _ _ _ _ Hd)) as [Htok [f1 H1]].
  destruct (object_loop W Wend E F rest ks s st HW HWend Hd Hks
              (grow_step F (KeyOrder [] ∅) k)) as [f2 H2].
  exists (S (S (Nat.max f1 f2))). intros [|[|f]] Hf; try lia.
  cbn [decodeValueOrder].
  change ("{" +:+ ?x) with (String "{" x).
  rewrite Token_open_brace by assumption.
  change (Ascii.eqb "{" "{") with true. cbv iota. cbn [decodeObjectOrder].
  change (W +:+ appendString k +:+ ?x)
    with (W +:+ String quote ((appendString_loop (String.length k) k
                               +:+ String quote EmptyString) +:+ x)).
  rewrite More_at by (assumption || reflexivity).
  change (negb (Ascii.eqb quote "]") && negb (Ascii.eqb quote "}")) with true.
  cbv iota.
  change (String quote ((appendString_loop (String.length k) k +:+ String quote EmptyString)
                        +:+ ?x))
    with (EmptyString +:+ appendString k +:+ x).
  rewrite Htok, H1 by lia. unfold after_value.
  rewrite grow_order_cons, <- (H2 f) by lia.
  unfold grow_step. cbn [keys children]. now destruct (F k).
Qed.


(** ** Reading back what the serializer wrote: any value *)

(** The keys the serializer emits are the keys of the map. *)
Lemma orderedKeysForMap_elem {A} (m : gmap string A) (o : option keyOrder) (k : string) :
  k ∈ orderedKeysForMap m o <-> is_Some (m !! k).
Proof.
  destruct o as [o|].
  - rewrite orderedKeysForMap_some, elem_of_app. unfold kept_keys.
    rewrite sort_Strings_elem, !filter_elem, range_keys_spec, !bool_decide_eq_true.
    destruct (decide (k ∈ keys o)); tauto.
  - unfold orderedKeysForMap. now rewrite sort_Strings_elem, range_keys_spec.
Qed.

Lemma orderedKeysForMap_empty {A} (m : gmap string A) (o : option keyOrder) :
  size m = 0%nat -> orderedKeysForMap m o = [].
Proof.
  intros Hm. apply map_size_empty_iff in Hm. subst m.
  destruct (orderedKeysForMap ∅ o) as [|k ks] eqn:E; [reflexivity|].
  assert (H : k ∈ orderedKeysForMap (∅ : gmap string A) o) by (rewrite E; left).
  apply orderedKeysForMap_elem in H as [x H]. now rewrite lookup_empty in H.
Qed.

Lemma orderedKeysForMap_nonempty {A} (m : gmap string A) (o : option keyOrder) :
  size m <> 0%nat -> orderedKeysForMap m o <> [].
Proof.
  intros Hm E. apply Hm, range_keys_nil.
  destruct (range_keys m) as [|k ks] eqn:Er; [reflexivity|].
  assert (H : k ∈ range_keys m) by (rewrite Er; left).
  apply range_keys_spec, (orderedKeysForMap_elem m o) in H.
  rewrite E in H. inversion H.
Qed.

Lemma member_text (m : gmap string value) (o : option keyOrder) (d : nat)
    (ks : list string) (rest : string) :
  line_end ks +:+ member_lines m o "  " d ks +:+ Repeat "  " d +:+ "}" +:+ rest
  = object_tail (String nl (Repeat "  " (d + 1))) (String nl (Repeat "  " d))
      (fun k => writeValue (member m k) (child_order o k) "  " (d + 1)%nat) ks rest.
Proof.
  induction ks as [|k ks IH]; [reflexivity|].
  cbn [member_lines object_tail]. rewrite <- IH.
  unfold line_end at 1. unfold member. rewrite !append_assoc.
  cbn [is_nil String.append]. now rewrite ?append_assoc.
Qed.

Lemma grow_order_spec (F : string -> option keyOrder) (ks : list string) (acc : keyOrder) :
  grow_order F acc ks
  = KeyOrder (keys acc ++ ks)%list
      (foldl (fun ch k => match F k with
                          | Some c => <[k := c]> ch
                          | None => ch
                          end) (children acc) ks).
Proof.
  revert acc. induction ks as [|k ks IH]; intros acc.
  - cbn [grow_order foldl]. rewrite app_nil_r. now destruct acc.
  - rewrite grow_order_cons, IH. cbn [foldl]. unfold grow_step.
    destruct (F k); cbn [keys children]; now rewrite <- app_assoc.
Qed.

Lemma build_children_ext (F G : string -> option keyOrder) (ks : list string) :
  (forall k, F k = G k) -> build_children F ks = build_children G ks.
Proof.
  intros H. unfold build_children. generalize (∅ : gmap string keyOrder).
  induction ks as [|k ks IH]; intros ch; [reflexivity|].
  cbn [foldl]. rewrite H. apply IH.
Qed.

(** The order of an object's text, member by member. *)
Lemma written_order_object (m : gmap string value) (o : option keyOrder) :
  written_order (VObject m) o
  = Some (KeyOrder (orderedKeysForMap m o)
            (build_children (fun k => written_order (member m k) (child_order o k))
               (orderedKeysForMap m o))).
Proof.
  cbn [written_order]. do 2 f_equal. apply build_children_ext. intros k.
  rewrite lookup_fmap. unfold member. now destruct (m !! k).
Qed.

Lemma keys_roundtrip_object (m : gmap string value) :
  keys_roundtrip (VObject m) = true
  <-> (forall k, is_Some (m !! k) -> key_roundtrips k = true)
      /\ (forall k v, m !! k = Some v -> keys_roundtrip v = true).
Proof.
  cbn [keys_roundtrip]. rewrite andb_true_iff, forallb_forall, all_true_spec.
  setoid_rewrite <- list_elem_of_In. setoid_rewrite range_keys_spec.
  apply and_iff_compat_l. split.
  - intros H k v Hk. apply (H k). now rewrite lookup_fmap, Hk.
  - intros H k b. rewrite lookup_fmap.
    destruct (m !! k) as [v|] eqn:E; [|discriminate]. intros [= <-]. eauto.
Qed.

(** An object is read back when its members are. *)
Lemma parses_object (m : gmap string value) (o : option keyOrder) (d : nat) :
  (forall k, is_Some (m !! k) -> key_roundtrips k = true) ->
  (forall k v o', m !! k = Some v ->
     parses v o' (writeValue v o' "  " (d + 1)%nat)) ->
  parses (VObject m) o (writeValue (VObject m) o "  " d).
Proof.
  intros Hkeys Hall sp rest s st Hsp Hs Hd.
  rewrite written_order_object, writeValue_object.
  destruct (decide (size m = 0%nat)) as [Hm|Hm].
  { rewrite orderedKeysForMap_empty by assumption.
    exists 2%nat. intros [|[|f]] Hf; try lia.
    cbn [decodeValueOrder String.append]. rewrite Token_open_brace by assumption.
    change (Ascii.eqb "{" "{") with true.
    cbv iota. cbn [decodeObjectOrder].
    change (String "}" rest) with (EmptyString +:+ String "}" rest).
    rewrite More_at by reflexivity.
    change (negb (Ascii.eqb "}" "]") && negb (Ascii.eqb "}" "}")) with false.
    cbv iota. change (String "}" rest) with (EmptyString +:+ String "}" rest).
    rewrite Token_close_brace by (reflexivity || auto). reflexivity. }
  pose proof (orderedKeysForMap_nonempty m o Hm) as Hne.
  assert (Hks : Forall (fun k => key_roundtrips k = true
                /\ reads (written_order (member m k) (child_order o k))
                         (writeValue (member m k) (child_order o k) "  " (d + 1)%nat))
              (orderedKeysForMap m o)).
  { apply Forall_forall. intros k Hk. apply orderedKeysForMap_elem in Hk.
    split; [now apply Hkeys|]. destruct Hk as [v Hv]. unfold member. rewrite Hv.
    apply (Hall k v _ Hv). }
  destruct (orderedKeysForMap m o) as [|k ks]; [congruence|].
  pose proof (object_first (String nl (Repeat "  " (d + 1))) (String nl (Repeat "  " d))
                (fun k => writeValue (member m k) (child_order o k) "  " (d + 1)%nat)
                (fun k => written_order (member m k) (child_order o k)) k ks
                (spaces_line _) (spaces_line _) Hks sp rest s st Hsp Hs eq_refl)
    as [f0 H0].
  exists f0. intros f Hf. specialize (H0 f Hf).
  rewrite grow_order_spec in H0. cbn [keys children app] in H0.
  etransitivity; [|exact H0]. do 2 f_equal. f_equal.
  rewrite <- (member_text m o d ks rest). cbn [member_lines]. unfold member.
  rewrite !append_assoc. cbn [String.append]. now rewrite ?append_assoc.
Qed.

(** What the serializer writes for a well-formed value whose keys
    survive the round trip is read back as the order it was written
    in. *)
Lemma parses_value (v : value) :
  wf_value v = true -> keys_roundtrip v = true ->
  forall o d, parses v o (writeValue v o "  " d).
Proof.
  induction v as [ | b | lit | s | arr IH | m IH] using value_induction;
    intros Hw Hk o d; try (now apply parses_scalar).
  - apply parses_list; [assumption|].
    apply wf_value_list in Hw. apply keys_roundtrip_list in Hk.
    rewrite Forall_forall in IH, Hw, Hk |- *. intros v Hv.
    apply IH; auto.
  - pose proof (proj1 (wf_value_object m) Hw) as Hw'.
    destruct (proj1 (keys_roundtrip_object m) Hk) as [Hk1 Hk2].
    apply parses_object; [assumption|].
    intros k v o' Hv. apply (IH k v Hv); eauto.
Qed.

(** ** Rendering under the order that was read back *)

Lemma build_children_lookup (F : string -> option keyOrder) (ks : list string) (k : string) :
  k ∈ ks -> build_children F ks !! k = F k.
Proof.
  unfold build_children.
  assert (H : forall ch : gmap string keyOrder,
            foldl (fun ch k => match F k with
                               | Some c => <[k := c]> ch
                               | None => ch
                               end) ch ks !! k
            = match F k with
              | Some c => if decide (k ∈ ks) then Some c else ch !! k
              | None => ch !! k
              end).
  { induction ks as [|k' ks IH]; intros ch; cbn [foldl].
    - destruct (F k); [|reflexivity]. destruct (decide (k ∈ [])) as [H|]; [inversion H|].
      reflexivity.
    - rewrite IH. destruct (F k) as [c|] eqn:Ek.
      + destruct (decide (k ∈ ks)) as [Hin|Hin].
        * rewrite decide_True by now right. reflexivity.
        * destruct (decide (k = k')) as [<-|Hne].
          -- rewrite decide_True by left. rewrite Ek. apply lookup_insert_eq.
          -- rewrite decide_False by (intros [?|?]%elem_of_cons; tauto).
             destruct (F k'); [|reflexivity]. now apply lookup_insert_ne.
      + destruct (decide (k = k')) as [<-|Hne]; [now rewrite Ek|].
        destruct (F k'); [|reflexivity]. now apply lookup_insert_ne. }
  intros Hk. rewrite H. destruct (F k); [|apply lookup_empty].
  now rewrite decide_True.
Qed.

Lemma filter_all {A} (p : A -> bool) (l : list A) :
  (forall x, x ∈ l -> p x = true) -> List.filter p l = l.
Proof.
  induction l as [|a l IH]; intros H; [reflexivity|]. cbn [List.filter].
  rewrite (H a) by left. f_equal. apply IH. intros x Hx. apply H. now right.
Qed.

Lemma filter_none {A} (p : A -> bool) (l : list A) :
  (forall x, x ∈ l -> p x = false) -> List.filter p l = [].
Proof.
  induction l as [|a l IH]; intros H; [reflexivity|]. cbn [List.filter].
  rewrite (H a) by left. apply IH. intros x Hx. apply H. now right.
Qed.

(** Under an order that lists exactly the keys of the map, the keys
    come out as listed. *)
Lemma orderedKeysForMap_fixed {A} (m : gmap string A) (o : option keyOrder)
    (ch : gmap string keyOrder) :
  orderedKeysForMap m (Some (KeyOrder (orderedKeysForMap m o) ch))
  = orderedKeysForMap m o.
Proof.
  rewrite orderedKeysForMap_some. unfold kept_keys. cbn [keys].
  rewrite filter_all, filter_none.
  - change (sort_Strings []) with (@nil string). apply app_nil_r.
  - intros k Hk. apply bool_decide_eq_false. intros Hn. apply Hn.
    apply orderedKeysForMap_elem. now apply range_keys_spec.
  - intros k Hk. apply bool_decide_eq_true. now apply orderedKeysForMap_elem in Hk.
Qed.

(** Rendering a value under the order of its own text gives that text
    again. *)
Lemma writeValue_written_order (v : value) :
  forall o indent d,
    writeValue v (written_order v o) indent d = writeValue v o indent d.
Proof.
  induction v as [ | b | lit | s | arr IH | m IH] using value_induction;
    intros o indent d; try reflexivity.
  rewrite written_order_object, !writeValue_object, orderedKeysForMap_fixed.
  destruct (decide (size m = 0%nat)); [reflexivity|]. do 2 f_equal.
  set (ks := orderedKeysForMap m o).
  set (F := fun k => written_order (member m k) (child_order o k)).
  assert (H : forall l, (forall k, k ∈ l -> k ∈ ks) ->
            member_lines m (Some (KeyOrder ks (build_children F ks))) indent d l
            = member_lines m o indent d l).
  { induction l as [|k l IHl]; intros Hl; [reflexivity|].
    cbn [member_lines]. rewrite IHl by (intros; apply Hl; now right).
    do 3 f_equal. f_equal.
    unfold child_order at 1. cbn [mbind option_bind children].
    rewrite build_children_lookup by (apply Hl; left). unfold F, member.
    destruct (m !! k) as [v|] eqn:Ev; [|reflexivity]. apply (IH k v Ev). }
  now apply H.
Qed.


(** ** C2: rendering again under the order of the own output *)

Example marshalOrdered_roundtrip_test :
  let v := obj [("name", VString "test");
                ("features", obj [("b", obj []); ("a", VList [VNumber "3000"])]);
                ("image", VString "ubuntu")] in
  let prior := Some (KeyOrder ["name"; "image"] ∅) in
  extractKeyOrder 20 (marshalOrdered v prior)
  = Returns (Some (KeyOrder ["name"; "image"; "features"]
       {[ "features" := KeyOrder ["a"; "b"] {[ "b" := KeyOrder [] ∅ ]} ]})).
Proof. vm_compute. reflexivity. Qed.

(** C2, as stated, fails: a key that is not valid UTF-8 is written
    with the replacement character in its place, so the key read back
    from the output is another string, one the map does not hold; under
    the extracted order the key comes last instead of first. *)
Lemma marshalOrdered_invalid_utf8_key :
  let k := String "a" (String (chr 255) EmptyString) in
  let v := obj [(k, VNumber "1"); ("b", VNumber "2")] in
  let out := marshalOrdered v None in
  out = "{" +:+ String nl (dq "  'a\ufffd': 1,") +:+ String nl (dq "  'b': 2")
        +:+ String nl "}" +:+ String nl EmptyString
  /\ exists order,
       extractKeyOrder 10 out = Returns order
       /\ order = Some (KeyOrder
                         [String "a" (String (chr 239) (String (chr 191)
                                        (String (chr 189) EmptyString))); "b"] ∅)
       /\ marshalOrdered v order
          = "{" +:+ String nl (dq "  'b': 2,") +:+ String nl (dq "  'a\ufffd': 1")
            +:+ String nl "}" +:+ String nl EmptyString
       /\ marshalOrdered v order <> out.
Proof.
  split; [vm_compute; reflexivity|]. eexists.
  split; [vm_compute; reflexivity|]. split; [vm_compute; reflexivity|].
  split; [vm_compute; reflexivity|]. vm_compute. discriminate.
Qed.

(** A number [json.Marshal] refuses (a NaN, an infinity) leaves its
    member without a value; the order is read back up to that member
    only. *)
Example marshalOrdered_nan_member :
  let v := obj [("a", VNumber "1"); ("m", VNumber "2"); ("z", VNumber "")] in
  let prior := Some (KeyOrder ["z"; "m"; "a"] ∅) in
  exists order,
    extractKeyOrder 10 (marshalOrdered v prior) = Returns order
    /\ order = Some (KeyOrder ["z"] ∅)
    /\ marshalOrdered v order <> marshalOrdered v prior.
Proof.
  eexists. split; [vm_compute; reflexivity|]. split; [reflexivity|].
  vm_compute. discriminate.
Qed.

(** A value whose keys are valid UTF-8 has keys that survive the
    round trip. *)
Lemma keys_valid_roundtrip (v : value) :
  keys_valid v = true -> keys_roundtrip v = true.
Proof.
  induction v as [ | b | lit | s | arr IH | m IH] using value_induction;
    try reflexivity.
  - cbn [keys_valid keys_roundtrip]. rewrite !forallb_forall.
    rewrite Forall_forall in IH. setoid_rewrite <- list_elem_of_In. auto.
  - cbn [keys_valid]. rewrite andb_true_iff, forallb_forall, all_true_spec.
    intros [Hk Hm]. apply keys_roundtrip_object. split.
    + intros k Hin. apply key_roundtrips_valid, Hk.
      now apply list_elem_of_In, range_keys_spec.
    + intros k v Hv. apply (IH k v Hv), (Hm k). now rewrite lookup_fmap, Hv.
Qed.

(** The round trip, for keys that survive it. *)
Lemma marshalOrdered_roundtrip (v : value) (o : option keyOrder) :
  wf_value v = true -> keys_roundtrip v = true ->
  exists f0, forall f, (f0 <= f)%nat ->
    extractKeyOrder f (marshalOrdered v o) = Returns (written_order v o).
Proof.
  intros Hw Hk.
  destruct (parses_value v Hw Hk o 0%nat EmptyString (String nl EmptyString)
              tokenTopValue [] eq_refl eq_refl eq_refl) as [f0 H0].
  exists f0. intros f Hf.
  unfold extractKeyOrder, marshalOrdered, NewDecoder.
  change (writeValue v o "  " 0 +:+ String nl EmptyString)
    with (EmptyString +:+ writeValue v o "  " 0 +:+ String nl EmptyString).
  now rewrite (H0 f Hf).
Qed.

(** C2 (amended): for a value whose object keys are valid UTF-8 and
    whose numbers are texts [json.Marshal] prints (no NaN, no
    infinity), the order extracted from the serializer's own output is
    the order the output was written in, and rendering the value under
    it gives the same bytes again. *)
Theorem marshalOrdered_idempotent (v : value) (o : option keyOrder) :
  wf_value v = true -> keys_valid v = true ->
  exists f0, forall f, (f0 <= f)%nat ->
    exists order,
      extractKeyOrder f (marshalOrdered v o) = Returns order
      /\ order = written_order v o
      /\ marshalOrdered v order = marshalOrdered v o.
Proof.
  intros Hw Hk.
  destruct (marshalOrdered_roundtrip v o Hw (keys_valid_roundtrip v Hk)) as [f0 H0].
  exists f0. intros f Hf. exists (written_order v o).
  split; [exact (H0 f Hf)|]. split; [reflexivity|].
  unfold marshalOrdered. now rewrite writeValue_written_order.
Qed.

Lemma marshalOrdered_idempotent_witness :
  let v := obj [("name", VString "test");
                ("features", obj [("b", obj []); ("a", VList [VNumber "3000"])]);
                ("image", VString "ubuntu")] in
  let prior := Some (KeyOrder ["name"; "image"] ∅) in
  wf_value v = true /\ keys_valid v = true
  /\ exists f0, forall f, (f0 <= f)%nat ->
       exists order,
         extractKeyOrder f (marshalOrdered v prior) = Returns order
         /\ order = written_order v prior
         /\ marshalOrdered v order = marshalOrdered v prior.
Proof.
  cbv zeta. split; [vm_compute; reflexivity|]. split; [vm_compute; reflexivity|].
  apply marshalOrdered_idempotent; vm_compute; reflexivity.
Defined.


(** ** References: their parts, their collection, their version *)

Lemma Index_app (a b : string) (c : ascii) :
  occurs c a = false ->
  Index (a +:+ String c b) c = Z.of_nat (String.length a).
Proof.
  induction a as [|x a IH]; cbn [occurs String.append Index String.length].
  - now rewrite Ascii.eqb_refl.
  - intros [Hx Ha]%orb_false_iff. rewrite Hx, (IH Ha).
    destruct (Z.eqb_spec (Z.of_nat (String.length a)) (-1)); lia.
Qed.

Lemma LastIndex_app (a b : string) (c : ascii) :
  LastIndex (a +:+ String c b) c
  = if LastIndex b c =? -1 then Z.of_nat (String.length a)
    else Z.of_nat (String.length a) + 1 + LastIndex b c.
Proof.
  pose proof (LastIndex_ge b c) as Hb.
  induction a as [|x a IH]; cbn [String.append LastIndex String.length].
  - rewrite Ascii.eqb_refl. destruct (Z.eqb_spec (LastIndex b c) (-1)); simpl; lia.
  - rewrite IH.
    destruct (Z.eqb_spec (LastIndex b c) (-1));
      match goal with
      | |- context [?z =? -1] =>
          destruct (Z.eqb_spec z (-1)); lia
      end.
Qed.

Lemma slice_from_append_S (a b : string) (c : ascii) :
  slice_from (a +:+ String c b) (Z.of_nat (String.length a) + 1) = b.
Proof.
  rewrite slice_from_app by lia.
  change 1 with (0 + 1). rewrite slice_from_S by lia. apply slice_from_0.
Qed.

(** A text whose first slash or colon comes before any "://" does not
    start with the scheme. *)
Lemma no_scheme (a b : string) (c : ascii) :
  occurs ":" a = false -> occurs "/" a = false -> c = "/"%char ->
  HasPrefix (a +:+ String c b) "oci://" = false.
Proof.
  intros Hc Hs ->. unfold HasPrefix.
  destruct (String.prefix "oci://" (a +:+ String "/" b)) eqn:E; [|reflexivity].
  apply prefix_inv in E as [t E]. exfalso.
  destruct a as [|a0 [|a1 [|a2 [|a3 a]]]]; cbn [String.append] in E;
    try discriminate E.
  injection E as -> -> -> -> _. discriminate Hc.
Qed.

Lemma no_scheme_latest (a : string) :
  occurs ":" a = false -> occurs "/" a = false ->
  HasPrefix (a +:+ ":latest") "oci://" = false.
Proof.
  intros Hc Hs. unfold HasPrefix.
  destruct (String.prefix "oci://" (a +:+ ":latest")) eqn:E; [|reflexivity].
  apply prefix_inv in E as [t E]. exfalso.
  destruct a as [|a0 [|a1 [|a2 [|a3 a]]]]; cbn [String.append] in E;
    try discriminate E.
  injection E as -> -> -> -> _. discriminate Hc.
Qed.

Lemma TrimPrefix_none (s pre : string) :
  HasPrefix s pre = false -> TrimPrefix s pre = s.
Proof. unfold TrimPrefix. now intros ->. Qed.

(** What a successful [ParseOciRef] says about the reference. *)
Lemma ParseOciRef_inv (ociRef registry repository tag : string) :
  ParseOciRef ociRef = Ok (registry, repository, tag) ->
  occurs "/" registry = false /\ occurs ":" registry = false
  /\ occurs ":" repository = false
  /\ ((occurs ":" (TrimPrefix ociRef "oci://") = false /\ tag = "latest"
       /\ TrimPrefix ociRef "oci://" = registry +:+ "/" +:+ repository)
      \/ TrimPrefix ociRef "oci://"
         = (registry +:+ "/" +:+ repository) +:+ ":" +:+ tag).
Proof.
  unfold ParseOciRef, SplitN2. set (ref := TrimPrefix ociRef "oci://").
  assert (Hpath : forall fullPath t,
            occurs ":" fullPath = false ->
            (if Index fullPath "/" =? -1
             then Err ("invalid OCI reference: " +:+ ociRef)
             else Ok (slice_to fullPath (Index fullPath "/"),
                      slice_from fullPath (Index fullPath "/" + 1), t))
            = Ok (registry, repository, tag) ->
            occurs "/" registry = false /\ occurs ":" registry = false
            /\ occurs ":" repository = false /\ t = tag
            /\ fullPath = registry +:+ "/" +:+ repository).
  { intros fullPath t Hc.
    destruct (Z.eqb_spec (Index fullPath "/") (-1)) as [E|E]; [discriminate|].
    intros [= <- <- <-]. destruct (Index_cut fullPath "/" E) as [Hcut Hno].
    rewrite Hcut, !occurs_app in Hc. cbn [occurs] in Hc.
    apply orb_false_iff in Hc as [Hc1 Hc2]. repeat split; assumption. }
  destruct (Z.eqb_spec (Index ref ":") (-1)) as [E|E]; cbn [List.hd].
  - intros H. apply Index_none in E.
    destruct (Hpath ref "latest" E H) as (H1 & H2 & H3 & H4 & H5).
    repeat split; try assumption. left. repeat split; [assumption|now symmetry|assumption].
  - intros H. destruct (Index_cut ref ":" E) as [Hcut Hno].
    destruct (Hpath _ _ Hno H) as (H1 & H2 & H3 & H4 & H5).
    repeat split; try assumption. right.
    rewrite Hcut at 1. rewrite H5, H4. reflexivity.
Qed.

(** A reference put together from its parts is parsed back into them. *)
Lemma ParseOciRef_build (registry repository tag : string) :
  occurs "/" registry = false -> occurs ":" registry = false ->
  occurs ":" repository = false ->
  ParseOciRef ((registry +:+ "/" +:+ repository) +:+ ":" +:+ tag)
  = Ok (registry, repository, tag)
  /\ ParseOciRef (registry +:+ "/" +:+ repository) = Ok (registry, repository, "latest").
Proof.
  intros Hs Hc Hr.
  assert (Hpc : occurs ":" (registry +:+ "/" +:+ repository) = false).
  { rewrite occurs_app. cbn [String.append occurs]. now rewrite Hc, Hr. }
  assert (Hidx : Index (registry +:+ "/" +:+ repository) "/"
                 = Z.of_nat (String.length registry)) by now apply Index_app.
  assert (Hne : (Z.of_nat (String.length registry) =? -1) = false)
    by (apply Z.eqb_neq; lia).
  split.
  - unfold ParseOciRef, SplitN2.
    rewrite TrimPrefix_none
      by (rewrite append_assoc; cbn [String.append]; now apply no_scheme).
    change (":" +:+ tag) with (String ":" tag).
    rewrite (Index_app _ tag ":" Hpc).
    replace (Z.of_nat (String.length (registry +:+ "/" +:+ repository)) =? -1)
      with false by (symmetry; apply Z.eqb_neq; lia).
    cbn [List.hd]. rewrite slice_to_append, Hidx, Hne.
    rewrite slice_from_append_S.
    change ("/" +:+ repository) with (String "/" repository).
    now rewrite slice_to_append, slice_from_append_S.
  - unfold ParseOciRef, SplitN2.
    rewrite TrimPrefix_none by (cbn [String.append]; now apply no_scheme).
    apply Index_none in Hpc. rewrite Hpc.
    change (-1 =? -1) with true. cbn [List.hd].
    rewrite Hidx, Hne.
    change ("/" +:+ repository) with (String "/" repository).
    now rewrite slice_to_append, slice_from_append_S.
Qed.

(** X1: a reference that parses is its registry, a slash, its
    repository and, when it has a colon, a colon and its tag (the tag is
    "latest" otherwise); the registry holds no slash and no colon, the
    repository no colon.  The other way round, parts of that kind put
    together parse back into themselves. *)
Theorem ParseOciRef_roundtrip :
  (forall ociRef registry repository tag,
     ParseOciRef ociRef = Ok (registry, repository, tag) ->
     occurs "/" registry = false /\ occurs ":" registry = false
     /\ occurs ":" repository = false
     /\ ((occurs ":" (TrimPrefix ociRef "oci://") = false /\ tag = "latest"
          /\ TrimPrefix ociRef "oci://" = registry +:+ "/" +:+ repository)
         \/ TrimPrefix ociRef "oci://"
            = (registry +:+ "/" +:+ repository) +:+ ":" +:+ tag))
  /\ (forall registry repository tag,
        occurs "/" registry = false -> occurs ":" registry = false ->
        occurs ":" repository = false ->
        ParseOciRef ((registry +:+ "/" +:+ repository) +:+ ":" +:+ tag)
        = Ok (registry, repository, tag)
        /\ ParseOciRef (registry +:+ "/" +:+ repository)
           = Ok (registry, repository, "latest")).
Proof. split; [exact ParseOciRef_inv | exact ParseOciRef_build]. Qed.

Lemma LastIndex_app_none (a b : string) (c : ascii) :
  occurs c b = false ->
  LastIndex (a +:+ String c b) c = Z.of_nat (String.length a).
Proof.
  intros H. rewrite LastIndex_app. apply LastIndex_none in H. now rewrite H.
Qed.

(** The collection base of a reference that parses, from its parts. *)
Lemma extractCollectionBase_parts (ociRef registry repository tag : string) :
  ParseOciRef ociRef = Ok (registry, repository, tag) ->
  occurs ":" tag = false ->
  extractCollectionBase ociRef
  = if LastIndex repository "/" =? -1 then registry
    else registry +:+ "/" +:+ slice_to repository (LastIndex repository "/").
Proof.
  intros Hp Ht. destruct (ParseOciRef_inv _ _ _ _ Hp) as (Hs & Hc & Hr & Href).
  assert (Hpc : occurs ":" (registry +:+ "/" +:+ repository) = false).
  { rewrite occurs_app. cbn [String.append occurs]. now rewrite Hc, Hr. }
  unfold extractCollectionBase.
  assert (Hcut : (let ref := TrimPrefix ociRef "oci://" in
                  let idx := LastIndex ref ":" in
                  if negb (idx =? -1) then slice_to ref idx else ref)
                 = registry +:+ "/" +:+ repository).
  { cbv zeta. destruct Href as [(Hno & _ & Href)|Href]; rewrite Href.
    - apply LastIndex_none in Hpc. now rewrite Hpc.
    - change (":" +:+ tag) with (String ":" tag).
      rewrite LastIndex_app_none by assumption.
      replace (Z.of_nat (String.length (registry +:+ "/" +:+ repository)) =? -1)
        with false by (symmetry; apply Z.eqb_neq; lia).
      cbn [negb]. apply slice_to_append. }
  cbv zeta in Hcut |- *. rewrite Hcut.
  change ("/" +:+ repository) with (String "/" repository).
  rewrite LastIndex_app. pose proof (LastIndex_ge repository "/") as Hge.
  destruct (Z.eqb_spec (LastIndex repository "/") (-1)) as [E|E].
  - replace (Z.of_nat (String.length registry) =? -1) with false
      by (symmetry; apply Z.eqb_neq; lia).
    cbn [negb]. apply slice_to_append.
  - replace (Z.of_nat (String.length registry) + 1 + LastIndex repository "/" =? -1)
      with false by (symmetry; apply Z.eqb_neq; lia).
    cbn [negb].
    replace (Z.of_nat (String.length registry) + 1 + LastIndex repository "/")
      with (Z.of_nat (String.length registry) + (LastIndex repository "/" + 1)) by lia.
    rewrite slice_to_app by lia. now rewrite slice_to_S by lia.
Qed.

(** X2: for a reference that parses and whose tag holds no colon, the
    reference [FetchCollectionMetadata] builds for the collection (the
    collection base with the tag "latest") parses to the same registry
    and to the repository without its last segment; when the repository
    is a single segment the base is the bare registry and that
    reference does not parse. *)
Theorem collection_reference_of_item (ociRef registry repository tag : string) :
  ParseOciRef ociRef = Ok (registry, repository, tag) ->
  occurs ":" tag = false ->
  let collectionBase := extractCollectionBase ociRef in
  (LastIndex repository "/" = -1 ->
     collectionBase = registry
     /\ ParseOciRef (collectionBase +:+ ":latest")
        = Err ("invalid OCI reference: " +:+ registry +:+ ":latest"))
  /\ (LastIndex repository "/" <> -1 ->
     collectionBase
     = registry +:+ "/" +:+ slice_to repository (LastIndex repository "/")
     /\ ParseOciRef (collectionBase +:+ ":latest")
        = Ok (registry, slice_to repository (LastIndex repository "/"), "latest")).
Proof.
  intros Hp Ht. cbv zeta. rewrite (extractCollectionBase_parts _ _ _ _ Hp Ht).
  destruct (ParseOciRef_inv _ _ _ _ Hp) as (Hs & Hc & Hr & _).
  destruct (Z.eqb_spec (LastIndex repository "/") (-1)) as [E|E];
    (split; [intros E'|intros E']; try contradiction); split; try reflexivity.
  - unfold ParseOciRef, SplitN2.
    rewrite TrimPrefix_none by now apply no_scheme_latest.
    change (":latest") with (String ":" "latest").
    rewrite (Index_app registry "latest" ":" Hc).
    replace (Z.of_nat (String.length registry) =? -1) with false
      by (symmetry; apply Z.eqb_neq; lia).
    cbn [List.hd]. rewrite slice_to_append.
    apply Index_none in Hs. now rewrite Hs.
  - destruct (LastIndex_cut repository "/" E) as (suffix & Hcut & Hsuf).
    assert (Hr' : occurs ":" (slice_to repository (LastIndex repository "/")) = false).
    { rewrite Hcut, occurs_app in Hr. now apply orb_false_iff in Hr as [? _]. }
    apply (ParseOciRef_build registry _ "latest" Hs Hc Hr').
Qed.

Lemma collection_reference_of_item_witness :
  let collectionBase := extractCollectionBase "ghcr.io/devcontainers/templates/python:1" in
  (LastIndex "devcontainers/templates/python" "/" = -1 ->
     collectionBase = "ghcr.io"
     /\ ParseOciRef (collectionBase +:+ ":latest")
        = Err ("invalid OCI reference: " +:+ "ghcr.io" +:+ ":latest"))
  /\ (LastIndex "devcontainers/templates/python" "/" <> -1 ->
     collectionBase
     = "ghcr.io" +:+ "/"
       +:+ slice_to "devcontainers/templates/python"
             (LastIndex "devcontainers/templates/python" "/")
     /\ ParseOciRef (collectionBase +:+ ":latest")
        = Ok ("ghcr.io",
              slice_to "devcontainers/templates/python"
                (LastIndex "devcontainers/templates/python" "/"), "latest")).
Proof.
  apply (collection_reference_of_item "ghcr.io/devcontainers/templates/python:1"
           "ghcr.io" "devcontainers/templates/python" "1"); reflexivity.
Defined.

Example collection_reference_single_segment :
  extractCollectionBase "ghcr.io/foo:1" = "ghcr.io"
  /\ is_err (ParseOciRef "ghcr.io:latest") = true.
Proof. split; reflexivity. Qed.

(** ** Versions *)

Lemma Contains_occurs (s : string) (c : ascii) : Contains s c = occurs c s.
Proof.
  unfold Contains. pose proof (Index_ge s c) as Hge.
  pose proof (Index_none s c) as Hn.
  destruct (occurs c s).
  - destruct (Z.leb_spec 0 (Index s c)); [reflexivity|].
    assert (H0 : Index s c = -1) by lia. apply Hn in H0. discriminate H0.
  - rewrite (proj2 Hn eq_refl). reflexivity.
Qed.

(** X3: a catalog reference and the versioned reference the pickers
    build from it have the same text before the version, provided the
    version holds no colon: [stripVersion] finds an existing feature
    again under the key it was written with.  A reference without a tag
    that parses is given its version as the tag. *)
Theorem stripVersion_FormatFeatureOciRef (entry : catalog.CatalogEntry) :
  occurs ":" (catalog.Version entry) = false ->
  stripVersion (FormatFeatureOciRef entry) = stripVersion (catalog.OciRef entry)
  /\ stripVersion (FormatOciRefWithVersion entry) = stripVersion (catalog.OciRef entry)
  /\ (forall registry repository tag,
        ParseOciRef (catalog.OciRef entry) = Ok (registry, repository, tag) ->
        ParseOciRef (FormatFeatureOciRef entry)
        = Ok (registry, repository,
              if Contains (catalog.OciRef entry) ":" then tag
              else if String.eqb (catalog.Version entry) EmptyString then "latest"
              else catalog.Version entry)).
Proof.
  intros Hv.
  assert (Hstrip : stripVersion (FormatFeatureOciRef entry)
                   = stripVersion (catalog.OciRef entry)).
  { unfold FormatFeatureOciRef.
    destruct (String.eqb_spec (catalog.Version entry) EmptyString) as [E|E];
      [reflexivity|]. cbn [negb andb]. rewrite Contains_occurs.
    destruct (occurs ":" (catalog.OciRef entry)) eqn:Ho; [reflexivity|].
    cbn [negb]. unfold stripVersion.
    change (":" +:+ catalog.Version entry) with (String ":" (catalog.Version entry)).
    rewrite LastIndex_app_none by assumption.
    replace (Z.of_nat (String.length (catalog.OciRef entry)) =? -1) with false
      by (symmetry; apply Z.eqb_neq; lia).
    cbn [negb]. rewrite slice_to_append.
    apply LastIndex_none in Ho. now rewrite Ho. }
  split; [exact Hstrip|]. split; [exact Hstrip|].
  intros registry repository tag Hp. unfold FormatFeatureOciRef.
  rewrite Contains_occurs.
  destruct (ParseOciRef_inv _ _ _ _ Hp) as (Hs & Hc & Hr & Href).
  destruct (occurs ":" (catalog.OciRef entry)) eqn:Ho;
    [now rewrite andb_false_r|].
  destruct (String.eqb_spec (catalog.Version entry) EmptyString) as [E|E].
  { cbn [negb andb]. rewrite Hp. destruct Href as [(_ & Htag & _)|Href];
      [now rewrite Htag|].
    exfalso. destruct (TrimPrefix_spec (catalog.OciRef entry) "oci://")
      as [(t & H1 & H2)|[H1 H2]].
    - rewrite H1 in Ho. discriminate Ho.
    - rewrite H2 in Href. rewrite Href, occurs_app in Ho.
      cbn [String.append occurs] in Ho. now rewrite orb_true_r in Ho. }
  cbn [negb andb].
  destruct (TrimPrefix_spec (catalog.OciRef entry) "oci://")
    as [(t & H1 & H2)|[H1 H2]]; [rewrite H1 in Ho; discriminate Ho|].
  rewrite H2 in Href. destruct Href as [(_ & _ & Href)|Href].
  - rewrite Href. now apply ParseOciRef_build.
  - rewrite Href, occurs_app in Ho. cbn [String.append occurs] in Ho.
    now rewrite orb_true_r in Ho.
Qed.

Lemma stripVersion_FormatFeatureOciRef_witness :
  let entry := catalog.mkCatalogEntry "Java" "Dev Container Spec Maintainers"
                 "ghcr.io/devcontainers/features/java" "1" EmptyString in
  FormatFeatureOciRef entry = "ghcr.io/devcontainers/features/java:1"
  /\ stripVersion (FormatFeatureOciRef entry) = stripVersion (catalog.OciRef entry)
  /\ stripVersion (FormatOciRefWithVersion entry) = stripVersion (catalog.OciRef entry)
  /\ (forall registry repository tag,
        ParseOciRef (catalog.OciRef entry) = Ok (registry, repository, tag) ->
        ParseOciRef (FormatFeatureOciRef entry)
        = Ok (registry, repository,
              if Contains (catalog.OciRef entry) ":" then tag
              else if String.eqb (catalog.Version entry) EmptyString then "latest"
              else catalog.Version entry)).
Proof.
  cbv zeta. split; [reflexivity|].
  apply (stripVersion_FormatFeatureOciRef
           (catalog.mkCatalogEntry "Java" "Dev Container Spec Maintainers"
              "ghcr.io/devcontainers/features/java" "1" EmptyString)).
  reflexivity.
Defined.


(** ** The registry client *)

(** X5: the key of the token cache, registry, slash, repository, tells
    apart the registries and repositories that [ParseOciRef] gives: two
    parsed references with the same key have the same registry and the
    same repository.  (For arbitrary texts the key can collide.) *)
Theorem token_key_injective (ref1 ref2 reg1 repo1 tag1 reg2 repo2 tag2 : string) :
  ParseOciRef ref1 = Ok (reg1, repo1, tag1) ->
  ParseOciRef ref2 = Ok (reg2, repo2, tag2) ->
  reg1 +:+ "/" +:+ repo1 = reg2 +:+ "/" +:+ repo2 ->
  reg1 = reg2 /\ repo1 = repo2.
Proof.
  intros H1 H2 Hk.
  destruct (ParseOciRef_inv _ _ _ _ H1) as (Hs1 & _).
  destruct (ParseOciRef_inv _ _ _ _ H2) as (Hs2 & _).
  change ("/" +:+ ?x) with (String "/" x) in Hk.
  assert (Hlen : Z.of_nat (String.length reg1) = Z.of_nat (String.length reg2)).
  { rewrite <- (Index_app reg1 repo1 "/" Hs1), <- (Index_app reg2 repo2 "/" Hs2).
    now rewrite Hk. }
  split.
  - rewrite <- (slice_to_append reg1 (String "/" repo1)), Hk, Hlen.
    apply slice_to_append.
  - rewrite <- (slice_from_append_S reg1 repo1 "/"), Hk, Hlen.
    apply slice_from_append_S.
Qed.

Lemma token_key_injective_witness :
  ParseOciRef "ghcr.io/devcontainers/features/go:1"
  = Ok ("ghcr.io", "devcontainers/features/go", "1")
  /\ ParseOciRef "oci://ghcr.io/devcontainers/features/go"
     = Ok ("ghcr.io", "devcontainers/features/go", "latest")
  /\ "ghcr.io" = "ghcr.io"
  /\ "devcontainers/features/go" = "devcontainers/features/go".
Proof.
  split; [reflexivity|]. split; [reflexivity|].
  apply (token_key_injective "ghcr.io/devcontainers/features/go:1"
           "oci://ghcr.io/devcontainers/features/go"
           "ghcr.io" "devcontainers/features/go" "1"
           "ghcr.io" "devcontainers/features/go" "latest"); reflexivity.
Defined.

Example token_key_collision :
  "a/b" +:+ "/" +:+ "c" = "a" +:+ "/" +:+ "b/c".
Proof. reflexivity. Qed.

Section RegistryFacts.
Context {world : Type}.
Variable http_Get : string -> world -> result Response * world.
Variable http_Do : Request -> world -> result Response * world.
Variable http_NewRequest : string -> string -> result Request.
Variable decodeToken : string * option error -> result string.
Variable decodeManifest : string * option error -> result (list ociLayer).

#[local] Abbreviation GetToken' := (GetToken http_Get decodeToken).

(** X4: the token cache.  A token in the cache is returned as it is,
    with no request; a token that was fetched is in the cache
    afterwards, so that the next call for the same registry and
    repository returns it with no request; a failure stores nothing;
    the tokens of other repositories are not touched. *)
Theorem GetToken_cache (c : Client) (registry repository : string) (w : world) :
  let key := registry +:+ "/" +:+ repository in
  let r := GetToken' c registry repository w in
  (forall tok, tokens c !! key = Some tok -> r = (Ok tok, c, w))
  /\ (forall tok, r.1.1 = Ok tok ->
        tokens r.1.2 !! key = Some tok
        /\ forall w2, GetToken' r.1.2 registry repository w2 = (Ok tok, r.1.2, w2))
  /\ (is_err r.1.1 = true -> r.1.2 = c)
  /\ (forall k, k <> key -> tokens r.1.2 !! k = tokens c !! k).
Proof.
  cbv zeta. unfold GetToken.
  destruct (tokens c !! (registry +:+ "/" +:+ repository)) as [tok0|] eqn:Hc.
  { cbn [fst snd]. split; [now intros tok [= ->]|].
    split; [|split; [reflexivity | reflexivity]].
    intros tok [= <-]. split; [assumption|]. intros w2. now rewrite Hc. }
  split; [discriminate|].
  destruct (http_Get _ w) as [[resp|e] w1]; cbn [fst snd];
    [|split; [discriminate | split; reflexivity]].
  destruct (negb (StatusCode resp =? StatusOK)); cbn [fst snd];
    [split; [discriminate | split; reflexivity]|].
  destruct (decodeToken (Body resp)) as [tok|e]; cbn [fst snd tokens];
    [|split; [discriminate | split; reflexivity]].
  split; [|split; [discriminate|]].
  - intros ? [= <-]. split; [apply lookup_insert_eq|].
    intros w2. now rewrite lookup_insert_eq.
  - intros k Hk. now apply lookup_insert_ne.
Qed.
End RegistryFacts.

Section FetchFacts.
Context {world : Type}.
Variable http_Get : string -> world -> result Response * world.
Variable http_Do : Request -> world -> result Response * world.
Variable http_NewRequest : string -> string -> result Request.
Variable decodeToken : string * option error -> result string.
Variable decodeManifest : string * option error -> result (list ociLayer).
Context {reader : Type}.
Variable gzip_NewReader : string -> result reader.
Variable bytes_NewReader : string -> reader.
Variable tar_NewReader : reader -> tar_stream.
Context {TemplateDefinition FeatureDefinition CollectionMetadata : Type}.
Variable unmarshalTemplate : string -> result TemplateDefinition.
Variable unmarshalFeature : string -> result FeatureDefinition.
Variable unmarshalCollection : string -> result CollectionMetadata.

#[local] Abbreviation itemLayers' :=
  (itemLayers http_Get http_Do http_NewRequest decodeToken
     gzip_NewReader bytes_NewReader tar_NewReader unmarshalTemplate unmarshalFeature).
#[local] Abbreviation FetchItemMetadata' :=
  (FetchItemMetadata http_Get http_Do http_NewRequest decodeToken decodeManifest
     gzip_NewReader bytes_NewReader tar_NewReader unmarshalTemplate unmarshalFeature).
#[local] Abbreviation FetchCollectionMetadata' :=
  (FetchCollectionMetadata http_Get http_Do http_NewRequest decodeToken decodeManifest
     gzip_NewReader bytes_NewReader tar_NewReader unmarshalCollection).
#[local] Abbreviation collectionLayers' :=
  (collectionLayers http_Get http_Do http_NewRequest decodeToken
     gzip_NewReader bytes_NewReader tar_NewReader unmarshalCollection).

Lemma extractItemJSON_exactly_one (blob : string) :
  exactly_one (extractItemJSON gzip_NewReader bytes_NewReader tar_NewReader
                 unmarshalTemplate unmarshalFeature blob).
Proof.
  unfold extractItemJSON.
  destruct (extractJSONFromTgz _ _ _ unmarshalTemplate _ _); [exact I|].
  destruct (extractJSONFromTgz _ _ _ unmarshalFeature _ _); exact I.
Qed.

Lemma itemLayers_exactly_one ociRef registry repository layers c w :
  exactly_one (itemLayers' ociRef registry repository layers c w).1.
Proof.
  revert c w. induction layers as [|layer rest IH]; intros c w; [exact I|].
  cbn [itemLayers].
  destruct (GetBlob _ _ _ _ _ _ _ _ _) as [[[blob|e] c1] w1]; [|apply IH].
  pose proof (extractItemJSON_exactly_one blob) as H.
  destruct (extractItemJSON _ _ _ _ _ blob) as [[[t|] [f|]] [e|]];
    try contradiction; try apply IH; exact I.
Qed.

(** X6: [FetchItemMetadata] returns exactly one of a template, a
    feature and an error, whatever the registry answers: never a
    template together with a feature, never nothing without an error.
    A reference that does not parse is refused before any request is
    made. *)
Theorem FetchItemMetadata_exactly_one (ociRef : string) (w : world) :
  exactly_one (FetchItemMetadata' ociRef w).1
  /\ (is_err (ParseOciRef ociRef) = true ->
      (FetchItemMetadata' ociRef w).2 = w
      /\ (FetchItemMetadata' ociRef w).1
         = (None, None,
            Some ("parsing OCI ref: invalid OCI reference: " +:+ ociRef))).
Proof.
  unfold FetchItemMetadata. split.
  - destruct (ParseOciRef ociRef) as [[[registry repository] tag]|e]; [|exact I].
    destruct (GetManifest _ _ _ _ _ _ _ _ _ _) as [[[layers|e] c1] w1]; [|exact I].
    apply itemLayers_exactly_one.
  - unfold ParseOciRef.
    destruct (_ =? -1); [intros _; split; reflexivity | discriminate].
Qed.

(** X8: the collection cache, one call after the other.  A collection
    in the cache is returned with no request and the cache is left as
    it is; metadata that was fetched is in the cache afterwards under
    the collection base, so that a later call for any reference of
    that collection returns the same metadata with no request; a
    failed call stores nothing. *)
Theorem FetchCollectionMetadata_cache (ociRef : string)
    (cache : gmap string CollectionMetadata) (w : world) :
  let base := extractCollectionBase ociRef in
  let r := FetchCollectionMetadata' ociRef cache w in
  (forall cached, cache !! base = Some cached -> r = (Ok cached, cache, w))
  /\ (forall md, r.1.1 = Ok md ->
        r.1.2 !! base = Some md
        /\ forall ociRef2 w2, extractCollectionBase ociRef2 = base ->
             FetchCollectionMetadata' ociRef2 r.1.2 w2 = (Ok md, r.1.2, w2))
  /\ (is_err r.1.1 = true -> r.1.2 = cache)
  /\ (forall k, k <> base -> r.1.2 !! k = cache !! k).
Proof.
  cbv zeta. set (base := extractCollectionBase ociRef).
  assert (Hloop : forall registry repository layers c w1,
            let r := collectionLayers' base registry repository layers c cache w1 in
            (forall md, r.1.1 = Ok md -> r.1.2 = <[base := md]> cache)
            /\ (is_err r.1.1 = true -> r.1.2 = cache)).
  { intros registry repository layers. cbv zeta.
    induction layers as [|layer rest IH]; intros c w1; cbn [collectionLayers].
    - cbn [fst snd]. split; [discriminate | reflexivity].
    - destruct (GetBlob _ _ _ _ _ _ _ _ _) as [[[blob|e] c1] w2]; [|apply IH].
      destruct (extractCollectionJSON _ _ _ _ blob) as [md|e]; [|apply IH].
      cbn [fst snd]. split; [now intros ? [= <-] | discriminate]. }
  unfold FetchCollectionMetadata. fold base.
  destruct (cache !! base) as [cached0|] eqn:Hc.
  { cbn [fst snd]. split; [now intros ? [= ->]|].
    split; [|split; reflexivity].
    intros md [= <-]. split; [assumption|].
    intros ociRef2 w2 ->. now rewrite Hc. }
  split; [discriminate|].
  assert (Hgoal : forall r : result CollectionMetadata * gmap string CollectionMetadata
                             * world,
            (forall md, r.1.1 = Ok md -> r.1.2 = <[base := md]> cache) ->
            (is_err r.1.1 = true -> r.1.2 = cache) ->
            (forall md, r.1.1 = Ok md ->
               r.1.2 !! base = Some md
               /\ forall ociRef2 w2, extractCollectionBase ociRef2 = base ->
                    FetchCollectionMetadata' ociRef2 r.1.2 w2 = (Ok md, r.1.2, w2))
            /\ (is_err r.1.1 = true -> r.1.2 = cache)
            /\ (forall k, k <> base -> r.1.2 !! k = cache !! k)).
  { intros [[[md0|e0] cache1] w1] Hok Herr; cbn [fst snd] in *.
    - rewrite (Hok md0 eq_refl). split; [|split; [discriminate|]].
      + intros md [= <-]. split; [apply lookup_insert_eq|].
        intros ociRef2 w2 E. unfold FetchCollectionMetadata. rewrite E.
        now rewrite lookup_insert_eq.
      + intros k Hk. now apply lookup_insert_ne.
    - rewrite (Herr eq_refl). split; [discriminate|]. split; reflexivity. }
  destruct (ParseOciRef (base +:+ ":latest")) as [[[registry repository] tag]|e].
  2:{ apply Hgoal; cbn [fst snd]; [discriminate | reflexivity]. }
  destruct (GetManifest _ _ _ _ _ _ _ _ _ _) as [[[layers|e] c1] w1].
  2:{ apply Hgoal; cbn [fst snd]; [discriminate | reflexivity]. }
  apply Hgoal; apply Hloop.
Qed.
End FetchFacts.

Section CountFacts.
Context {world : Type}.
Variable http_Get : string -> world -> result Response * world.
Variable http_Do : Request -> world -> result Response * world.
Variable http_NewRequest : string -> string -> result Request.
Variable decodeToken : string * option error -> result string.
Variable decodeManifest : string * option error -> result (list ociLayer).
Context {reader : Type}.
Variable gzip_NewReader : string -> result reader.
Variable bytes_NewReader : string -> reader.
Variable tar_NewReader : reader -> tar_stream.
Context {TemplateDefinition FeatureDefinition CollectionMetadata : Type}.
Variable unmarshalTemplate : string -> result TemplateDefinition.
Variable unmarshalFeature : string -> result FeatureDefinition.
Variable unmarshalCollection : string -> result CollectionMetadata.

#[local] Abbreviation cGet := (counted_Get http_Get).
#[local] Abbreviation cDo := (uncounted_Do http_Do).

Lemma GetToken_count (c : Client) (registry repository : string) (wn : world * nat) :
  let r := GetToken cGet decodeToken c registry repository wn in
  (r.2.2 <= S wn.2)%nat
  /\ (is_Some (tokens c !! (registry +:+ "/" +:+ repository)) ->
      r.2.2 = wn.2 /\ r.1.2 = c /\ is_err r.1.1 = false)
  /\ (is_err r.1.1 = false ->
      is_Some (tokens r.1.2 !! (registry +:+ "/" +:+ repository))).
Proof.
  cbv zeta. unfold GetToken.
  destruct (tokens c !! (registry +:+ "/" +:+ repository)) as [tok|] eqn:Hc.
  { cbn [fst snd is_err]. rewrite Hc. repeat split; eauto. }
  unfold counted_Get. destruct (http_Get _ wn.1) as [[resp|e] w1]; cbn [fst snd is_err].
  2:{ split; [lia|]. split; [intros [? [=]] | discriminate]. }
  destruct (negb (StatusCode resp =? StatusOK)); cbn [fst snd is_err].
  { split; [lia|]. split; [intros [? [=]] | discriminate]. }
  destruct (decodeToken (Body resp)) as [tok|e]; cbn [fst snd tokens is_err].
  - split; [lia|]. split; [intros [? [=]]|]. intros _. rewrite lookup_insert_eq. eauto.
  - split; [lia|]. split; [intros [? [=]] | discriminate].
Qed.

Lemma GetBlob_count (c : Client) (registry repository digest : string)
    (wn : world * nat) :
  is_Some (tokens c !! (registry +:+ "/" +:+ repository)) ->
  let r := GetBlob cGet cDo http_NewRequest decodeToken c registry repository digest wn in
  r.2.2 = wn.2 /\ r.1.2 = c.
Proof.
  intros Hc. cbv zeta. unfold GetBlob.
  destruct (GetToken_count c registry repository wn) as (_ & H & _).
  destruct (H Hc) as (Hn & Hcl & Herr). clear H.
  destruct (GetToken _ _ _ _ _ _) as [[[tok|e] c1] wn1]; cbn [fst snd is_err] in *;
    [|discriminate]. subst c1.
  destruct (http_NewRequest _ _) as [req|e]; cbn [fst snd is_err]; [|now split].
  unfold uncounted_Do.
  destruct (http_Do _ wn1.1) as [[resp|e] w2]; cbn [fst snd is_err]; [|now split].
  destruct (negb (StatusCode resp =? StatusOK)); cbn [fst snd is_err]; [now split|].
  destruct (Body resp) as [data [e|]]; cbn [fst snd is_err]; now split.
Qed.

Lemma GetManifest_count (c : Client) (registry repository tag : string)
    (wn : world * nat) :
  let r := GetManifest cGet cDo http_NewRequest decodeToken decodeManifest
             c registry repository tag wn in
  (r.2.2 <= S wn.2)%nat
  /\ (is_err r.1.1 = false ->
      is_Some (tokens r.1.2 !! (registry +:+ "/" +:+ repository))).
Proof.
  cbv zeta. unfold GetManifest.
  destruct (GetToken_count c registry repository wn) as (Hn & _ & Hok).
  destruct (GetToken _ _ _ _ _ _) as [[[tok|e] c1] wn1]; cbn [fst snd is_err] in *;
    [|split; [assumption | discriminate]].
  specialize (Hok eq_refl).
  destruct (http_NewRequest _ _) as [req|e]; cbn [fst snd is_err];
    [|split; [assumption | discriminate]].
  unfold uncounted_Do.
  destruct (http_Do _ wn1.1) as [[resp|e] w2]; cbn [fst snd is_err];
    [|split; [assumption | discriminate]].
  destruct (negb (StatusCode resp =? StatusOK)); cbn [fst snd is_err];
    [split; [assumption | discriminate]|].
  destruct (decodeManifest (Body resp)) as [layers|e]; cbn [fst snd is_err];
    split; try assumption; try discriminate. intros _. assumption.
Qed.

(** X7: one call of [FetchItemMetadata] or of [FetchCollectionMetadata]
    asks the token endpoint at most once, however many layers the
    manifest has: the token fetched for the manifest is the one every
    blob request is made with, and a call whose token request fails
    ends there. *)
Theorem fetch_asks_for_one_token (ociRef : string) (w : world) (n : nat) :
  ((FetchItemMetadata cGet cDo http_NewRequest decodeToken decodeManifest
      gzip_NewReader bytes_NewReader tar_NewReader unmarshalTemplate unmarshalFeature
      ociRef (w, n)).2.2 <= S n)%nat
  /\ (forall cache,
        ((FetchCollectionMetadata cGet cDo http_NewRequest decodeToken decodeManifest
            gzip_NewReader bytes_NewReader tar_NewReader unmarshalCollection
            ociRef cache (w, n)).2.2 <= S n)%nat).
Proof.
  split.
  - unfold FetchItemMetadata.
    destruct (ParseOciRef ociRef) as [[[registry repository] tag]|e];
      [|cbn [fst snd is_err]; lia].
    destruct (GetManifest_count NewClient registry repository tag (w, n)) as [Hn Hok].
    destruct (GetManifest _ _ _ _ _ _ _ _ _ _) as [[[layers|e] c1] wn1];
      cbn [fst snd is_err] in *; [|assumption].
    specialize (Hok eq_refl). revert Hn. generalize wn1. clear wn1.
    induction layers as [|layer rest IH]; intros wn1 Hn; cbn [itemLayers];
      [assumption|].
    destruct (GetBlob_count c1 registry repository (Digest layer) wn1 Hok) as [Hb Hcl].
    destruct (GetBlob _ _ _ _ _ _ _ _ _) as [[[blob|e] c2] wn2]; cbn [fst snd is_err] in *;
      subst c2; [|apply IH; lia].
    destruct (extractItemJSON _ _ _ _ _ blob) as [[[t|] [f|]] [e|]];
      cbn [fst snd is_err]; try (apply IH; lia); lia.
  - intros cache. unfold FetchCollectionMetadata.
    destruct (cache !! extractCollectionBase ociRef); [cbn [fst snd is_err]; lia|].
    destruct (ParseOciRef _) as [[[registry repository] tag]|e];
      [|cbn [fst snd is_err]; lia].
    destruct (GetManifest_count NewClient registry repository tag (w, n)) as [Hn Hok].
    destruct (GetManifest _ _ _ _ _ _ _ _ _ _) as [[[layers|e] c1] wn1];
      cbn [fst snd is_err] in *; [|assumption].
    specialize (Hok eq_refl). revert Hn. generalize wn1. clear wn1.
    induction layers as [|layer rest IH]; intros wn1 Hn; cbn [collectionLayers];
      [assumption|].
    destruct (GetBlob_count c1 registry repository (Digest layer) wn1 Hok) as [Hb Hcl].
    destruct (GetBlob _ _ _ _ _ _ _ _ _) as [[[blob|e] c2] wn2]; cbn [fst snd is_err] in *;
      subst c2; [|apply IH; lia].
    destruct (extractCollectionJSON _ _ _ _ blob) as [md|e];
      cbn [fst snd is_err]; [lia | apply IH; lia].
Qed.
End CountFacts.


(** ** How often a key is emitted *)

Lemma count_occ_filter (p : string -> bool) (l : list string) (k : string) :
  count_occ string_dec (List.filter p l) k
  = if p k then count_occ string_dec l k else 0%nat.
Proof.
  induction l as [|x l IH]; cbn [List.filter count_occ]; [now destruct (p k)|].
  destruct (p x) eqn:Hx; cbn [count_occ]; destruct (string_dec x k) as [->|Hne];
    rewrite IH; try rewrite Hx; try reflexivity.
Qed.

Lemma count_occ_NoDup (l : list string) (k : string) :
  NoDup l ->
  count_occ string_dec l k = if bool_decide (k ∈ l) then 1%nat else 0%nat.
Proof.
  intros Hl. destruct (bool_decide (k ∈ l)) eqn:E.
  - apply bool_decide_eq_true, list_elem_of_In in E.
    apply NoDup_ListNoDup in Hl.
    pose proof (proj1 (NoDup_count_occ string_dec l) Hl k) as Hle.
    apply (count_occ_In string_dec) in E. lia.
  - apply bool_decide_eq_false in E. apply count_occ_not_In.
    now rewrite <- list_elem_of_In.
Qed.

Lemma count_occ_sort (l : list string) (k : string) :
  count_occ string_dec (sort_Strings l) k = count_occ string_dec l k.
Proof. apply Permutation_count_occ, sort_Strings_perm. Qed.

(** X9: how often the serializer emits a key.  A key the map does not
    hold is never emitted; with no prior order every key of the map is
    emitted once; under a prior order a key of the map is emitted as
    often as the prior order lists it, and once when it does not list
    it.  So no member is lost, and when the prior order lists no key
    twice the emitted keys are the keys of the map, each once. *)
Theorem orderedKeysForMap_count :
  (forall (m : gmap string value) (o : option keyOrder) (k : string),
     count_occ string_dec (orderedKeysForMap m o) k
     = match m !! k, o with
       | None, _ => 0%nat
       | Some _, None => 1%nat
       | Some _, Some o' => Nat.max 1 (count_occ string_dec (keys o') k)
       end)
  /\ (forall (m : gmap string value) (o : option keyOrder),
        match o with Some o' => NoDup (keys o') | None => True end ->
        NoDup (orderedKeysForMap m o) /\ orderedKeysForMap m o ≡ₚ range_keys m).
Proof.
  assert (Hcount : forall (m : gmap string value) (o : option keyOrder) (k : string),
     count_occ string_dec (orderedKeysForMap m o) k
     = match m !! k, o with
       | None, _ => 0%nat
       | Some _, None => 1%nat
       | Some _, Some o' => Nat.max 1 (count_occ string_dec (keys o') k)
       end).
  { intros m o k.
    assert (Hin : bool_decide (k ∈ range_keys m) = bool_decide (is_Some (m !! k))).
    { apply bool_decide_ext, range_keys_spec. }
    assert (Hm : bool_decide (is_Some (m !! k))
                 = match m !! k with Some _ => true | None => false end).
    { destruct (m !! k) eqn:E.
      - apply bool_decide_eq_true. eauto.
      - apply bool_decide_eq_false. intros [? [=]]. }
    destruct o as [o'|].
    - rewrite orderedKeysForMap_some, count_occ_app. unfold kept_keys.
      rewrite count_occ_sort, !count_occ_filter.
      rewrite (count_occ_NoDup (range_keys m)) by apply range_keys_NoDup.
      rewrite Hin, Hm.
      destruct (m !! k) as [v|]; [|now destruct (bool_decide (k ∉ keys o'))].
      destruct (bool_decide (k ∉ keys o')) eqn:E.
      + apply bool_decide_eq_true in E.
        rewrite (proj1 (count_occ_not_In string_dec (keys o') k))
          by (now rewrite <- list_elem_of_In). reflexivity.
      + apply bool_decide_eq_false in E.
        assert (Hk : k ∈ keys o') by (destruct (decide (k ∈ keys o')); tauto).
        apply list_elem_of_In, (count_occ_In string_dec) in Hk. lia.
    - unfold orderedKeysForMap. rewrite count_occ_sort.
      rewrite (count_occ_NoDup (range_keys m)) by apply range_keys_NoDup.
      rewrite Hin, Hm. now destruct (m !! k). }
  split; [exact Hcount|].
  intros m o Ho.
  assert (Hle : forall k, (count_occ string_dec (orderedKeysForMap m o) k
                           = count_occ string_dec (range_keys m) k)).
  { intros k. rewrite Hcount.
    rewrite (count_occ_NoDup (range_keys m)) by apply range_keys_NoDup.
    replace (bool_decide (k ∈ range_keys m))
      with (match m !! k with Some _ => true | None => false end).
    2:{ symmetry. destruct (m !! k) eqn:E.
        - apply bool_decide_eq_true, range_keys_spec. eauto.
        - apply bool_decide_eq_false. rewrite range_keys_spec. intros [? H].
          congruence. }
    destruct (m !! k); [|reflexivity]. destruct o as [o'|]; [|reflexivity].
    rewrite (count_occ_NoDup (keys o')) by assumption.
    now destruct (bool_decide (k ∈ keys o')). }
  split.
  - apply NoDup_ListNoDup, (NoDup_count_occ string_dec). intros k. rewrite Hle.
    apply (proj1 (NoDup_count_occ string_dec _)), NoDup_ListNoDup, range_keys_NoDup.
  - apply (Permutation_count_occ string_dec). exact Hle.
Qed.

(** A duplicate key in the prior document comes out twice. *)
Example duplicate_key_is_repeated :
  extractKeyOrder 10 (dq "{'a':1,'a':2}") = Returns (Some (KeyOrder ["a"; "a"] ∅))
  /\ marshalOrdered (obj [("a", VNumber "5")]) (Some (KeyOrder ["a"; "a"] ∅))
     = "{" +:+ String nl (dq "  'a': 5,") +:+ String nl (dq "  'a': 5")
       +:+ String nl "}" +:+ String nl EmptyString.
Proof. split; vm_compute; reflexivity. Qed.

(** ** The order read back from the serializer's output *)

Lemma build_children_dom (F : string -> option keyOrder) (ks : list string) (k : string) :
  is_Some (build_children F ks !! k) <-> k ∈ ks /\ is_Some (F k).
Proof.
  unfold build_children.
  assert (H : forall ch : gmap string keyOrder,
            is_Some (foldl (fun ch k => match F k with
                                        | Some c => <[k := c]> ch
                                        | None => ch
                                        end) ch ks !! k)
            <-> is_Some (ch !! k) \/ (k ∈ ks /\ is_Some (F k))).
  { induction ks as [|k' ks IH]; intros ch; cbn [foldl].
    - split; [now left|]. intros [?|[H _]]; [assumption | inversion H].
    - rewrite IH, elem_of_cons. destruct (F k') as [c|] eqn:Ek.
      + destruct (decide (k = k')) as [->|Hne].
        * rewrite lookup_insert_eq, Ek. split; [|eauto]. intros _. right. eauto.
        * rewrite lookup_insert_ne by congruence. tauto.
      + split; [tauto|]. intros [?|[[->|?] Hs]]; try tauto.
        rewrite Ek in Hs. destruct Hs as [? [=]]. }
  rewrite H, lookup_empty. split; [intros [[? [=]]|?]; assumption | tauto].
Qed.

Lemma written_order_some (v : value) (o : option keyOrder) :
  is_Some (written_order v o) <-> exists m, v = VObject m.
Proof.
  destruct v; cbn [written_order]; split; try (intros [? [=]]); eauto.
Qed.

(** X10: what the tracker reads back from the serializer's own output
    of an object, whatever text follows the output: the keys in the
    order they were emitted, and an order of its own for exactly the
    members that are objects.  When the prior order lists exactly the
    keys of the map, the keys read back are the prior order's. *)
Theorem extractKeyOrder_marshalOrdered (m : gmap string value) (o : option keyOrder)
    (junk : string) :
  wf_value (VObject m) = true -> keys_valid (VObject m) = true ->
  exists f0, forall f, (f0 <= f)%nat ->
    exists ch,
      extractKeyOrder f (marshalOrdered (VObject m) o +:+ junk)
      = Returns (Some (KeyOrder (orderedKeysForMap m o) ch))
      /\ (forall k, is_Some (ch !! k) <-> exists m', m !! k = Some (VObject m'))
      /\ (forall o', o = Some o' ->
            (forall k, k ∈ keys o' <-> is_Some (m !! k)) ->
            orderedKeysForMap m o = keys o').
Proof.
  intros Hw Hk.
  destruct (parses_value (VObject m) Hw (keys_valid_roundtrip _ Hk) o 0%nat
              EmptyString (String nl junk) tokenTopValue [] eq_refl eq_refl eq_refl)
    as [f0 H0].
  exists f0. intros f Hf.
  exists (build_children (fun k => written_order (member m k) (child_order o k))
            (orderedKeysForMap m o)).
  split; [|split].
  - unfold extractKeyOrder, marshalOrdered, NewDecoder.
    rewrite append_assoc.
    change (String nl EmptyString +:+ junk) with (String nl junk).
    change (writeValue (VObject m) o "  " 0 +:+ String nl junk)
      with (EmptyString +:+ writeValue (VObject m) o "  " 0 +:+ String nl junk).
    rewrite (H0 f Hf). now rewrite written_order_object.
  - intros k. rewrite build_children_dom, orderedKeysForMap_elem, written_order_some.
    unfold member. destruct (m !! k) as [v|]; simpl.
    + split; [intros [_ [m' ->]]; eauto | intros [m' [= ->]]; eauto].
    + split; [intros [[? [=]] _] | intros [? [=]]].
  - intros o' -> Hkeys. rewrite orderedKeysForMap_some. unfold kept_keys.
    rewrite filter_all, filter_none.
    + change (sort_Strings []) with (@nil string). apply app_nil_r.
    + intros k Hin. apply bool_decide_eq_false. intros Hn. apply Hn, Hkeys.
      now apply range_keys_spec.
    + intros k Hin. apply bool_decide_eq_true. now apply Hkeys.
Qed.

Lemma extractKeyOrder_marshalOrdered_witness :
  let m : gmap string value :=
    list_to_map [("name", VString "test"); ("image", VString "ubuntu");
                 ("features", obj [("b", obj [])])] in
  let o := Some (KeyOrder ["name"; "image"; "features"] ∅) in
  wf_value (VObject m) = true /\ keys_valid (VObject m) = true
  /\ exists f0, forall f, (f0 <= f)%nat ->
       exists ch,
         extractKeyOrder f (marshalOrdered (VObject m) o +:+ "// trailing text")
         = Returns (Some (KeyOrder (orderedKeysForMap m o) ch))
         /\ (forall k, is_Some (ch !! k) <-> exists m', m !! k = Some (VObject m'))
         /\ (forall o', o = Some o' ->
               (forall k, k ∈ keys o' <-> is_Some (m !! k)) ->
               orderedKeysForMap m o = keys o').
Proof.
  cbv zeta. split; [vm_compute; reflexivity|]. split; [vm_compute; reflexivity|].
  apply extractKeyOrder_marshalOrdered; vm_compute; reflexivity.
Defined.

(** ** The loop over an array that does not end *)

(** From a decoder on which [More] says yes and [Token] fails, both
    leaving the decoder as it is, the loop goes on for ever. *)
Lemma decodeArrayOrder_loops (dec : Decoder) :
  More dec = (true, dec) -> Token dec = (TokErr, dec) ->
  forall fuel, decodeArrayOrder fuel dec = OutOfFuel.
Proof.
  intros Hm Ht fuel. induction fuel as [|fuel IH]; [reflexivity|].
  cbn [decodeArrayOrder]. rewrite Hm.
  destruct fuel as [|fuel']; [reflexivity|].
  cbn [decodeValueOrder]. rewrite Ht. exact IH.
Qed.

Lemma extractKeyOrder_loops (c : ascii) (r : string) :
  isSpace c = false -> readValue (String c r) = None ->
  forallb (fun d => negb (Ascii.eqb c d)) ["["; "]"; "{"; "}"; ":"; ","]%char = true ->
  forall fuel, extractKeyOrder fuel ("[" +:+ String c r) = OutOfFuel.
Proof.
  intros Hsp Hscan Hc fuel.
  cbn [forallb] in Hc. rewrite !andb_true_iff, !negb_true_iff in Hc.
  destruct Hc as (C1 & C2 & C3 & C4 & C5 & C6 & _).
  assert (Hmore : forall e, More (mkDecoder (String c r) e tokenArrayStart [tokenTopValue])
                  = (true, mkDecoder (String c r) e tokenArrayStart [tokenTopValue])).
  { intros e. change (String c r) with (EmptyString +:+ String c r).
    rewrite More_at by (reflexivity || assumption). now rewrite C2, C4. }
  assert (Htok : forall e, Token (mkDecoder (String c r) e tokenArrayStart [tokenTopValue])
                 = (TokErr, mkDecoder (String c r) true tokenArrayStart [tokenTopValue])).
  { intros e. unfold Token. cbn [Token_loop buf]. unfold peek.
    cbn [buf skipSpace]. rewrite Hsp. cbn [set_buf buf tokenState err tokenStack].
    rewrite C1, C2, C3, C4, C5, C6. cbn [tokenValueAllowed].
    unfold Decode, set_buf. cbn [err buf tokenState tokenStack]. rewrite Hscan.
    now destruct e. }
  destruct fuel as [|fuel]; [reflexivity|].
  unfold extractKeyOrder. cbn [decodeValueOrder String.append].
  change (String "[" (String c r)) with (EmptyString +:+ String "[" (String c r)).
  unfold NewDecoder. rewrite Token_open_bracket by reflexivity.
  change (Ascii.eqb "[" "{") with false. change (Ascii.eqb "[" "[") with true.
  cbv iota. unfold pushState. cbn [err tokenState tokenStack].
  destruct fuel as [|fuel]; [reflexivity|].
  cbn [decodeArrayOrder]. rewrite Hmore.
  destruct fuel as [|fuel]; [reflexivity|].
  cbn [decodeValueOrder]. rewrite Htok.
  now rewrite (decodeArrayOrder_loops _ (Hmore true) (Htok true)).
Qed.

(** X11: [decodeArrayOrder] asks [More] and reads a value again and
    again, dropping the error of the reading.  Once a reading fails
    without taking input the loop makes no progress: from a decoder on
    which [More] says yes and [Token] fails, both leaving the decoder as
    it is, the call never returns.  So [extractKeyOrder] does not
    return on an opening bracket followed by a text the scanner does
    not accept as a value. *)
Theorem decodeArrayOrder_never_returns :
  (forall dec,
     More dec = (true, dec) -> Token dec = (TokErr, dec) ->
     forall fuel, decodeArrayOrder fuel dec = OutOfFuel)
  /\ (forall (c : ascii) (r : string),
        isSpace c = false -> readValue (String c r) = None ->
        forallb (fun d => negb (Ascii.eqb c d)) ["["; "]"; "{"; "}"; ":"; ","]%char = true ->
        forall fuel, extractKeyOrder fuel ("[" +:+ String c r) = OutOfFuel).
Proof. split; [exact decodeArrayOrder_loops | exact extractKeyOrder_loops]. Qed.

Example extractKeyOrder_stuck_examples :
  (forall fuel, extractKeyOrder fuel "[x]" = OutOfFuel)
  /\ (forall fuel, extractKeyOrder fuel (dq "[tru, 'b']") = OutOfFuel)
  /\ (forall fuel,
        decodeArrayOrder fuel (mkDecoder "2]" false tokenArrayComma [tokenTopValue])
        = OutOfFuel).
Proof.
  split; [|split]; intros fuel.
  - apply (extractKeyOrder_loops "x" "]")%char; reflexivity.
  - apply (extractKeyOrder_loops "t" (dq "ru, 'b']"))%char; reflexivity.
  - apply decodeArrayOrder_loops; reflexivity.
Qed.


(** ** Writing the same configuration again *)

Section WriteAgain.
Context {world : Type}.
Variable os_ReadFile : string -> world -> result string * world.
Variable os_MkdirAll : string -> world -> option error * world.
Variable os_WriteFile : string -> string -> world -> option error * world.
Variable filepath_Dir : string -> string.
Variable jsonc_ToJSON : string -> string.

#[local] Abbreviation WriteConfig2 :=
  (WriteConfig os_ReadFile os_MkdirAll os_WriteFile filepath_Dir jsonc_ToJSON).
#[local] Abbreviation persist2 :=
  (persist os_MkdirAll os_WriteFile filepath_Dir).

(** What a successful [WriteConfig] did. *)
Lemma WriteConfig_success (fuel : nat) (path : string)
    (config : gmap string value) (w w1 : world) :
  WriteConfig2 fuel path config w = Returns (None, w1) ->
  exists order w2,
    os_WriteFile path (marshalOrdered (VObject config) order) w2 = (None, w1).
Proof.
  unfold WriteConfig. destruct (os_ReadFile path w) as [existing w0].
  set (ord := match existing with
              | Ok e => extractKeyOrder fuel (jsonc_ToJSON e)
              | Err _ => Returns None
              end).
  destruct ord as [order| |]; try discriminate.
  unfold persist.
  destruct (os_MkdirAll (filepath_Dir path) w0) as [[e|] w2]; [discriminate|].
  destruct (os_WriteFile path (marshalOrdered (VObject config) order) w2)
    as [[e|] w3] eqn:E; [discriminate|].
  intros [= <-]. eauto.
Qed.

(** X12: writing the same configuration a second time hands the same
    bytes to the file system.  The file system is assumed to give back
    what was written, and the comment stripper to leave the
    serializer's output as it is; the values of the map are well
    formed and its keys valid UTF-8. *)
Theorem WriteConfig_again (fuel : nat) (path : string)
    (config : gmap string value) (w w1 : world) :
  wf_value (VObject config) = true ->
  keys_valid (VObject config) = true ->
  (forall p d w0 w0', os_WriteFile p d w0 = (None, w0') ->
                       fst (os_ReadFile p w0') = Ok d) ->
  (forall order, jsonc_ToJSON (marshalOrdered (VObject config) order)
                 = marshalOrdered (VObject config) order) ->
  WriteConfig2 fuel path config w = Returns (None, w1) ->
  exists data,
    fst (os_ReadFile path w1) = Ok data
    /\ exists f0, forall f, (f0 <= f)%nat ->
         WriteConfig2 f path config w1
         = Returns (persist2 path data (snd (os_ReadFile path w1))).
Proof.
  intros Hw Hk Hfs Hjs Hrun.
  destruct (WriteConfig_success _ _ _ _ _ Hrun) as (order & w2 & Hwr).
  set (data := marshalOrdered (VObject config) order).
  exists data. split; [exact (Hfs _ _ _ _ Hwr)|].
  destruct (marshalOrdered_roundtrip (VObject config) order Hw
              (keys_valid_roundtrip _ Hk)) as [f0 H0].
  exists f0. intros f Hf. unfold WriteConfig.
  pose proof (Hfs _ _ _ _ Hwr) as Hrd.
  destruct (os_ReadFile path w1) as [existing w1'].
  cbn [fst snd] in *. subst existing.
  fold data. unfold data at 1. rewrite Hjs, (H0 f Hf).
  unfold marshalOrdered at 1. rewrite writeValue_written_order.
  reflexivity.
Qed.
End WriteAgain.

Lemma WriteConfig_again_witness :
  let config : gmap string value :=
    list_to_map [("name", VString "test"); ("image", VString "ubuntu")] in
  let path := ".devcontainer/devcontainer.json" in
  let w : gmap string string := {[ path := dq "{'name': 'old', 'other': 1}" ]} in
  let w1 : gmap string string :=
    {[ path := marshalOrdered (VObject config) (Some (KeyOrder ["name"; "other"] ∅)) ]} in
  let run := WriteConfig mem_ReadFile mem_MkdirAll mem_WriteFile id id in
  wf_value (VObject config) = true
  /\ keys_valid (VObject config) = true
  /\ run 20%nat path config w = Returns (None, w1)
  /\ exists data,
       fst (mem_ReadFile path w1) = Ok data
       /\ exists f0, forall f, (f0 <= f)%nat ->
            run f path config w1
            = Returns (persist mem_MkdirAll mem_WriteFile id path data
                         (snd (mem_ReadFile path w1))).
Proof.
  cbv zeta. split; [vm_compute; reflexivity|]. split; [vm_compute; reflexivity|].
  split; [vm_compute; reflexivity|].
  apply (WriteConfig_again mem_ReadFile mem_MkdirAll mem_WriteFile id id 20%nat
           ".devcontainer/devcontainer.json" _
           {[ ".devcontainer/devcontainer.json" := dq "{'name': 'old', 'other': 1}" ]}).
  - vm_compute; reflexivity.
  - vm_compute; reflexivity.
  - intros p d w0 w0' [= <-]. unfold mem_ReadFile. cbn [fst].
    now rewrite lookup_insert_eq.
  - reflexivity.
  - vm_compute; reflexivity.
Defined.

(** ** Replacing the features *)

Lemma featuresMap_snoc (l : list feature.FeatureConfig) (f : feature.FeatureConfig) :
  featuresMap (l ++ [f])
  = <[feature.OciRef f := VObject (feature.Options f)]> (featuresMap l).
Proof.
  unfold featuresMap. rewrite foldl_app. cbn [foldl].
  destruct (0 <? size (feature.Options f))%nat eqn:E; [reflexivity|].
  apply Nat.ltb_ge in E.
  assert (H : feature.Options f = ∅) by (apply map_size_empty_iff; lia).
  now rewrite H.
Qed.

Lemma featuresMap_lookup (features : list feature.FeatureConfig) (ref : string) :
  featuresMap features !! ref
  = (fun f => VObject (feature.Options f))
      <$> last (filter (fun f => feature.OciRef f = ref) features).
Proof.
  induction features as [|f l IH] using rev_ind; [reflexivity|].
  rewrite featuresMap_snoc, filter_app.
  destruct (decide (feature.OciRef f = ref)) as [<-|Hne].
  - rewrite lookup_insert_eq.
    rewrite (filter_cons_True _ f []) by reflexivity.
    rewrite filter_nil, last_snoc. reflexivity.
  - rewrite lookup_insert_ne by assumption.
    rewrite (filter_cons_False _ f []) by assumption.
    rewrite filter_nil, app_nil_r. exact IH.
Qed.

Section ReplaceFacts.
Context {world : Type}.
Variable os_ReadFile : string -> world -> result string * world.
Variable os_MkdirAll : string -> world -> option error * world.
Variable os_WriteFile : string -> string -> world -> option error * world.
Variable filepath_Dir : string -> string.
Variable filepath_Join : list string -> string.
Variable jsonc_ToJSON : string -> string.
Variable json_Unmarshal : string -> result (option (gmap string value)).

#[local] Abbreviation ReplaceAll' :=
  (ReplaceAll os_ReadFile os_MkdirAll os_WriteFile filepath_Dir filepath_Join
     jsonc_ToJSON json_Unmarshal).

(** X13: [ReplaceAll].  The features object it stores has one member
    per reference of the list: the options of the last entry with that
    reference (an empty object when it has none); references that are
    not in the list are gone.  A file that cannot be read or parsed
    gives the error of [ReadConfig] and nothing is written; a document
    that is [null] makes the store into the nil map panic; otherwise
    the configuration written is the one read with only its
    [features] member replaced. *)
Theorem ReplaceAll_spec (fuel : nat) (workspaceFolder : string)
    (features : list feature.FeatureConfig) (w : world) :
  let configPath :=
    filepath_Join [workspaceFolder; ".devcontainer"; "devcontainer.json"] in
  (forall ref,
     featuresMap features !! ref
     = (fun f => VObject (feature.Options f))
         <$> last (filter (fun f => feature.OciRef f = ref) features))
  /\ (forall e w', os_ReadFile configPath w = (Err e, w') ->
        ReplaceAll' fuel workspaceFolder features w
        = Returns (Some ("reading devcontainer.json: " +:+ e), w'))
  /\ (forall data w', os_ReadFile configPath w = (Ok data, w') ->
        match json_Unmarshal (jsonc_ToJSON data) with
        | Err e =>
            ReplaceAll' fuel workspaceFolder features w
            = Returns (Some ("parsing devcontainer.json: " +:+ e), w')
        | Ok None => ReplaceAll' fuel workspaceFolder features w = Panics
        | Ok (Some config) =>
            exists config',
              ReplaceAll' fuel workspaceFolder features w
              = WriteConfig os_ReadFile os_MkdirAll os_WriteFile filepath_Dir
                  jsonc_ToJSON fuel configPath config' w'
              /\ config' !! "features" = Some (VObject (featuresMap features))
              /\ forall k, k <> "features" -> config' !! k = config !! k
        end).
Proof.
  cbv zeta. split; [apply featuresMap_lookup|]. split.
  - intros e w' H. unfold ReplaceAll, ReadConfig. now rewrite H.
  - intros data w' H. unfold ReplaceAll, ReadConfig. rewrite H.
    destruct (json_Unmarshal (jsonc_ToJSON data)) as [[config|]|e];
      try reflexivity.
    eexists. split; [reflexivity|]. split.
    + apply lookup_insert_eq.
    + intros k Hk. now apply lookup_insert_ne.
Qed.
End ReplaceFacts.

(** Two entries with one reference: the later one is written. *)
Example featuresMap_duplicate :
  featuresMap [feature.mkFeatureConfig "ghcr.io/a/b:1" {[ "v" := VString "1" ]};
               feature.mkFeatureConfig "ghcr.io/c/d:1" ∅;
               feature.mkFeatureConfig "ghcr.io/a/b:1" {[ "v" := VString "2" ]}]
  = list_to_map [("ghcr.io/a/b:1", obj [("v", VString "2")]);
                 ("ghcr.io/c/d:1", obj [])].
Proof. vm_compute. reflexivity. Qed.

